(** * keywordTrie: a keyword trie with failure and output links

    Shallow embedding of [miscco::keyword_trie] (keywordTrie.hpp, 2019
    revision) and of the parts of the earlier [keywordTrie::basic_trie]
    revision that the current header dropped ([setCaseSensitivity]) or
    changed ([traverseFail]), and of [addString] of the first revision
    (keywordTrie.cpp).

    Nodes live in the vector [trieNodes]; a [Node*] is modelled as the index
    of the node in that vector (nodes are heap allocated once and never
    moved or freed before the trie is destroyed, so index and address are in
    bijection).  [root] is index 0.  Every pointer of a reachable trie is
    the index of a node; the read of any other index gives [Node.default]
    and the write to it does nothing.

    Integers: [Node::id] is an [int], and takes the value of
    [keywords.size()] converted from [size_t]; [Node::depth] is an [int]
    that the code only increments from 0 and is kept in [Z]; the offsets of
    a [Result] are [size_t].  [char] is [ascii], compared as the code
    compares it, and [std::tolower] is the one of the "C" locale.

    A loop of the code that follows links or empties a queue is a
    [Fixpoint] over an iteration bound taken from the number of nodes; a
    call that exhausts a bound has the outcome [LoopBound], and the lemmas
    show that this never happens on a reachable trie. *)

From Stdlib Require Import ZArith Ascii String List Lia Bool.
From Stdlib Require Import Orders OrdersEx MSetRBT Sorted.
From stdpp Require Import base relations list strings.

Local Open Scope Z_scope.

(** ** Machine integers *)

(** [std::size_t] arithmetic is modulo 2^64. *)
Definition size_t_max : Z := 2 ^ 64.
Definition to_size_t (z : Z) : Z := z mod size_t_max.

(** Conversion of a [size_t] to [int] (32 bit, two's complement). *)
Definition int_max : Z := 2 ^ 31.
Definition to_int (z : Z) : Z := (z + int_max) mod (2 ^ 32) - int_max.

(** [std::tolower] in the "C" locale. *)
Definition tolower (ch : ascii) : ascii :=
  let n := N_of_ascii ch in
  if ((65 <=? n) && (n <=? 90))%N then ascii_of_N (n + 32) else ch.

(** ** Data model *)

Module Result.
(** [struct Result]; the stubs stored in [keywords] are built by
    [Result(key, id)], which leaves [start] and [end] unset (modelled
    as 0). *)
Record t := mk { keyword : string; id : Z; start : Z; end_ : Z }.

(** [Result(const std::string &key, const std::size_t id)] *)
Definition stub (key : string) (i : Z) : t := mk key i 0 0.

(** [Result(const Result &res, const std::size_t endPos)] *)
Definition at_pos (res : t) (endPos : Z) : t :=
  mk (keyword res) (id res)
     (to_size_t (endPos - Z.of_nat (String.length (keyword res)) + 1))
     endPos.
End Result.

Module Node.
(** [struct Node] *)
Record t := mk {
  id : Z;
  depth : Z;
  c : ascii;
  parent : nat;
  failure : nat;
  output : nat;
  children : list nat
}.

(** [Node() = default]: the links are then set by the trie constructor. *)
Definition default : t := mk (-1) 0 zero 0 0 0 [].

Definition with_id (n : t) (i : Z) : t :=
  mk i (depth n) (c n) (parent n) (failure n) (output n) (children n).
Definition with_failure (n : t) (f : nat) : t :=
  mk (id n) (depth n) (c n) (parent n) f (output n) (children n).
Definition with_output (n : t) (o : nat) : t :=
  mk (id n) (depth n) (c n) (parent n) (failure n) o (children n).
Definition push_child (n : t) (ch : nat) : t :=
  mk (id n) (depth n) (c n) (parent n) (failure n) (output n)
     (children n ++ [ch]).
End Node.

#[global] Instance Node_inhabited : Inhabited Node.t := populate Node.default.

Record trie := mkTrie {
  trieNodes : list Node.t;
  keywords : list Result.t
}.

Definition root : nat := 0%nat.

(** Dereference of a node pointer. *)
Definition node (st : trie) (p : nat) : Node.t := trieNodes st !!! p.

(** Assignment through a node pointer. *)
Definition store (st : trie) (p : nat) (n : Node.t) : trie :=
  mkTrie (<[p := n]> (trieNodes st)) (keywords st).

(** ** Outcomes of a call *)

Inductive exn :=
| runtime_error (what : string)
| out_of_range.

(** A call returns, throws, or exceeds the iteration bound given to one of
    its loops. *)
Inductive outcome (A : Type) :=
| Returns (a : A)
| Throws (e : exn)
| LoopBound.
Arguments Returns {A} a.
Arguments Throws {A} e.
Arguments LoopBound {A}.

Definition duplicate_keyword : exn :=
  runtime_error "Attempted to add two identical strings to the keyword tree.".

(** ** The trie *)

(** [keyword_trie()] *)
Definition empty_trie : trie := mkTrie [Node.default] [].

(** The loop [for (Node *child : current->children) if (child->c == character) return child;] *)
Definition child_with (st : trie) (current : nat) (character : ascii)
  : option nat :=
  find (fun child => Ascii.eqb (Node.c (node st child)) character)
       (Node.children (node st current)).

(** [Node *addChild(Node *current, const char &character)] *)
Definition addChild (st : trie) (current : nat) (character : ascii)
  : nat * trie :=
  match child_with st current character with
  | Some child => (child, st)
  | None =>
      let fresh := length (trieNodes st) in
      let n := Node.mk (-1) (Node.depth (node st current) + 1) character
                       current root root [] in
      let st1 := mkTrie (trieNodes st ++ [n]) (keywords st) in
      (fresh, store st1 current (Node.push_child (node st1 current) fresh))
  end.

(** The first half of the body of the loop of [addFailureLinks]: the update
    of [temp->failure]. *)
Definition relinkFailure (st : trie) (temp : nat) : trie :=
  if Node.depth (node st (Node.failure (node st temp)))
     <? Node.depth (node st temp) - 1
  then
    fold_left
      (fun s failchild =>
         if Ascii.eqb (Node.c (node s failchild)) (Node.c (node s temp))
         then store s temp (Node.with_failure (node s temp) failchild)
         else s)
      (Node.children
         (node st (Node.failure (node st (Node.parent (node st temp))))))
      st
  else st.

(** The loop [while (out != root) { if (out->id != -1) break; out = out->failure; }] *)
Fixpoint outputWalk (fuel : nat) (st : trie) (out : nat) : option nat :=
  match fuel with
  | O => None
  | S fuel' =>
      if Nat.eqb out root then Some out
      else if negb (Node.id (node st out) =? -1) then Some out
      else outputWalk fuel' st (Node.failure (node st out))
  end.

(** One iteration of the loop of [addFailureLinks] on the node [temp]. *)
Definition relink (st : trie) (temp : nat) : option trie :=
  let st1 := relinkFailure st temp in
  match outputWalk (S (length (trieNodes st1))) st1
                   (Node.failure (node st1 temp)) with
  | Some out => Some (store st1 temp (Node.with_output (node st1 temp) out))
  | None => None
  end.

(** The loop [while (!q.empty())] of [addFailureLinks]. *)
Fixpoint addFailureLinks_loop (fuel : nat) (q : list nat) (st : trie)
  : outcome unit * trie :=
  match q with
  | [] => (Returns tt, st)
  | temp :: rest =>
      match fuel with
      | O => (LoopBound, st)
      | S fuel' =>
          let q' := rest ++ Node.children (node st temp) in
          match relink st temp with
          | Some st' => addFailureLinks_loop fuel' q' st'
          | None => (LoopBound, st)
          end
      end
  end.

(** [void addFailureLinks()] *)
Definition addFailureLinks (st : trie) : outcome unit * trie :=
  addFailureLinks_loop (length (trieNodes st)) [root] st.

Section Automaton.
(** The template parameter [bool CaseSensitive]. *)
Variable CaseSensitive : bool.

Definition fold_case (ch : ascii) : ascii :=
  if CaseSensitive then ch else tolower ch.

(** The loop of [addString] over the characters of the key. *)
Definition addPath (st : trie) (key : list ascii) : nat * trie :=
  fold_left (fun '(current, s) character =>
               addChild s current (fold_case character))
            key (root, st).

(** [void addString(const std::string &key, const bool addFailure = true)] *)
Definition addString (key : string) (addFailure : bool) (st : trie)
  : outcome unit * trie :=
  match key with
  | EmptyString => (Returns tt, st)
  | _ =>
      let '(current, st1) := addPath st (list_ascii_of_string key) in
      if negb (Node.id (node st1 current) =? -1)
      then (Throws duplicate_keyword, st1)
      else
        let n := Z.of_nat (length (keywords st1)) in
        let st2 := store st1 current
                         (Node.with_id (node st1 current) (to_int n)) in
        let st3 := mkTrie (trieNodes st2)
                          (keywords st2 ++ [Result.stub key n]) in
        if addFailure then addFailureLinks st3 else (Returns tt, st3)
  end.

(** The loop [for (const std::string &key : keyList) addString(key, false);] *)
Fixpoint addStrings_loop (keyList : list string) (st : trie)
  : outcome unit * trie :=
  match keyList with
  | [] => (Returns tt, st)
  | key :: rest =>
      match addString key false st with
      | (Returns _, st') => addStrings_loop rest st'
      | r => r
      end
  end.

(** [void addString(const std::vector<std::string> &keyList)] *)
Definition addString_vector (keyList : list string) (st : trie)
  : outcome unit * trie :=
  match addStrings_loop keyList st with
  | (Returns _, st') => addFailureLinks st'
  | r => r
  end.

(** The loop [while (temp != root)] of [traverseFail]. *)
Fixpoint traverseFail_loop (fuel : nat) (st : trie) (temp : nat)
         (character : ascii) : option nat :=
  match fuel with
  | O => None
  | S fuel' =>
      if Nat.eqb temp root then
        Some (match child_with st root character with
              | Some rootchild => rootchild
              | None => root
              end)
      else
        match child_with st temp character with
        | Some failchild => Some failchild
        | None =>
            traverseFail_loop fuel' st (Node.failure (node st temp))
                              character
        end
  end.

(** [Node *traverseFail(Node *current, const char &character) const] *)
Definition traverseFail (st : trie) (current : nat) (character : ascii)
  : option nat :=
  traverseFail_loop (S (length (trieNodes st))) st
                    (Node.failure (node st current)) character.

(** [Node *findChild(Node *current, const char &character) const] *)
Definition findChild (st : trie) (current : nat) (character : ascii)
  : option nat :=
  match child_with st current character with
  | Some child => Some child
  | None => traverseFail st current character
  end.

(** [keywords.at(n->id)]: the [int] is converted to [size_t] and checked
    against the size of the vector. *)
Definition keywords_at (st : trie) (i : Z) : option Result.t :=
  keywords st !! Z.to_nat (to_size_t i).

(** The loop [while (temp != root)] of [parseText] over the output
    links. *)
Fixpoint outputs_loop (fuel : nat) (st : trie) (temp : nat) (i : Z)
         (Results : list Result.t) : outcome (list Result.t) :=
  match fuel with
  | O => LoopBound
  | S fuel' =>
      if Nat.eqb temp root then Returns Results
      else
        match keywords_at st (Node.id (node st temp)) with
        | None => Throws out_of_range
        | Some res =>
            outputs_loop fuel' st (Node.output (node st temp)) i
                         (Results ++ [Result.at_pos res i])
        end
  end.

(** The body of the loop [for (size_t i = 0; i < text.size(); i++)] of
    [parseText], and the loop itself over the remaining characters. *)
Fixpoint parseText_loop (st : trie) (text : list ascii) (i : Z)
         (current : nat) (Results : list Result.t)
  : outcome (list Result.t) :=
  match text with
  | [] => Returns Results
  | ch :: text' =>
      match findChild st current (fold_case ch) with
      | None => LoopBound
      | Some current' =>
          let direct :=
            if negb (Node.id (node st current') =? -1)
            then match keywords_at st (Node.id (node st current')) with
                 | Some res => Returns (Results ++ [Result.at_pos res i])
                 | None => Throws out_of_range
                 end
            else Returns Results in
          match direct with
          | Returns Results1 =>
              match outputs_loop (S (length (trieNodes st))) st
                      (Node.output (node st current')) i Results1 with
              | Returns Results2 =>
                  parseText_loop st text' (i + 1) current' Results2
              | r => r
              end
          | r => r
          end
      end
  end.

(** [std::vector<Result> parseText(const std::string &text) const] *)
Definition parseText (st : trie) (text : string)
  : outcome (list Result.t) :=
  match text with
  | EmptyString => Returns []
  | _ => parseText_loop st (list_ascii_of_string text) 0 root []
  end.

End Automaton.

Local Close Scope Z_scope.

(** ** Well-formed tries *)

Definition size (st : trie) : nat := length (trieNodes st).

(** The node reached from [p] along the edges labelled by [w], if there is
    one; [walk st w] starts at the root. *)
Fixpoint walk_from (st : trie) (p : nat) (w : list ascii) : option nat :=
  match w with
  | [] => Some p
  | ch :: w' =>
      match child_with st p ch with
      | Some q => walk_from st q w'
      | None => None
      end
  end.

Definition walk (st : trie) (w : list ascii) : option nat :=
  walk_from st root w.

(** The symbols of a key as the trie stores them. *)
Definition normalize (cs : bool) (key : string) : list ascii :=
  map (fold_case cs) (list_ascii_of_string key).

(** The parent and children vectors describe one tree rooted at node 0,
    whose edges out of a node carry distinct symbols. *)
Record wf_tree (st : trie) : Prop := {
  wf_nonempty : 0 < size st;
  wf_root_parent : Node.parent (node st root) = root;
  wf_root_depth : Node.depth (node st root) = 0%Z;
  wf_parent : ∀ i, 0 < i < size st → Node.parent (node st i) < i;
  wf_depth : ∀ i, 0 < i < size st →
    Node.depth (node st i)
    = (Node.depth (node st (Node.parent (node st i))) + 1)%Z;
  wf_children : ∀ p ch, p < size st → ch ∈ Node.children (node st p) →
    0 < ch < size st ∧ Node.parent (node st ch) = p;
  wf_children_nodup : ∀ p, p < size st →
    NoDup (Node.children (node st p));
  wf_children_chars : ∀ p a b, p < size st →
    a ∈ Node.children (node st p) → b ∈ Node.children (node st p) →
    Node.c (node st a) = Node.c (node st b) → a = b
}.

(** Failure and output links point to strictly shallower nodes. *)
Record wf_links (st : trie) : Prop := {
  wfl_root_failure : Node.failure (node st root) = root;
  wfl_root_output : Node.output (node st root) = root;
  wfl_failure : ∀ i, 0 < i < size st →
    Node.failure (node st i) < size st ∧
    (Node.depth (node st (Node.failure (node st i)))
     < Node.depth (node st i))%Z;
  wfl_output : ∀ i, 0 < i < size st →
    Node.output (node st i) < size st ∧
    (Node.depth (node st (Node.output (node st i)))
     < Node.depth (node st i))%Z;
  wfl_output_id : ∀ i, i < size st →
    Node.output (node st i) = root ∨
    Node.id (node st (Node.output (node st i))) ≠ (-1)%Z
}.

(** The word of the link target is a suffix of the word of the node. *)
Record sound_links (st : trie) : Prop := {
  sl_failure : ∀ i w, walk st w = Some i →
    ∃ w', walk st w' = Some (Node.failure (node st i)) ∧ w' `suffix_of` w;
  sl_output : ∀ i w, walk st w = Some i →
    ∃ w', walk st w' = Some (Node.output (node st i)) ∧ w' `suffix_of` w
}.

(** Keyword identifiers: a node that carries an identifier is the end of
    the word of the keyword stored under that index, and the end of the
    word of every stored keyword carries its index (converted to [int],
    unless the conversion gives the value -1 that marks a node without
    keyword). *)
Record wf_keywords (cs : bool) (st : trie) : Prop := {
  wfk_root : Node.id (node st root) = (-1)%Z;
  wfk_node : ∀ i, i < size st → Node.id (node st i) ≠ (-1)%Z →
    ∃ k r, Node.id (node st i) = to_int (Z.of_nat k) ∧
           keywords st !! k = Some r ∧
           walk st (normalize cs (Result.keyword r)) = Some i;
  wfk_keyword : ∀ k r, keywords st !! k = Some r →
    Result.id r = Z.of_nat k ∧ Result.keyword r ≠ EmptyString ∧
    ∃ i, walk st (normalize cs (Result.keyword r)) = Some i ∧
         (to_int (Z.of_nat k) ≠ (-1)%Z →
          Node.id (node st i) = to_int (Z.of_nat k))
}.

Record Inv (cs : bool) (st : trie) : Prop := {
  inv_tree : wf_tree st;
  inv_links : wf_links st;
  inv_sound : sound_links st;
  inv_keywords : wf_keywords cs st
}.

(** ** Relations between states *)

(** [same_shape st st'] : the two states have the same tree. *)
Record same_shape (st st' : trie) : Prop := {
  same_size : size st' = size st;
  same_depth : ∀ i, Node.depth (node st' i) = Node.depth (node st i);
  same_c : ∀ i, Node.c (node st' i) = Node.c (node st i);
  same_parent : ∀ i, Node.parent (node st' i) = Node.parent (node st i);
  same_children : ∀ i,
    Node.children (node st' i) = Node.children (node st i)
}.

(** [same_tree st st'] : the two states have the same nodes up to the
    failure and output links, and the same keywords. *)
Record same_tree (st st' : trie) : Prop := {
  same_tree_shape :> same_shape st st';
  same_keywords : keywords st' = keywords st;
  same_id : ∀ i, Node.id (node st' i) = Node.id (node st i)
}.

(** [fail_chain st n m] : [m] is reached from [n] by following failure
    links, zero or more times. *)
Inductive fail_chain (st : trie) : nat → nat → Prop :=
| fail_chain_here n : fail_chain st n n
| fail_chain_next n m :
    fail_chain st (Node.failure (node st n)) m → fail_chain st n m.

(** The bookkeeping of the traversal: no node is queued twice, and every
    queued or processed node other than the root has a processed
    parent. *)
Record bfs_inv (cs : bool) (st0 : trie) (popped q : list nat) (st : trie)
  : Prop := {
  bfs_Inv : Inv cs st;
  bfs_same : same_tree st0 st;
  bfs_nodup : NoDup (popped ++ q);
  bfs_lt : ∀ x, x ∈ popped ++ q → x < size st0;
  bfs_parent : ∀ x, x ∈ popped ++ q →
    x = root ∨ Node.parent (node st0 x) ∈ popped
}.

(** [extends st st'] : [st'] has the nodes of [st], possibly with new
    descendants; identifiers and keywords are those of [st]. *)
Record extends (st st' : trie) : Prop := {
  ext_size : size st ≤ size st';
  ext_keywords : keywords st' = keywords st;
  ext_id : ∀ i, Node.id (node st' i) = Node.id (node st i);
  ext_walk : ∀ w i, walk st w = Some i → walk st' w = Some i;
  ext_walk_inv : ∀ w i,
    walk st' w = Some i → i < size st → walk st w = Some i
}.

(** The assignment of the identifier and the extension of the keyword
    vector at the end of [addString]. *)
Definition record_keyword (st1 : trie) (current : nat) (key : string) : trie :=
  let n := Z.of_nat (length (keywords st1)) in
  let st2 := store st1 current (Node.with_id (node st1 current) (to_int n)) in
  mkTrie (trieNodes st2) (keywords st2 ++ [Result.stub key n]).

(** [grows st st'] : what [st] knows stays true in [st']: the word of a
    node, the identifier of a node that has one, the stored keywords. *)
Record grows (st st' : trie) : Prop := {
  grows_size : size st ≤ size st';
  grows_walk : ∀ w i, walk st w = Some i → walk st' w = Some i;
  grows_id : ∀ i, Node.id (node st i) ≠ (-1)%Z →
    Node.id (node st' i) = Node.id (node st i);
  grows_keywords : keywords st `prefix_of` keywords st'
}.

(** The result of [addString] on a well-formed trie. *)
Inductive addString_result (cs : bool) (key : string) (st : trie)
  : outcome unit → trie → Prop :=
| addString_noop :
    key = EmptyString → addString_result cs key st (Returns tt) st
| addString_throws i :
    key ≠ EmptyString →
    walk st (normalize cs key) = Some i → Node.id (node st i) ≠ (-1)%Z →
    addString_result cs key st (Throws duplicate_keyword) st
| addString_added st' i :
    key ≠ EmptyString →
    (∀ j, walk st (normalize cs key) = Some j →
          Node.id (node st j) = (-1)%Z) →
    keywords st'
    = keywords st ++ [Result.stub key (Z.of_nat (length (keywords st)))] →
    walk st' (normalize cs key) = Some i →
    Node.id (node st' i) = to_int (Z.of_nat (length (keywords st))) →
    addString_result cs key st (Returns tt) st'.

(** ** Batch insertion from a set; reachable states *)

(** [std::set<std::string>]: a red-black tree ordered by [operator<] on
    strings, the lexicographic order on the (unsigned) characters;
    iteration visits [StringSet.elements] in order. *)
Module StringSet := MSetRBT.Make String_as_OT.

(** [void addString(const std::set<std::string> &keyList)] *)
Definition addString_set (cs : bool) (keyList : StringSet.t) (st : trie)
  : outcome unit * trie :=
  match addStrings_loop cs (StringSet.elements keyList) st with
  | (Returns _, st') => addFailureLinks st'
  | r => r
  end.

(** One call of a public modifier; the state after the call is also the
    state a client sees when it catches the exception of a call that
    throws. *)
Inductive step (cs : bool) (st : trie) : trie → Prop :=
| step_addString key addFailure o st' :
    addString cs key addFailure st = (o, st') → step cs st st'
| step_addString_vector keyList o st' :
    addString_vector cs keyList st = (o, st') → step cs st st'
| step_addString_set keyList o st' :
    addString_set cs keyList st = (o, st') → step cs st st'.

(** The states of a trie after a sequence of calls of its public
    modifiers, starting from the constructor. *)
Definition reachable (cs : bool) (st : trie) : Prop :=
  rtc (step cs) empty_trie st.

(** ** Statements of the properties *)

(** The target of [k] successive failure links from [n]. *)
Definition failure_iter (st : trie) (k : nat) (n : nat) : nat :=
  Nat.iter k (λ m, Node.failure (node st m)) n.

(** The root fails to itself, every other node fails to a strictly
    shallower node, and failure links lead from every node to the root
    in at most as many steps as the node is deep. *)
Definition link_structure (st : trie) : Prop :=
  Node.failure (node st root) = root ∧
  (∀ n, 0 < n < size st →
     Node.failure (node st n) < size st ∧
     (Node.depth (node st (Node.failure (node st n)))
      < Node.depth (node st n))%Z) ∧
  (∀ n, n < size st →
     ∃ k, (Z.of_nat k ≤ Node.depth (node st n))%Z ∧
          failure_iter st k n = root).

(** The keywords of the README, inserted one call at a time. *)
Definition ushers_keys : list string :=
  ["hers"; "his"; "she"; "he"; "her"]%string.

(** A client's sequence of calls [trie.addString(key)], one per key, that
    the first exception ends. *)
Fixpoint addString_each (cs : bool) (keys : list string) (st : trie)
  : outcome unit * trie :=
  match keys with
  | [] => (Returns tt, st)
  | key :: rest =>
      match addString cs key true st with
      | (Returns _, st') => addString_each cs rest st'
      | r => r
      end
  end.

(** The automaton after these five calls of [addString]. *)
Definition ushers_trie : trie :=
  snd (addString_each true ushers_keys empty_trie).

(** The construction of a [std::set] from a list of elements. *)
Definition std_set (l : list string) : StringSet.t :=
  fold_left (λ s key, StringSet.add key s) l StringSet.empty.

(** The automaton with the keywords "aab" and "b". *)
Definition aab_b_trie : trie :=
  snd (addString_vector true ["aab"; "b"]%string empty_trie).

(** [key] ends at position [i] of [text]. *)
Definition ends_at (cs : bool) (key text : string) (i : nat) : Prop :=
  i < String.length text ∧
  normalize cs key `suffix_of` take (S i) (normalize cs text).

(** The scan of [text] reports every inserted keyword at every position
    where it ends. *)
Definition scan_complete (cs : bool) (st : trie) (text : string) : Prop :=
  ∃ Results, parseText cs st text = Returns Results ∧
    ∀ k res i, keywords st !! k = Some res →
      ends_at cs (Result.keyword res) text i →
      ∃ m, m ∈ Results ∧ Result.keyword m = Result.keyword res ∧
           Result.end_ m = Z.of_nat i.

(** The failure link as the specification computes it: from [x] (the
    failure node of the parent), follow failure links while the node is
    not the root and has no child labelled [ch]; the child labelled [ch]
    of the node where the walk stops, or else the root. *)
Fixpoint spec_failure_from (fuel : nat) (st : trie) (x : nat) (ch : ascii)
  : option nat :=
  match fuel with
  | O => None
  | S fuel' =>
      match child_with st x ch with
      | Some y => Some y
      | None =>
          if Nat.eqb x root then Some root
          else spec_failure_from fuel' st (Node.failure (node st x)) ch
      end
  end.

(** The failure link of a node [n] of depth greater than 1, after the
    words of the specification. *)
Definition spec_failure (st : trie) (n : nat) : option nat :=
  spec_failure_from (S (size st)) st
    (Node.failure (node st (Node.parent (node st n))))
    (Node.c (node st n)).

(** [target] is the node of the longest proper suffix of the word of [n]
    that is a word of the trie. *)
Definition longest_proper_suffix_node (st : trie) (n target : nat) : Prop :=
  ∃ w w', walk st w = Some n ∧ walk st w' = Some target ∧
    w' `suffix_of` w ∧ length w' < length w ∧
    ∀ v j, walk st v = Some j → v `suffix_of` w → length v < length w →
           length v ≤ length w'.

(** The stubs that a batch pushes to the keyword vector when it starts
    with [base] keywords: one per non-empty key, in iteration order. *)
Fixpoint batch_stubs (base : nat) (keyList : list string) : list Result.t :=
  match keyList with
  | [] => []
  | key :: rest =>
      match key with
      | EmptyString => batch_stubs base rest
      | _ => Result.stub key (Z.of_nat base) :: batch_stubs (S base) rest
      end
  end.

(** The set of the example driver, written in the order of the source. *)
Definition driver_keys : list string :=
  ["he"; "she"; "help"; "hey"; "we"; "her"]%string.

(** The text with every symbol folded. *)
Definition tolower_string (s : string) : string :=
  string_of_list_ascii (map tolower (list_ascii_of_string s)).

(** The automaton of scenario (e). *)
Definition Her_trie : trie := snd (addString false "Her" true empty_trie).

(** ** The revision with a run-time flag *)

Module basic_trie.
(** [keywordTrie::basic_trie<char>] (keywordTrie.hpp, 2016 revision): the
    nodes and keywords of [trie], and the flag [caseSensitive]. *)
Record t := mk { nodes : trie; caseSensitive : bool }.

(** [basic_trie()] *)
Definition empty : t := mk empty_trie true.

(** The error of [setCaseSensitivity]. *)
Definition switching_error : exn :=
  runtime_error "Switching case sensitivity with existing trie might lead to invalid results".

(** [void setCaseSensitivity (bool flag)] *)
Definition setCaseSensitivity (flag : bool) (bt : t) : outcome unit * t :=
  let bt1 := mk (nodes bt) flag in
  if negb (caseSensitive bt1)
     && negb (Nat.eqb (length (keywords (nodes bt1))) 0)
  then (Throws switching_error, bt1)
  else (Returns tt, bt1).

(** [node* addChild (node *parent, const CharType character)] *)
Definition addChild (st : trie) (parent : nat) (character : ascii)
  : nat * trie :=
  let fresh := length (trieNodes st) in
  let n := Node.mk (-1) (Node.depth (node st parent) + 1) character
                   parent root root [] in
  let st1 := mkTrie (trieNodes st ++ [n]) (keywords st) in
  (fresh, store st1 parent (Node.push_child (node st1 parent) fresh)).

(** [node* findChild (node *current, const CharType character, bool addWord)]
    with [addWord = true], the only use made of it by [addString]. *)
Definition findChild_add (cs : bool) (st : trie) (current : nat)
           (character : ascii) : nat * trie :=
  match find (λ child,
                if cs then Ascii.eqb (Node.c (node st child)) character
                else Ascii.eqb (tolower (Node.c (node st child)))
                               (tolower character))
             (Node.children (node st current)) with
  | Some child => (child, st)
  | None =>
      if cs then addChild st current character
      else addChild st current (tolower character)
  end.

(** [void addString (const string_type &key, bool addFailure)]; the
    revision's [addFailureLinks] is the one of the current header. *)
Definition addString (key : string) (addFailure : bool) (bt : t)
  : outcome unit * t :=
  match key with
  | EmptyString => (Returns tt, bt)
  | _ =>
      let '(current, st1) :=
        fold_left (λ '(current, s) character,
                     findChild_add (caseSensitive bt) s current character)
                  (list_ascii_of_string key) (root, nodes bt) in
      if negb (Node.id (node st1 current) =? -1)%Z
      then (Throws duplicate_keyword, mk st1 (caseSensitive bt))
      else
        let n := Z.of_nat (length (keywords st1)) in
        let st2 := store st1 current
                         (Node.with_id (node st1 current) (to_int n)) in
        let st3 := mkTrie (trieNodes st2)
                          (keywords st2 ++ [Result.stub key (to_int n)]) in
        if addFailure
        then let '(o, st4) := addFailureLinks st3 in
             (o, mk st4 (caseSensitive bt))
        else (Returns tt, mk st3 (caseSensitive bt))
  end.

(** A case-sensitive automaton that holds the keyword "he". *)
Definition he_trie : t := snd (addString "he" true empty).

(** [Result (const result &res, int endPos)] of this revision, whose
    fields are of type [int]: [start(endPos-res.keyword.size()+2)]. *)
Definition Result_at_pos (res : Result.t) (endPos : Z) : Result.t :=
  Result.mk (Result.keyword res) (Result.id res)
    (to_int (to_size_t
               (endPos - Z.of_nat (String.length (Result.keyword res)) + 2)))
    endPos.


End basic_trie.

(** ** Correct match records; stable nodes *)

(** The record [res] delimits an occurrence of its keyword in the symbols
    [full] of the text: offsets are 0-based, [end] is inclusive, and the
    symbols from [start] to [end] are, after case folding, those of the
    keyword. *)
Definition match_ok (cs : bool) (full : list ascii) (res : Result.t) : Prop :=
  Result.start res
  = (Result.end_ res - Z.of_nat (String.length (Result.keyword res)) + 1)%Z ∧
  (0 ≤ Result.start res)%Z ∧
  (Result.end_ res < Z.of_nat (length full))%Z ∧
  take (String.length (Result.keyword res))
       (drop (Z.to_nat (Result.start res)) (map (fold_case cs) full))
  = normalize cs (Result.keyword res).

(** The iteration of the loop on [x] changes nothing. *)
Definition stable (st : trie) (x : nat) : Prop := relink st x = Some st.

(** The traversal visits the nodes level by level, leaves every visited
    node stable, and queues the children of every visited node. *)
Record bfs_stable (cs : bool) (st0 : trie) (popped q : list nat) (st : trie)
  : Prop := {
  bs_inv : bfs_inv cs st0 popped q st;
  bs_level : ∃ d q1 q2,
    q = q1 ++ q2 ∧
    Forall (λ x, (Node.depth (node st0 x) ≤ d)%Z) popped ∧
    Forall (λ x, Node.depth (node st0 x) = d) q1 ∧
    Forall (λ x, Node.depth (node st0 x) = (d + 1)%Z) q2;
  bs_stable : ∀ x, x ∈ popped → stable st x;
  bs_closed : ∀ x ch, x ∈ popped → ch ∈ Node.children (node st0 x) →
    ch ∈ popped ++ q;
  bs_root : root ∈ popped ++ q
}.

(** A second traversal over stable nodes. *)
Record bfs_again (cs : bool) (st1 : trie) (P popped q : list nat) (st : trie)
  : Prop := {
  ba_inv : bfs_inv cs st1 popped q st;
  ba_eq : st = st1;
  ba_in : ∀ x, x ∈ q → x ∈ P
}.

(** ** Statements of further properties *)

(** A keyword with the case-normalized form of [key] is stored. *)
Definition stored (cs : bool) (st : trie) (key : string) : Prop :=
  ∃ res, res ∈ keywords st ∧
         normalize cs (Result.keyword res) = normalize cs key.

(** The order in which [parseText] reports two records: by end offset,
    and for one end offset the longer keyword first. *)
Definition reported_before (a b : Result.t) : Prop :=
  (Result.end_ a < Result.end_ b)%Z ∨
  Result.end_ a = Result.end_ b ∧
  String.length (Result.keyword b) < String.length (Result.keyword a).

(** [nearest_keyword st n out] : [out] is the first node that carries a
    keyword identifier among [n], its failure node, the failure node of
    that node, and so on; it is the root when the root is met first. *)
Inductive nearest_keyword (st : trie) : nat → nat → Prop :=
| nearest_root : nearest_keyword st root root
| nearest_here n :
    n ≠ root → Node.id (node st n) ≠ (-1)%Z → nearest_keyword st n n
| nearest_further n out :
    n ≠ root → Node.id (node st n) = (-1)%Z →
    nearest_keyword st (Node.failure (node st n)) out →
    nearest_keyword st n out.

(** The sum of the lengths of the stored keywords. *)
Definition total_length (ks : list Result.t) : nat :=
  foldr (λ res acc, String.length (Result.keyword res) + acc) 0 ks.

(** The node [parseText] is in after the symbols [text], when it was in
    [current] before them. *)
Fixpoint scan_state (cs : bool) (st : trie) (text : list ascii)
         (current : nat) : option nat :=
  match text with
  | [] => Some current
  | ch :: text' =>
      match findChild st current (fold_case cs ch) with
      | Some current' => scan_state cs st text' current'
      | None => None
      end
  end.

(** The record [r] is the stub of a stored keyword, completed with the
    offsets of an occurrence that ends at [Result.end_ r]. *)
Definition reported (st : trie) (r : Result.t) : Prop :=
  ∃ k res, keywords st !! k = Some res ∧
           r = Result.at_pos res (Result.end_ r).

(** Every node other than the root is the end of a non-empty prefix of a
    stored keyword, and the nodes are at most one more than the symbols
    of the stored keywords. *)
Record covered (cs : bool) (st : trie) : Prop := {
  cov_node : ∀ n, n < size st → n ≠ root →
    ∃ w r, walk st w = Some n ∧ r ∈ keywords st ∧
           w `prefix_of` normalize cs (Result.keyword r);
  cov_size : size st ≤ 1 + total_length (keywords st)
}.

(** The trie without its failure and output links: the nodes with their
    identifiers, symbols, parents and children, and the keywords. *)
Definition unlink_node (n : Node.t) : Node.t :=
  Node.mk (Node.id n) (Node.depth n) (Node.c n) (Node.parent n) root root
          (Node.children n).

Definition unlink (st : trie) : trie :=
  mkTrie (map unlink_node (trieNodes st)) (keywords st).

(** Every failure link leads to the node of the longest proper suffix of
    the word of its node that is a word of the trie. *)
Definition links_exact (st : trie) : Prop :=
  ∀ n w, walk st w = Some n → n ≠ root →
    longest_proper_suffix_node st n (Node.failure (node st n)).

(** Every output link leads to the nearest node with a keyword on the
    chain of failure links that starts at the failure node. *)
Definition outputs_exact (st : trie) : Prop :=
  ∀ n w, walk st w = Some n →
    nearest_keyword st (Node.failure (node st n)) (Node.output (node st n)).

(** [n] is the node of the longest suffix of [t] that is a word of the
    trie. *)
Definition best (st : trie) (t : list ascii) (n : nat) : Prop :=
  ∃ w, walk st w = Some n ∧ w `suffix_of` t ∧
       ∀ v j, walk st v = Some j → v `suffix_of` t → length v ≤ length w.

(** The keywords "he" and "e", inserted without link construction. *)
Definition he_e_trie : trie :=
  snd (addString true "e" false (snd (addString true "he" false empty_trie))).

(** The symbols on the edges are folded to lower case. *)
Definition lowercase (st : trie) : Prop :=
  ∀ i, 0 < i < size st → tolower (Node.c (node st i)) = Node.c (node st i).

(** The case-sensitive automaton with the one keyword "a", inserted
    without link construction. *)
Definition a_trie : trie := snd (addString true "a" false empty_trie).


(** The keywords of the README, inserted by [addString(key, false)]:
    no link construction has run. *)
Definition ushers_unlinked : trie :=
  snd (addStrings_loop true ushers_keys empty_trie).

(** ** The search of the revision with a run-time flag *)

Module basic_trie_scan.
(** [node* traverseFail (node *current, const CharType character)] of
    [keywordTrie::basic_trie] (2016 revision): the loop ends at the root
    and returns it. *)
Fixpoint traverseFail_loop (fuel : nat) (st : trie) (temp : nat)
         (character : ascii) : option nat :=
  match fuel with
  | O => None
  | S fuel' =>
      if Nat.eqb temp root then Some temp
      else
        match child_with st temp character with
        | Some failchild => Some failchild
        | None =>
            traverseFail_loop fuel' st (Node.failure (node st temp))
                              character
        end
  end.

Definition traverseFail (st : trie) (current : nat) (character : ascii)
  : option nat :=
  traverseFail_loop (S (length (trieNodes st))) st
                    (Node.failure (node st current)) character.

(** What the current header adds after the loop: the child of the root
    for the symbol, if there is one. *)
Definition root_step (st : trie) (character : ascii) (x : nat) : nat :=
  if Nat.eqb x root
  then match child_with st root character with
       | Some rootchild => rootchild
       | None => root
       end
  else x.

End basic_trie_scan.

(** ** The first revision *)

Module trie_cpp.
(** [keywordTrie::trie] of keywordTrie.cpp and keywordTrie.h, the first
    revision of the library: nodes without output link, and the keywords
    kept as strings. *)

(** [struct node] *)
Record node := mkNode {
  id : Z;
  depth : Z;
  c : ascii;
  parent : nat;
  failure : nat;
  children : list nat
}.

(** [node()], with the links that the constructor of the trie sets. *)
Definition default : node := mkNode (-1) 0 zero 0 0 [].

#[global] Instance node_inhabited : Inhabited node := populate default.

Record t := mk { trieNodes : list node; keywords : list string }.

Definition get (st : t) (p : nat) : node := trieNodes st !!! p.

Definition set (st : t) (p : nat) (n : node) : t :=
  mk (<[p := n]> (trieNodes st)) (keywords st).

(** [trie::trie()] *)
Definition empty : t := mk [default] [].

Definition duplicate_keyword : exn :=
  runtime_error "Attempted to add two identical strings to keyword tree.".

(** [node* trie::addChild (node *parent, char &character)] *)
Definition addChild (st : t) (parent_ : nat) (character : ascii) : nat * t :=
  let fresh := length (trieNodes st) in
  let n := mkNode (-1) (depth (get st parent_) + 1) character parent_ root
                  [] in
  let st1 := mk (trieNodes st ++ [n]) (keywords st) in
  let p := get st1 parent_ in
  (fresh,
   set st1 parent_
       (mkNode (id p) (depth p) (c p) (parent p) (failure p)
               (children p ++ [fresh]))).

(** The loop [for (node *child : current->children) if (child->c == character) return child;] *)
Definition child_with (st : t) (current : nat) (character : ascii)
  : option nat :=
  find (λ child, Ascii.eqb (c (get st child)) character)
       (children (get st current)).

(** [node* trie::findChild (node *current, char &character, bool addWord)] *)
Definition findChild (st : t) (current : nat) (character : ascii)
           (addWord : bool) : nat * t :=
  match child_with st current character with
  | Some child => (child, st)
  | None =>
      if addWord then addChild st current character
      else (failure (get st current), st)
  end.

(** The body of the loop of [addFailureLinks] on the node [temp]. *)
Definition relinkFailure (st : t) (temp : nat) : t :=
  if (depth (get st (failure (get st temp))) <? depth (get st temp) - 1)%Z
  then
    fold_left
      (λ s failchild,
         if Ascii.eqb (c (get s failchild)) (c (get s temp))
         then let n := get s temp in
              set s temp (mkNode (id n) (depth n) (c n) (parent n) failchild
                                 (children n))
         else s)
      (children (get st (failure (get st (parent (get st temp))))))
      st
  else st.

(** The loop [while (!q.empty())] of [addFailureLinks]. *)
Fixpoint addFailureLinks_loop (fuel : nat) (q : list nat) (st : t)
  : outcome unit * t :=
  match q with
  | [] => (Returns tt, st)
  | temp :: rest =>
      match fuel with
      | O => (LoopBound, st)
      | S fuel' =>
          addFailureLinks_loop fuel' (rest ++ children (get st temp))
                               (relinkFailure st temp)
      end
  end.

(** [void trie::addFailureLinks()] *)
Definition addFailureLinks (st : t) : outcome unit * t :=
  addFailureLinks_loop (length (trieNodes st)) [root] st.

(** [void trie::addString (const std::string &key, bool addFailure)]: the
    key is pushed to [keywords] before the path is looked up. *)
Definition addString (key : string) (addFailure : bool) (st : t)
  : outcome unit * t :=
  match key with
  | EmptyString => (Returns tt, st)
  | _ =>
      let st0 := mk (trieNodes st) (keywords st ++ [key]) in
      let '(current, st1) :=
        fold_left (λ '(current, s) character,
                     findChild s current character true)
                  (list_ascii_of_string key) (root, st0) in
      if negb (id (get st1 current) =? -1)%Z
      then (Throws duplicate_keyword, st1)
      else
        let n := get st1 current in
        let st2 :=
          set st1 current
              (mkNode (to_int (to_size_t
                                 (Z.of_nat (length (keywords st1)) - 1)))
                      (depth n) (c n) (parent n) (failure n) (children n)) in
        if addFailure then addFailureLinks st2 else (Returns tt, st2)
  end.

(** The node reached from [p] along the edges labelled by [w]. *)
Fixpoint walk_from (st : t) (p : nat) (w : list ascii) : option nat :=
  match w with
  | [] => Some p
  | ch :: w' =>
      match child_with st p ch with
      | Some q => walk_from st q w'
      | None => None
      end
  end.

(** The trie after [addString("he")] on a new trie. *)
Definition he_trie : t := snd (addString "he" true empty).

End trie_cpp.

(** ** Pointer reads and writes *)

Lemma size_store st p n : size (store st p n) = size st.
Proof. unfold size, store; simpl. apply length_insert. Qed.

Lemma node_store_eq st p n : p < size st → node (store st p n) p = n.
Proof. intros H. unfold node, store; simpl. by apply list_lookup_total_insert_eq. Qed.

Lemma node_store_ne st p q n : p ≠ q → node (store st p n) q = node st q.
Proof. intros H. unfold node, store; simpl. by apply list_lookup_total_insert_ne. Qed.

(** ** Children lookup *)

Lemma child_with_Some st p ch x :
  child_with st p ch = Some x →
  x ∈ Node.children (node st p) ∧ Node.c (node st x) = ch.
Proof.
  unfold child_with. intros H. apply find_some in H as [Hin Heq].
  split; [by apply list_elem_of_In | by apply Ascii.eqb_eq].
Qed.

Lemma child_with_None st p ch x :
  child_with st p ch = None → x ∈ Node.children (node st p) →
  Node.c (node st x) ≠ ch.
Proof.
  unfold child_with. intros H Hin Heq.
  apply list_elem_of_In in Hin.
  pose proof (find_none _ _ H x Hin) as Hf. simpl in Hf.
  apply Ascii.eqb_neq in Hf. done.
Qed.

Lemma child_with_unique st p x :
  wf_tree st → p < size st → x ∈ Node.children (node st p) →
  child_with st p (Node.c (node st x)) = Some x.
Proof.
  intros Hwf Hp Hin.
  destruct (child_with st p (Node.c (node st x))) as [y|] eqn:E.
  - apply child_with_Some in E as [Hy Hc]. f_equal.
    by apply (wf_children_chars st Hwf p).
  - exfalso. by eapply child_with_None.
Qed.

(** [child_with] only reads the children of [p] and their symbols. *)
Lemma child_with_ext st st' p ch :
  Node.children (node st' p) = Node.children (node st p) →
  (∀ x, x ∈ Node.children (node st p) →
        Node.c (node st' x) = Node.c (node st x)) →
  child_with st' p ch = child_with st p ch.
Proof.
  unfold child_with. intros -> Hc.
  induction (Node.children (node st p)) as [|a l IH]; [done|].
  simpl. rewrite Hc by left. destruct (Ascii.eqb _ _); [done|].
  apply IH. intros x Hx. apply Hc. by right.
Qed.

(** ** Words and walks *)

Lemma walk_from_app st p w1 w2 :
  walk_from st p (w1 ++ w2) = walk_from st p w1 ≫= λ q, walk_from st q w2.
Proof.
  revert p. induction w1 as [|a w1 IH]; intros p; simpl; [done|].
  destruct (child_with st p a); [apply IH | done].
Qed.

Lemma walk_snoc st w ch :
  walk st (w ++ [ch]) = walk st w ≫= λ p, child_with st p ch.
Proof.
  unfold walk. rewrite walk_from_app. destruct (walk_from st root w); [|done].
  simpl. by destruct (child_with _ _ _).
Qed.

Lemma walk_snoc_inv st w ch x :
  walk st (w ++ [ch]) = Some x →
  ∃ p, walk st w = Some p ∧ child_with st p ch = Some x.
Proof. rewrite walk_snoc. destruct (walk st w) as [p|]; [eauto | done]. Qed.

Lemma walk_lt st w i : wf_tree st → walk st w = Some i → i < size st.
Proof.
  intros Hwf. revert i. induction w as [|ch w IH] using rev_ind; intros i.
  - intros [= <-]. apply Hwf.
  - intros (p & Hp & Hc)%walk_snoc_inv. apply child_with_Some in Hc as [Hc _].
    apply (wf_children st Hwf p); eauto.
Qed.

Lemma walk_snoc_parent st w ch x :
  wf_tree st → walk st (w ++ [ch]) = Some x →
  0 < x < size st ∧ Node.c (node st x) = ch ∧
  walk st w = Some (Node.parent (node st x)).
Proof.
  intros Hwf (p & Hp & Hc)%walk_snoc_inv.
  apply child_with_Some in Hc as [Hin Hc].
  destruct (wf_children st Hwf p x) as [? <-]; eauto using walk_lt.
Qed.

Lemma walk_root_nil st w : wf_tree st → walk st w = Some root → w = [].
Proof.
  intros Hwf H. destruct w as [|ch w _] using rev_ind; [done|].
  apply walk_snoc_parent in H as [? _]; [|done]. unfold root in *. lia.
Qed.

(** A node has at most one word. *)
Lemma walk_inj st w1 w2 i :
  wf_tree st → walk st w1 = Some i → walk st w2 = Some i → w1 = w2.
Proof.
  intros Hwf. revert w2 i.
  induction w1 as [|a w1 IH] using rev_ind; intros w2 i H1 H2.
  - injection H1 as <-. symmetry. by eapply walk_root_nil.
  - destruct w2 as [|b w2 _] using rev_ind.
    + injection H2 as <-. by eapply walk_root_nil.
    + apply walk_snoc_parent in H1 as (_ & <- & H1); [|done].
      apply walk_snoc_parent in H2 as (_ & <- & H2); [|done].
      f_equal. eauto.
Qed.

Lemma depth_walk st w i :
  wf_tree st → walk st w = Some i →
  Node.depth (node st i) = Z.of_nat (length w).
Proof.
  intros Hwf. revert i. induction w as [|ch w IH] using rev_ind; intros i H.
  - injection H as <-. apply Hwf.
  - apply walk_snoc_parent in H as (Hi & _ & H); [|done].
    rewrite (wf_depth st Hwf) by done. rewrite (IH _ H).
    rewrite length_app. simpl. lia.
Qed.

Lemma depth_nonneg st i :
  wf_tree st → i < size st → (0 ≤ Node.depth (node st i) ≤ Z.of_nat i)%Z.
Proof.
  intros Hwf. induction i as [i IH] using lt_wf_ind. intros Hi.
  destruct (decide (i = 0)) as [->|Hne].
  - change 0 with root. rewrite (wf_root_depth st Hwf). lia.
  - pose proof (wf_parent st Hwf i ltac:(lia)) as Hp.
    rewrite (wf_depth st Hwf) by lia.
    specialize (IH _ Hp ltac:(lia)). lia.
Qed.

Lemma depth_pos st i :
  wf_tree st → 0 < i < size st → (0 < Node.depth (node st i))%Z.
Proof.
  intros Hwf Hi. rewrite (wf_depth st Hwf) by done.
  pose proof (wf_parent st Hwf i Hi).
  pose proof (depth_nonneg st (Node.parent (node st i)) Hwf ltac:(lia)). lia.
Qed.

(** ** States that differ in their links only *)

Lemma same_shape_refl st : same_shape st st.
Proof. by split. Qed.

Lemma same_shape_trans st1 st2 st3 :
  same_shape st1 st2 → same_shape st2 st3 → same_shape st1 st3.
Proof.
  intros [] []. split; intros;
    repeat match goal with H : ∀ _, _ = _ |- _ => rewrite H; clear H end;
    congruence.
Qed.

Lemma same_shape_sym st1 st2 : same_shape st1 st2 → same_shape st2 st1.
Proof. intros []. by split. Qed.

Lemma same_tree_refl st : same_tree st st.
Proof. split; [apply same_shape_refl | done..]. Qed.

Lemma same_tree_trans st1 st2 st3 :
  same_tree st1 st2 → same_tree st2 st3 → same_tree st1 st3.
Proof.
  intros [H1 K1 I1] [H2 K2 I2]. split.
  - by eapply same_shape_trans.
  - congruence.
  - intros i. by rewrite I2, I1.
Qed.

Lemma same_tree_sym st1 st2 : same_tree st1 st2 → same_tree st2 st1.
Proof. intros [H K I]. split; [by apply same_shape_sym | done..]. Qed.

Lemma node_store_gen st p q n :
  node (store st p n) q
  = if decide (p = q ∧ p < size st) then n else node st q.
Proof.
  destruct (decide (p = q ∧ p < size st)) as [[-> Hlt]|Hn].
  - by apply node_store_eq.
  - destruct (decide (p = q)) as [->|Hne]; [|by apply node_store_ne].
    unfold node, store, size in *; simpl.
    rewrite list_insert_ge; [done | lia].
Qed.

Lemma store_same st p : store st p (node st p) = st.
Proof.
  destruct st as [ns ks]. unfold store, node; simpl. f_equal.
  apply list_insert_id'. intros H. by apply list_lookup_lookup_total_lt.
Qed.

Lemma same_tree_store_failure st p f :
  same_tree st (store st p (Node.with_failure (node st p) f)).
Proof.
  split; [split; [apply size_store|..] | done |]; intros i;
    rewrite node_store_gen; by destruct (decide _) as [[-> _]|_].
Qed.

Lemma same_tree_store_output st p o :
  same_tree st (store st p (Node.with_output (node st p) o)).
Proof.
  split; [split; [apply size_store|..] | done |]; intros i;
    rewrite node_store_gen; by destruct (decide _) as [[-> _]|_].
Qed.

Lemma child_with_shape st st' p ch :
  same_shape st st' → child_with st' p ch = child_with st p ch.
Proof.
  intros Hs. apply child_with_ext.
  - apply Hs.
  - intros x _. apply Hs.
Qed.

Lemma walk_from_shape st st' p w :
  same_shape st st' → walk_from st' p w = walk_from st p w.
Proof.
  intros Hs. revert p. induction w as [|ch w IH]; intros p; simpl; [done|].
  rewrite (child_with_shape st st') by done.
  destruct (child_with st p ch); [apply IH | done].
Qed.

Lemma walk_shape st st' w : same_shape st st' → walk st' w = walk st w.
Proof. apply walk_from_shape. Qed.

Lemma walk_same st st' w : same_tree st st' → walk st' w = walk st w.
Proof. intros Hs. apply walk_shape, Hs. Qed.

Lemma child_with_same st st' p ch :
  same_tree st st' → child_with st' p ch = child_with st p ch.
Proof. intros Hs. apply child_with_shape, Hs. Qed.

Lemma wf_tree_shape st st' : same_shape st st' → wf_tree st → wf_tree st'.
Proof.
  intros Hs Hwf. destruct Hs as [Hsz Hd Hc Hp Hch].
  split.
  - rewrite Hsz. apply Hwf.
  - rewrite Hp. apply Hwf.
  - rewrite Hd. apply Hwf.
  - intros i. rewrite Hsz, Hp. apply Hwf.
  - intros i. rewrite Hsz, !Hd, Hp. apply Hwf.
  - intros p ch. rewrite Hsz, Hch, Hp. apply Hwf.
  - intros p. rewrite Hsz, Hch. apply Hwf.
  - intros p a b. rewrite Hsz, Hch, !Hc. apply Hwf.
Qed.

Lemma wf_tree_same st st' : same_tree st st' → wf_tree st → wf_tree st'.
Proof. intros Hs. apply wf_tree_shape, Hs. Qed.

Lemma wf_keywords_same cs st st' :
  same_tree st st' → wf_keywords cs st → wf_keywords cs st'.
Proof.
  intros Hs Hwf. pose proof Hs as [[Hsz _ _ _ _] Hk Hid].
  split.
  - rewrite Hid. apply Hwf.
  - intros i. rewrite Hsz, Hid, Hk. intros Hi Hne.
    destruct (wfk_node cs st Hwf i Hi Hne) as (k & r & ? & ? & ?).
    exists k, r. by rewrite (walk_same st st').
  - intros k r. rewrite Hk. intros Hr.
    destruct (wfk_keyword cs st Hwf k r Hr) as (? & ? & i & ? & ?).
    split_and!; [done..|]. exists i. by rewrite (walk_same st st'), Hid.
Qed.

(** ** The failure-link update of one node *)

Lemma relinkFailure_fold_same st temp l s :
  same_tree st s →
  same_tree st
    (fold_left
       (λ s failchild,
          if Ascii.eqb (Node.c (node s failchild)) (Node.c (node s temp))
          then store s temp (Node.with_failure (node s temp) failchild)
          else s) l s).
Proof.
  revert s. induction l as [|a l IH]; intros s Hs; simpl; [done|].
  apply IH. destruct (Ascii.eqb _ _); [|done].
  eapply same_tree_trans; [done | apply same_tree_store_failure].
Qed.

Lemma relinkFailure_same st temp : same_tree st (relinkFailure st temp).
Proof.
  unfold relinkFailure. destruct (_ <? _)%Z; [|apply same_tree_refl].
  apply relinkFailure_fold_same, same_tree_refl.
Qed.

Lemma find_none_intro {A} (f : A → bool) l :
  (∀ x, x ∈ l → f x = false) → find f l = None.
Proof.
  intros H. destruct (find f l) as [y|] eqn:E; [|done].
  apply find_some in E as [Hin Hy]. apply list_elem_of_In in Hin.
  rewrite (H y Hin) in Hy. done.
Qed.

Lemma relinkFailure_fold st temp l s :
  same_tree st s → NoDup l →
  (∀ a b, a ∈ l → b ∈ l → Node.c (node st a) = Node.c (node st b) → a = b) →
  fold_left
    (λ s failchild,
       if Ascii.eqb (Node.c (node s failchild)) (Node.c (node s temp))
       then store s temp (Node.with_failure (node s temp) failchild)
       else s) l s
  = match find (λ x, Ascii.eqb (Node.c (node st x)) (Node.c (node st temp))) l
    with
    | Some fc => store s temp (Node.with_failure (node s temp) fc)
    | None => s
    end.
Proof.
  revert s. induction l as [|a l IH]; intros s Hs Hnd Hu; simpl; [done|].
  apply NoDup_cons in Hnd as [Ha Hnd].
  rewrite !(same_c st s Hs).
  destruct (Ascii.eqb (Node.c (node st a)) (Node.c (node st temp))) eqn:E.
  - rewrite IH; [| eapply same_tree_trans;
                     [done | apply same_tree_store_failure] | done |].
    + rewrite find_none_intro; [done|]. intros x Hx.
      apply Ascii.eqb_neq. intros Hc. apply Ascii.eqb_eq in E.
      assert (a = x) as -> by (apply Hu; [left | by right | congruence]).
      done.
    + intros x y Hx Hy. apply Hu; by right.
  - apply IH; [done..|]. intros x y Hx Hy. apply Hu; by right.
Qed.

(** With distinct symbols on the edges out of a node, the loop over the
    children of the parent's failure node selects the child labelled with
    the symbol of [temp], when there is one. *)
Lemma relinkFailure_spec st temp :
  wf_tree st →
  relinkFailure st temp
  = if (Node.depth (node st (Node.failure (node st temp)))
        <? Node.depth (node st temp) - 1)%Z
    then
      match child_with st
              (Node.failure (node st (Node.parent (node st temp))))
              (Node.c (node st temp)) with
      | Some fc => store st temp (Node.with_failure (node st temp) fc)
      | None => st
      end
    else st.
Proof.
  intros Hwf. unfold relinkFailure. destruct (_ <? _)%Z; [|done].
  set (pf := Node.failure (node st (Node.parent (node st temp)))).
  destruct (decide (pf < size st)) as [Hlt|Hge].
  - rewrite (relinkFailure_fold st); [done | apply same_tree_refl | |].
    + by apply Hwf.
    + intros a b. by apply (wf_children_chars st Hwf pf a b).
  - unfold child_with. replace (node st pf) with Node.default; [done|].
    unfold node, size in *. rewrite list_lookup_total_alt.
    rewrite lookup_ge_None_2; [done | lia].
Qed.

(** ** Chains of failure links *)

Lemma outputWalk_chain fuel st out r :
  outputWalk fuel st out = Some r →
  fail_chain st out r ∧ (r = root ∨ Node.id (node st r) ≠ (-1)%Z).
Proof.
  revert out. induction fuel as [|fuel IH]; intros out; simpl; [done|].
  destruct (Nat.eqb_spec out root) as [->|Hne].
  { intros [= <-]. split; [constructor | by left]. }
  destruct (Z.eqb_spec (Node.id (node st out)) (-1)) as [Hid|Hid]; simpl.
  - intros H. apply IH in H as [H ?]. split; [by constructor | done].
  - intros [= <-]. split; [constructor | by right].
Qed.

Lemma fail_chain_lt st n m :
  wf_tree st → wf_links st → fail_chain st n m →
  n < size st → m < size st ∧ (Node.depth (node st m) ≤ Node.depth (node st n))%Z.
Proof.
  intros Hwf Hl. induction 1 as [n|n m _ IH]; intros Hn; [split; [done|lia]|].
  destruct (decide (n = 0)) as [->|Hne].
  - change 0 with root in *. rewrite (wfl_root_failure st Hl) in IH. by apply IH.
  - destruct (wfl_failure st Hl n) as [? ?]; [lia|].
    destruct IH as [? ?]; [done|]. split; [done | lia].
Qed.

Lemma fail_chain_root st n m :
  wf_links st → fail_chain st n m → n = root → m = root.
Proof.
  intros Hl. induction 1 as [n|n m _ IH]; [done|]. intros ->.
  apply IH, Hl.
Qed.

Lemma fail_chain_suffix st n m w :
  sound_links st → fail_chain st n m → walk st w = Some n →
  ∃ w', walk st w' = Some m ∧ w' `suffix_of` w.
Proof.
  intros Hs H. revert w. induction H as [n|n m _ IH]; intros w Hw; [by exists w|].
  destruct (sl_failure st Hs n w Hw) as (w1 & Hw1 & Hsuf).
  destruct (IH w1 Hw1) as (w2 & Hw2 & Hsuf2).
  exists w2. split; [done | by etrans].
Qed.

Lemma outputWalk_total fuel st out :
  wf_tree st → wf_links st → out < size st →
  (Node.depth (node st out) < Z.of_nat fuel)%Z →
  is_Some (outputWalk fuel st out).
Proof.
  intros Hwf Hl. revert out. induction fuel as [|fuel IH]; intros out Hout Hd.
  { pose proof (depth_nonneg st out Hwf Hout). lia. }
  simpl. destruct (Nat.eqb_spec out root) as [->|Hne]; [done|].
  destruct (negb _); [done|].
  destruct (wfl_failure st Hl out) as [? ?]; [unfold root in *; lia|].
  apply IH; [done | lia].
Qed.

(** ** One iteration of the link construction preserves the invariant *)

Ltac case_store :=
  rewrite ?node_store_gen in *;
  repeat match goal with
         | |- context [decide (?p = ?q ∧ ?p < ?n)] =>
             destruct (decide (p = q ∧ p < n)) as [[? ?]|?]; simplify_eq/=
         | H : context [decide (?p = ?q ∧ ?p < ?n)] |- _ =>
             destruct (decide (p = q ∧ p < n)) as [[? ?]|?]; simplify_eq/=
         end.

(** When the failure link of [temp] is reassigned, the new target is the
    child of the parent's failure node labelled with the symbol of
    [temp]; it is strictly shallower than [temp]. *)
Lemma relinkFailure_target st temp fc :
  wf_tree st → wf_links st → temp < size st →
  (Node.depth (node st (Node.failure (node st temp)))
   <? Node.depth (node st temp) - 1)%Z = true →
  child_with st (Node.failure (node st (Node.parent (node st temp))))
             (Node.c (node st temp)) = Some fc →
  0 < temp ∧ 0 < Node.parent (node st temp) ∧ fc < size st ∧
  (Node.depth (node st fc) < Node.depth (node st temp))%Z.
Proof.
  intros Hwf Hl Htemp Hcond Hfc. apply Z.ltb_lt in Hcond.
  assert (0 < temp) as Hpos.
  { destruct (decide (temp = 0)) as [->|]; [|lia]. change 0 with root in *.
    rewrite (wfl_root_failure st Hl), (wf_root_depth st Hwf) in Hcond. lia. }
  pose proof (wf_parent st Hwf temp ltac:(lia)) as Hpar.
  pose proof (wf_depth st Hwf temp ltac:(lia)) as Hdep.
  destruct (wfl_failure st Hl temp ltac:(lia)) as [Hf _].
  pose proof (depth_nonneg st _ Hwf Hf) as Hfd.
  assert (0 < Node.parent (node st temp)) as Hppos.
  { destruct (decide (Node.parent (node st temp) = 0)) as [E|]; [|lia].
    rewrite E in Hdep. change 0 with root in Hdep.
    rewrite (wf_root_depth st Hwf) in Hdep. lia. }
  destruct (wfl_failure st Hl (Node.parent (node st temp)) ltac:(lia))
    as [Hpf Hpfd].
  apply child_with_Some in Hfc as [Hin _].
  destruct (wf_children st Hwf _ _ Hpf Hin) as [Hfcr Hfcp].
  pose proof (wf_depth st Hwf fc Hfcr) as Hfcd. rewrite Hfcp in Hfcd.
  split_and!; [done | done | lia | lia].
Qed.

Lemma relinkFailure_Inv cs st temp :
  Inv cs st → temp < size st → Inv cs (relinkFailure st temp).
Proof.
  intros [Hwf Hl Hs Hk] Htemp.
  pose proof (relinkFailure_same st temp) as Hsame.
  rewrite relinkFailure_spec in * by done.
  destruct (_ <? _)%Z eqn:Hcond; [|by split].
  destruct (child_with _ _ _) as [fc|] eqn:Hfc; [|by split].
  destruct (relinkFailure_target st temp fc) as (Hpos & Hppos & Hfcs & Hfcd);
    [done..|].
  set (st' := store st temp (Node.with_failure (node st temp) fc)) in *.
  assert (∀ i, Node.output (node st' i) = Node.output (node st i)) as Hout.
  { intros i. subst st'. by case_store. }
  assert (∀ i, i ≠ temp →
            Node.failure (node st' i) = Node.failure (node st i)) as Hfne.
  { intros i Hi. subst st'. by case_store. }
  assert (Node.failure (node st' temp) = fc) as Hfeq.
  { subst st'. case_store; [done | lia]. }
  pose proof Hsame as [[Hsz Hd _ _ _] _ Hid].
  split.
  - by eapply wf_tree_same.
  - split.
    + rewrite Hfne by (unfold root; lia). apply Hl.
    + rewrite Hout. apply Hl.
    + intros i Hi. rewrite Hsz in *. rewrite !Hd.
      destruct (decide (i = temp)) as [->|Hne].
      * by rewrite Hfeq.
      * rewrite Hfne by done. by apply Hl.
    + intros i Hi. rewrite Hsz in *. rewrite !Hd, Hout. by apply Hl.
    + intros i Hi. rewrite Hsz in *. rewrite Hid, Hout. by apply Hl.
  - split.
    + intros i w. rewrite (walk_same st st') by done. intros Hw.
      destruct (decide (i = temp)) as [->|Hne].
      * rewrite Hfeq. destruct w as [|ch w _] using rev_ind.
        { injection Hw as <-. unfold root in *. lia. }
        apply walk_snoc_parent in Hw as (_ & Hch & Hw); [|done].
        destruct (sl_failure st Hs _ _ Hw) as (w' & Hw' & Hsuf).
        exists (w' ++ [ch]). split; [|by apply suffix_app].
        rewrite (walk_same st st') by done.
        rewrite walk_snoc, Hw'. simpl. by rewrite <- Hch.
      * rewrite Hfne by done.
        destruct (sl_failure st Hs _ _ Hw) as (w' & Hw' & Hsuf).
        exists w'. by rewrite (walk_same st st').
    + intros i w. rewrite (walk_same st st'), Hout by done. intros Hw.
      destruct (sl_output st Hs _ _ Hw) as (w' & Hw' & Hsuf).
      exists w'. by rewrite (walk_same st st').
  - by eapply wf_keywords_same.
Qed.

Lemma relink_Inv cs st temp :
  Inv cs st → temp < size st →
  ∃ st', relink st temp = Some st' ∧ Inv cs st' ∧ same_tree st st'.
Proof.
  intros HI Htemp.
  pose proof (relinkFailure_Inv cs st temp HI Htemp) as [Hwf Hl Hs Hk].
  pose proof (relinkFailure_same st temp) as Hsame1.
  unfold relink. set (st1 := relinkFailure st temp) in *.
  assert (temp < size st1) as Htemp1 by (by rewrite (same_size st st1 Hsame1)).
  assert (Node.failure (node st1 temp) < size st1) as Hf.
  { destruct (decide (temp = 0)) as [->|].
    - change 0 with root. rewrite (wfl_root_failure st1 Hl). apply Hwf.
    - apply Hl. lia. }
  destruct (outputWalk_total (S (length (trieNodes st1))) st1
              (Node.failure (node st1 temp))) as [out Hout]; [done..| |].
  { pose proof (depth_nonneg st1 _ Hwf Hf). unfold size in *. lia. }
  rewrite Hout. apply outputWalk_chain in Hout as [Hch Hroot].
  destruct (fail_chain_lt st1 _ _ Hwf Hl Hch Hf) as [Houts Houtd].
  set (st2 := store st1 temp (Node.with_output (node st1 temp) out)).
  assert (same_tree st1 st2) as Hsame2 by apply same_tree_store_output.
  assert (∀ i, Node.failure (node st2 i) = Node.failure (node st1 i)) as Hfail.
  { intros i. subst st2. by case_store. }
  assert (∀ i, i ≠ temp →
            Node.output (node st2 i) = Node.output (node st1 i)) as Hone.
  { intros i Hi. subst st2. by case_store. }
  assert (Node.output (node st2 temp) = out) as Hoeq.
  { subst st2. case_store; [done | lia]. }
  pose proof Hsame2 as [[Hsz Hd _ _ _] _ Hid].
  exists st2. split; [done|]. split; [|by eapply same_tree_trans].
  split.
  - by eapply wf_tree_same.
  - split.
    + rewrite Hfail. apply Hl.
    + destruct (decide (temp = root)) as [->|Hne].
      * rewrite Hoeq. rewrite (wfl_root_failure st1 Hl) in Hch.
        by eapply fail_chain_root.
      * rewrite Hone by done. apply Hl.
    + intros i Hi. rewrite Hsz in *. rewrite !Hd, Hfail. by apply Hl.
    + intros i Hi. rewrite Hsz in *. rewrite !Hd.
      destruct (decide (i = temp)) as [->|Hne].
      * rewrite Hoeq. split; [done|].
        destruct (wfl_failure st1 Hl temp) as [_ ?]; [lia|]. lia.
      * rewrite Hone by done. by apply Hl.
    + intros i Hi. rewrite Hsz in *. rewrite Hid.
      destruct (decide (i = temp)) as [->|Hne].
      * by rewrite Hoeq.
      * rewrite Hone by done. by apply Hl.
  - split.
    + intros i w. rewrite (walk_same st1 st2), Hfail by done. intros Hw.
      destruct (sl_failure st1 Hs _ _ Hw) as (w' & Hw' & Hsuf).
      exists w'. by rewrite (walk_same st1 st2).
    + intros i w. rewrite (walk_same st1 st2) by done. intros Hw.
      destruct (decide (i = temp)) as [->|Hne].
      * rewrite Hoeq.
        destruct (sl_failure st1 Hs _ _ Hw) as (w1 & Hw1 & Hsuf1).
        destruct (fail_chain_suffix st1 _ _ _ Hs Hch Hw1)
          as (w2 & Hw2 & Hsuf2).
        exists w2. rewrite (walk_same st1 st2) by done.
        split; [done | by etrans].
      * rewrite Hone by done.
        destruct (sl_output st1 Hs _ _ Hw) as (w' & Hw' & Hsuf).
        exists w'. by rewrite (walk_same st1 st2).
  - by eapply wf_keywords_same.
Qed.

(** ** The breadth-first loop *)

(** A loop invariant [J popped q st] over the nodes already processed, the
    queue and the state, that bounds the number of processed and queued
    nodes by [n], is carried to the end of the loop, which needs at most
    [n] iterations. *)
Lemma addFailureLinks_loop_inv (J : list nat → list nat → trie → Prop) n :
  (∀ popped q st, J popped q st → length popped + length q ≤ n) →
  (∀ popped temp rest st, J popped (temp :: rest) st →
     ∃ st', relink st temp = Some st' ∧
            J (popped ++ [temp]) (rest ++ Node.children (node st temp)) st') →
  ∀ fuel popped q st, J popped q st → n ≤ fuel + length popped →
  ∃ popped' st',
    addFailureLinks_loop fuel q st = (Returns tt, st') ∧ J popped' [] st'.
Proof.
  intros Hbound Hstep fuel.
  induction fuel as [|fuel IH]; intros popped q st HJ Hfuel.
  - destruct q as [|temp rest]; [by exists popped, st|].
    apply Hbound in HJ. simpl in *. lia.
  - destruct q as [|temp rest]; [by exists popped, st|].
    destruct (Hstep _ _ _ _ HJ) as (st' & Hr & HJ'). simpl. rewrite Hr.
    eapply IH; [done|]. rewrite length_app. simpl. lia.
Qed.

Lemma NoDup_bounded_length (l : list nat) n :
  NoDup l → (∀ x, x ∈ l → x < n) → length l ≤ n.
Proof.
  intros Hnd Hlt.
  assert (length l ≤ length (seq 0 n)) as H; [|by rewrite length_seq in H].
  apply submseteq_length, NoDup_submseteq; [done|].
  intros x Hx. apply elem_of_seq. specialize (Hlt x Hx). lia.
Qed.

Lemma bfs_inv_bound cs st0 popped q st :
  bfs_inv cs st0 popped q st → length popped + length q ≤ size st0.
Proof.
  intros [_ _ Hnd Hlt _]. rewrite <- length_app.
  by apply NoDup_bounded_length.
Qed.

Lemma bfs_inv_step cs st0 popped temp rest st :
  bfs_inv cs st0 popped (temp :: rest) st →
  ∃ st', relink st temp = Some st' ∧
         bfs_inv cs st0 (popped ++ [temp])
                 (rest ++ Node.children (node st temp)) st'.
Proof.
  intros [HI Hsame Hnd Hlt Hpar].
  assert (temp < size st0) as Htemp.
  { apply Hlt, elem_of_app. right. by left. }
  assert (wf_tree st0) as Hwf0.
  { eapply wf_tree_same; [by apply same_tree_sym | apply HI]. }
  destruct (relink_Inv cs st temp HI) as (st' & Hr & HI' & Hsame');
    [by rewrite (same_size st0 st Hsame)|].
  exists st'. split; [done|].
  rewrite (same_children st0 st Hsame).
  assert (∀ ch, ch ∈ Node.children (node st0 temp) →
            ch ∉ popped ++ temp :: rest) as Hfresh.
  { intros ch Hch Hin.
    destruct (wf_children st0 Hwf0 temp ch Htemp Hch) as [Hpos Hp].
    destruct (Hpar ch Hin) as [->|Hpp]; [unfold root in *; lia|].
    rewrite Hp in Hpp. apply NoDup_app in Hnd as (_ & Hdisj & _).
    apply (Hdisj temp Hpp). by left. }
  split.
  - done.
  - by eapply same_tree_trans.
  - rewrite <- app_assoc. simpl. rewrite app_comm_cons, app_assoc.
    apply NoDup_app. split_and!; [done | | by apply Hwf0].
    intros x Hx Hch. by apply (Hfresh x).
  - intros x Hx. rewrite <- app_assoc in Hx. simpl in Hx.
    rewrite app_comm_cons, app_assoc in Hx.
    apply elem_of_app in Hx as [Hx|Hx]; [by apply Hlt|].
    by apply (wf_children st0 Hwf0 temp).
  - intros x Hx. rewrite <- app_assoc in Hx. simpl in Hx.
    rewrite app_comm_cons, app_assoc in Hx.
    apply elem_of_app in Hx as [Hx|Hx].
    + destruct (Hpar x Hx) as [?|?]; [by left | right].
      apply elem_of_app. by left.
    + right. destruct (wf_children st0 Hwf0 temp x Htemp Hx) as [_ ->].
      apply elem_of_app. right. by left.
Qed.

Lemma bfs_inv_init cs st : Inv cs st → bfs_inv cs st [] [root] st.
Proof.
  intros HI. split; [done | apply same_tree_refl | ..]; simpl.
  - apply NoDup_singleton.
  - intros x ->%list_elem_of_singleton. apply HI.
  - intros x ->%list_elem_of_singleton. by left.
Qed.

(** [addFailureLinks] returns on every well-formed trie, changes only
    failure and output links, and keeps the trie well formed. *)
Lemma addFailureLinks_Inv cs st :
  Inv cs st →
  ∃ st', addFailureLinks st = (Returns tt, st') ∧ Inv cs st' ∧
         same_tree st st'.
Proof.
  intros HI. unfold addFailureLinks.
  destruct (addFailureLinks_loop_inv (bfs_inv cs st) (size st)
              (bfs_inv_bound cs st) (bfs_inv_step cs st)
              (length (trieNodes st)) [] [root] st)
    as (popped & st' & Hloop & HJ).
  - by apply bfs_inv_init.
  - unfold size. simpl. lia.
  - exists st'. split; [done|]. split; apply HJ.
Qed.

(** ** Adding a node *)

Lemma extends_refl st : extends st st.
Proof. by split. Qed.

Lemma extends_trans st1 st2 st3 :
  extends st1 st2 → extends st2 st3 → extends st1 st3.
Proof.
  intros [S1 K1 I1 W1 V1] [S2 K2 I2 W2 V2]. split.
  - lia.
  - congruence.
  - intros i. by rewrite I2, I1.
  - eauto.
  - intros w i Hw Hi. apply V1; [|done]. apply V2; [done | lia].
Qed.

Lemma node_default_ge st p : size st ≤ p → node st p = Node.default.
Proof.
  intros H. unfold node, size in *. rewrite list_lookup_total_alt.
  by rewrite lookup_ge_None_2.
Qed.

Lemma children_in_bounds st p x :
  x ∈ Node.children (node st p) → p < size st.
Proof.
  intros H. destruct (decide (p < size st)); [done|].
  rewrite node_default_ge in H by lia. by apply elem_of_nil in H.
Qed.

Lemma node_snoc st n i :
  node (mkTrie (trieNodes st ++ [n]) (keywords st)) i
  = if decide (i = size st) then n else node st i.
Proof.
  unfold node, size; simpl. case_decide as Hi.
  - subst. rewrite lookup_total_app_r by done. by rewrite Nat.sub_diag.
  - destruct (decide (i < length (trieNodes st))).
    + by rewrite lookup_total_app_l.
    + rewrite !list_lookup_total_alt.
      rewrite !lookup_ge_None_2; [done | lia |].
      rewrite length_app. simpl. lia.
Qed.

Section AddChild.
Variables (cs : bool) (st : trie) (current : nat) (character : ascii).
Hypothesis HI : Inv cs st.
Hypothesis Hcur : current < size st.
Hypothesis Hnone : child_with st current character = None.

Local Abbreviation fresh := (size st).
Local Abbreviation st' := (snd (addChild st current character)).

Lemma addChild_fresh_fst : fst (addChild st current character) = fresh.
Proof. unfold addChild. by rewrite Hnone. Qed.

Lemma addChild_fresh_size : size st' = S (size st).
Proof.
  unfold addChild. rewrite Hnone. simpl. rewrite size_store.
  unfold size; simpl. rewrite length_app. simpl. lia.
Qed.

Lemma addChild_fresh_keywords : keywords st' = keywords st.
Proof. unfold addChild. by rewrite Hnone. Qed.

Lemma addChild_fresh_node i :
  node st' i
  = if decide (i = current) then Node.push_child (node st current) fresh
    else if decide (i = fresh)
         then Node.mk (-1) (Node.depth (node st current) + 1) character
                      current root root []
         else node st i.
Proof.
  unfold addChild. rewrite Hnone. simpl.
  rewrite node_store_gen, !node_snoc.
  rewrite (decide_False (P := current = size st)) by lia.
  assert (size {| trieNodes := trieNodes st ++
                   [Node.mk (-1) (Node.depth (node st current) + 1)
                            character current root root []];
                  keywords := keywords st |} = S (size st)) as ->.
  { unfold size; simpl. rewrite length_app. simpl. lia. }
  destruct (decide (i = current)) as [->|Hne].
  - rewrite decide_True by (split; [done | lia]). done.
  - rewrite decide_False by (intros [? _]; done). done.
Qed.

Lemma addChild_fresh_id i : Node.id (node st' i) = Node.id (node st i).
Proof.
  rewrite addChild_fresh_node. repeat case_decide; subst; try done.
  by rewrite (node_default_ge st fresh) by lia.
Qed.

Lemma addChild_fresh_failure i :
  Node.failure (node st' i) = Node.failure (node st i).
Proof.
  rewrite addChild_fresh_node. repeat case_decide; subst; try done.
  by rewrite (node_default_ge st fresh) by lia.
Qed.

Lemma addChild_fresh_output i :
  Node.output (node st' i) = Node.output (node st i).
Proof.
  rewrite addChild_fresh_node. repeat case_decide; subst; try done.
  by rewrite (node_default_ge st fresh) by lia.
Qed.

Lemma addChild_fresh_old i :
  i ≠ fresh →
  Node.depth (node st' i) = Node.depth (node st i) ∧
  Node.c (node st' i) = Node.c (node st i) ∧
  Node.parent (node st' i) = Node.parent (node st i).
Proof.
  intros Hi. rewrite addChild_fresh_node. by repeat case_decide; subst.
Qed.

Lemma addChild_fresh_children i :
  Node.children (node st' i)
  = if decide (i = current) then Node.children (node st current) ++ [fresh]
    else Node.children (node st i).
Proof.
  rewrite addChild_fresh_node. repeat case_decide; subst; try done.
  by rewrite (node_default_ge st fresh) by lia.
Qed.

Lemma addChild_fresh_wf_tree : wf_tree st'.
Proof.
  pose proof (inv_tree cs st HI) as Hwf.
  assert (current ≠ fresh) as Hcf by lia.
  assert (0 < size st) as Hpos by apply Hwf.
  split.
  - rewrite addChild_fresh_size. lia.
  - destruct (addChild_fresh_old root) as (_ & _ & ->);
      [unfold root; lia | apply Hwf].
  - destruct (addChild_fresh_old root) as (-> & _ & _);
      [unfold root; lia | apply Hwf].
  - intros i. rewrite addChild_fresh_size. intros Hi.
    destruct (decide (i = fresh)) as [->|Hne].
    + rewrite addChild_fresh_node, decide_False, decide_True by done.
      done.
    + destruct (addChild_fresh_old i) as (_ & _ & ->); [done|].
      apply Hwf. lia.
  - intros i. rewrite addChild_fresh_size. intros Hi.
    destruct (decide (i = fresh)) as [->|Hne].
    + rewrite (addChild_fresh_node fresh).
      rewrite decide_False, decide_True by done. simpl.
      by destruct (addChild_fresh_old current) as (-> & _ & _).
    + destruct (addChild_fresh_old i) as (-> & _ & ->); [done|].
      assert (0 < i < size st) as Hi' by lia.
      pose proof (wf_parent st Hwf i Hi').
      destruct (addChild_fresh_old (Node.parent (node st i)))
        as (-> & _ & _); [lia|].
      by apply Hwf.
  - intros p ch. rewrite addChild_fresh_size, addChild_fresh_children.
    intros Hp Hch.
    assert (ch = fresh ∧ p = current ∨
            ch ∈ Node.children (node st p)) as [[-> ->]|Hold].
    { case_decide; [subst|by right].
      apply elem_of_app in Hch as [?| ->%list_elem_of_singleton]; eauto. }
    + rewrite addChild_fresh_node, decide_False, decide_True by done.
      simpl. split; [lia | done].
    + pose proof (children_in_bounds _ _ _ Hold) as Hp'.
      destruct (wf_children st Hwf p ch Hp' Hold) as [Hr Hpar].
      destruct (addChild_fresh_old ch) as (_ & _ & ->);
        [lia|]. split; [lia | done].
  - intros p. rewrite addChild_fresh_size, addChild_fresh_children.
    intros Hp. case_decide; subst.
    + apply NoDup_app. split_and!; [by apply Hwf | | apply NoDup_singleton].
      intros x Hx ->%list_elem_of_singleton.
      destruct (wf_children st Hwf current fresh Hcur Hx) as [? _].
      lia.
    + destruct (decide (p < size st)); [by apply Hwf|].
      rewrite node_default_ge by lia. constructor.
  - intros p a b. rewrite addChild_fresh_size, addChild_fresh_children.
    intros Hp Ha Hb.
    assert (∀ x, x ∈ (if decide (p = current)
                      then Node.children (node st current) ++ [fresh]
                      else Node.children (node st p)) →
              x = fresh ∧ p = current ∧
                Node.c (node st' x) = character ∨
              x ∈ Node.children (node st p) ∧
                Node.c (node st' x) = Node.c (node st x)) as Hcase.
    { intros x Hx.
      assert (x = fresh ∧ p = current ∨ x ∈ Node.children (node st p))
        as [[-> ->]|Hold].
      { case_decide; [subst|by right].
        apply elem_of_app in Hx as [?| ->%list_elem_of_singleton]; eauto. }
      - left. split_and!; [done..|].
        by rewrite addChild_fresh_node, decide_False, decide_True.
      - right. split; [done|].
        pose proof (children_in_bounds _ _ _ Hold) as Hp'.
        destruct (wf_children st Hwf p x Hp' Hold) as [Hr _].
        destruct (addChild_fresh_old x) as (_ & -> & _);
          [lia | done]. }
    destruct (Hcase a Ha) as [(-> & -> & Hca)|[Ha' Hca]],
             (Hcase b Hb) as [(-> & Hpb & Hcb)|[Hb' Hcb]];
      intros Hc; rewrite ?Hca, ?Hcb in Hc; try done.
    + exfalso. by eapply (child_with_None st current character b).
    + subst p. exfalso.
      by eapply (child_with_None st current character a).
    + eapply (wf_children_chars st Hwf p); eauto using children_in_bounds.
Qed.

Lemma addChild_fresh_child_old p ch x :
  child_with st p ch = Some x → child_with st' p ch = Some x.
Proof.
  intros H. apply child_with_Some in H as [Hin <-].
  pose proof (children_in_bounds _ _ _ Hin) as Hp.
  destruct (wf_children st (inv_tree cs st HI) p x Hp Hin) as [Hx _].
  destruct (addChild_fresh_old x) as (_ & <- & _); [lia|].
  apply child_with_unique; [apply addChild_fresh_wf_tree | |].
  - rewrite addChild_fresh_size. lia.
  - rewrite addChild_fresh_children. case_decide; subst; [|done].
    apply elem_of_app. by left.
Qed.

Lemma addChild_fresh_child_new :
  child_with st' current character = Some fresh.
Proof.
  assert (Node.c (node st' fresh) = character) as Hc.
  { rewrite addChild_fresh_node, decide_False, decide_True; [done.. | lia]. }
  pose proof (child_with_unique st' current fresh addChild_fresh_wf_tree)
    as H.
  rewrite Hc in H. apply H.
  - rewrite addChild_fresh_size. lia.
  - rewrite addChild_fresh_children, decide_True by done.
    apply elem_of_app. right. by left.
Qed.

Lemma addChild_fresh_walk_from p w i :
  walk_from st p w = Some i → walk_from st' p w = Some i.
Proof.
  revert p. induction w as [|ch w IH]; intros p; simpl; [done|].
  destruct (child_with st p ch) as [q|] eqn:E; [|done].
  rewrite (addChild_fresh_child_old _ _ _ E). apply IH.
Qed.

Lemma addChild_fresh_walk_inv w i :
  walk st' w = Some i → i < size st → walk st w = Some i.
Proof.
  pose proof (inv_tree cs st HI) as Hwf.
  revert i. induction w as [|ch w IH] using rev_ind; intros i Hw Hi.
  { done. }
  pose proof Hw as (p & Hp & Hc)%walk_snoc_inv.
  apply walk_snoc_parent in Hw as (Hi' & Hci & Hw);
    [|apply addChild_fresh_wf_tree].
  destruct (addChild_fresh_old i) as (_ & Hceq & Hpeq);
    [lia|].
  rewrite Hpeq in Hw. rewrite Hceq in Hci.
  rewrite Hw in Hp. injection Hp as <-.
  pose proof (wf_parent st Hwf i ltac:(lia)) as Hpar.
  rewrite walk_snoc, (IH _ Hw) by lia. simpl. subst ch.
  apply child_with_unique; [done | lia |].
  apply child_with_Some in Hc as [Hin _].
  rewrite addChild_fresh_children in Hin. case_decide as Hd; [|done].
  rewrite Hd.
  apply elem_of_app in Hin as [?| ->%list_elem_of_singleton]; [done|].
  lia.
Qed.

Lemma addChild_fresh_extends : extends st st'.
Proof.
  split.
  - rewrite addChild_fresh_size. lia.
  - apply addChild_fresh_keywords.
  - apply addChild_fresh_id.
  - intros w i. apply addChild_fresh_walk_from.
  - apply addChild_fresh_walk_inv.
Qed.

Lemma addChild_fresh_Inv : Inv cs st'.
Proof.
  pose proof HI as [Hwf Hl Hs Hk].
  pose proof addChild_fresh_wf_tree as Hwf'.
  pose proof addChild_fresh_extends as Hext.
  assert (∀ i, i < size st →
            Node.depth (node st' i) = Node.depth (node st i)) as Hd.
  { intros i Hi. apply addChild_fresh_old. lia. }
  assert (0 < Node.depth (node st' fresh))%Z as Hfd.
  { apply depth_pos; [done|]. rewrite addChild_fresh_size.
    pose proof (wf_nonempty st Hwf). lia. }
  assert (Node.depth (node st' root) = 0%Z) as Hrd by apply Hwf'.
  split; [done | | |].
  - split.
    + rewrite addChild_fresh_failure. apply Hl.
    + rewrite addChild_fresh_output. apply Hl.
    + intros i. rewrite addChild_fresh_size, addChild_fresh_failure.
      intros Hi. destruct (decide (i = fresh)) as [->|Hne].
      * rewrite node_default_ge by done. simpl.
        change 0 with root. rewrite Hrd.
        pose proof (wf_nonempty st Hwf). split; [unfold root; lia | done].
      * destruct (wfl_failure st Hl i) as [? ?]; [lia|].
        rewrite !Hd by lia. split; [lia | done].
    + intros i. rewrite addChild_fresh_size, addChild_fresh_output.
      intros Hi. destruct (decide (i = fresh)) as [->|Hne].
      * rewrite node_default_ge by done. simpl.
        change 0 with root. rewrite Hrd.
        pose proof (wf_nonempty st Hwf). split; [unfold root; lia | done].
      * destruct (wfl_output st Hl i) as [? ?]; [lia|].
        rewrite !Hd by lia. split; [lia | done].
    + intros i. rewrite addChild_fresh_size, addChild_fresh_output,
        addChild_fresh_id. intros Hi.
      destruct (decide (i = fresh)) as [->|Hne].
      * rewrite node_default_ge by done. by left.
      * apply Hl. lia.
  - split.
    + intros i w Hw. rewrite addChild_fresh_failure.
      destruct (decide (i < size st)) as [Hi|Hi].
      * apply (ext_walk_inv _ _ Hext) in Hw; [|done].
        destruct (sl_failure st Hs _ _ Hw) as (w' & Hw' & Hsuf).
        exists w'. split; [by apply (ext_walk _ _ Hext) | done].
      * rewrite node_default_ge by lia. exists []. split; [done|].
        apply suffix_nil.
    + intros i w Hw. rewrite addChild_fresh_output.
      destruct (decide (i < size st)) as [Hi|Hi].
      * apply (ext_walk_inv _ _ Hext) in Hw; [|done].
        destruct (sl_output st Hs _ _ Hw) as (w' & Hw' & Hsuf).
        exists w'. split; [by apply (ext_walk _ _ Hext) | done].
      * rewrite node_default_ge by lia. exists []. split; [done|].
        apply suffix_nil.
  - split.
    + rewrite addChild_fresh_id. apply Hk.
    + intros i _. rewrite addChild_fresh_id, addChild_fresh_keywords.
      intros Hid.
      assert (i < size st) as Hi.
      { destruct (decide (i < size st)); [done|].
        rewrite node_default_ge in Hid by lia. done. }
      destruct (wfk_node cs st Hk i Hi Hid) as (k & r & ? & ? & ?).
      exists k, r. split_and!; [done..|]. by apply (ext_walk _ _ Hext).
    + intros k r. rewrite addChild_fresh_keywords. intros Hr.
      destruct (wfk_keyword cs st Hk k r Hr) as (? & ? & i & ? & ?).
      split_and!; [done..|]. exists i. rewrite addChild_fresh_id.
      split; [by apply (ext_walk _ _ Hext) | done].
Qed.

End AddChild.

(** [addChild] on a well-formed trie. *)
Lemma addChild_Inv cs st current character :
  Inv cs st → current < size st →
  Inv cs (snd (addChild st current character)) ∧
  extends st (snd (addChild st current character)) ∧
  child_with (snd (addChild st current character)) current character
  = Some (fst (addChild st current character)).
Proof.
  intros HI Hcur.
  destruct (child_with st current character) as [x|] eqn:E.
  - unfold addChild. rewrite E. simpl. split_and!; [done | | done].
    apply extends_refl.
  - split_and!.
    + by eapply addChild_fresh_Inv.
    + by eapply addChild_fresh_extends.
    + rewrite addChild_fresh_fst by done. by eapply addChild_fresh_child_new.
Qed.

(** ** Inserting a keyword *)

Lemma addPath_from_Inv cs key : ∀ st cur w0,
  Inv cs st → walk st w0 = Some cur →
  let r := fold_left (λ '(current, s) character,
                        addChild s current (fold_case cs character))
                     key (cur, st) in
  Inv cs (snd r) ∧ extends st (snd r) ∧
  walk (snd r) (w0 ++ map (fold_case cs) key) = Some (fst r).
Proof.
  induction key as [|ch key IH]; intros st cur w0 HI Hw; simpl.
  { rewrite app_nil_r. split_and!; [done | apply extends_refl | done]. }
  pose proof (walk_lt st w0 cur (inv_tree cs st HI) Hw) as Hcur.
  destruct (addChild_Inv cs st cur (fold_case cs ch) HI Hcur)
    as (HI1 & Hext1 & Hchild).
  destruct (addChild st cur (fold_case cs ch)) as [x st1] eqn:E.
  simpl in *.
  destruct (IH st1 x (w0 ++ [fold_case cs ch]) HI1) as (HI2 & Hext2 & Hw2).
  { rewrite walk_snoc, (ext_walk _ _ Hext1 _ _ Hw). done. }
  split_and!; [done | by eapply extends_trans |].
  by rewrite <- app_assoc in Hw2.
Qed.

Lemma addPath_Inv cs st key :
  Inv cs st →
  Inv cs (snd (addPath cs st key)) ∧ extends st (snd (addPath cs st key)) ∧
  walk (snd (addPath cs st key)) (map (fold_case cs) key)
  = Some (fst (addPath cs st key)).
Proof. intros HI. by apply (addPath_from_Inv cs key st root []). Qed.

(** Along a path that exists already, no node is created. *)
Lemma addPath_from_existing cs key : ∀ st cur x,
  walk_from st cur (map (fold_case cs) key) = Some x →
  fold_left (λ '(current, s) character,
               addChild s current (fold_case cs character))
            key (cur, st) = (x, st).
Proof.
  induction key as [|ch key IH]; intros st cur x; simpl.
  { by intros [= ->]. }
  destruct (child_with st cur (fold_case cs ch)) as [q|] eqn:E; [|done].
  intros Hw. unfold addChild. rewrite E. by apply IH.
Qed.

Lemma addPath_existing cs st key x :
  walk st (map (fold_case cs) key) = Some x → addPath cs st key = (x, st).
Proof. apply addPath_from_existing. Qed.

Lemma normalize_nil cs key : normalize cs key = [] → key = EmptyString.
Proof. by destruct key. Qed.

Section RecordKeyword.
Variables (cs : bool) (st1 : trie) (current : nat) (key : string).
Hypothesis HI : Inv cs st1.
Hypothesis Hwalk : walk st1 (normalize cs key) = Some current.
Hypothesis Hkey : key ≠ EmptyString.
Hypothesis Hid : Node.id (node st1 current) = (-1)%Z.

Local Abbreviation st3 := (record_keyword st1 current key).
Local Abbreviation len := (length (keywords st1)).

Lemma record_keyword_node i :
  node st3 i
  = if decide (i = current)
    then Node.with_id (node st1 current) (to_int (Z.of_nat len))
    else node st1 i.
Proof.
  pose proof (walk_lt _ _ _ (inv_tree cs st1 HI) Hwalk) as Hcur.
  change (node st3 i) with
    (node (store st1 current
             (Node.with_id (node st1 current) (to_int (Z.of_nat len)))) i).
  rewrite node_store_gen.
  destruct (decide (i = current)) as [->|Hne].
  - by rewrite decide_True.
  - rewrite decide_False; [done|]. by intros [-> _].
Qed.

Lemma record_keyword_shape : same_shape st1 st3.
Proof.
  split; [apply size_store|..]; intros i; rewrite record_keyword_node;
    by case_decide; subst.
Qed.

Lemma record_keyword_failure i :
  Node.failure (node st3 i) = Node.failure (node st1 i).
Proof. rewrite record_keyword_node. by case_decide; subst. Qed.

Lemma record_keyword_output i :
  Node.output (node st3 i) = Node.output (node st1 i).
Proof. rewrite record_keyword_node. by case_decide; subst. Qed.

Lemma record_keyword_id i :
  Node.id (node st3 i)
  = if decide (i = current) then to_int (Z.of_nat len)
    else Node.id (node st1 i).
Proof. rewrite record_keyword_node. by case_decide. Qed.

Lemma record_keyword_keywords :
  keywords st3 = keywords st1 ++ [Result.stub key (Z.of_nat len)].
Proof. done. Qed.

Lemma record_keyword_current_not_root : current ≠ root.
Proof.
  intros ->. apply walk_root_nil in Hwalk; [|apply HI].
  by apply normalize_nil in Hwalk.
Qed.

Lemma record_keyword_Inv : Inv cs st3.
Proof.
  pose proof HI as [Hwf Hl Hs Hk].
  pose proof record_keyword_shape as Hsh.
  pose proof Hsh as [Hsz Hd _ _ _].
  pose proof record_keyword_current_not_root as Hnr.
  split.
  - by eapply wf_tree_shape.
  - split.
    + rewrite record_keyword_failure. apply Hl.
    + rewrite record_keyword_output. apply Hl.
    + intros i. rewrite Hsz, !Hd, record_keyword_failure. apply Hl.
    + intros i. rewrite Hsz, !Hd, record_keyword_output. apply Hl.
    + intros i. rewrite Hsz, record_keyword_output, record_keyword_id.
      intros Hi. destruct (wfl_output_id st1 Hl i Hi) as [?|Hne];
        [by left | right].
      case_decide as E; [|done]. by rewrite E, Hid in Hne.
  - split.
    + intros i w. rewrite (walk_shape st1 st3), record_keyword_failure
        by done. intros Hw.
      destruct (sl_failure st1 Hs _ _ Hw) as (w' & Hw' & Hsuf).
      exists w'. by rewrite (walk_shape st1 st3).
    + intros i w. rewrite (walk_shape st1 st3), record_keyword_output
        by done. intros Hw.
      destruct (sl_output st1 Hs _ _ Hw) as (w' & Hw' & Hsuf).
      exists w'. by rewrite (walk_shape st1 st3).
  - split.
    + rewrite record_keyword_id, decide_False by done. apply Hk.
    + intros i. rewrite Hsz, record_keyword_id, record_keyword_keywords.
      intros Hi Hne. case_decide as E.
      * subst i. exists len, (Result.stub key (Z.of_nat len)).
        split_and!; [done | |].
        -- rewrite lookup_app_r by done. by rewrite Nat.sub_diag.
        -- by rewrite (walk_shape st1 st3).
      * destruct (wfk_node cs st1 Hk i Hi Hne) as (k & r & ? & Hr & ?).
        exists k, r. split_and!; [done | |].
        -- by apply lookup_app_l_Some.
        -- by rewrite (walk_shape st1 st3).
    + intros k r. rewrite record_keyword_keywords.
      intros [Hr|[Hk' Hr]]%lookup_app_Some.
      * destruct (wfk_keyword cs st1 Hk k r Hr) as (? & ? & i & ? & Hi).
        split_and!; [done..|]. exists i.
        rewrite (walk_shape st1 st3) by done. split; [done|].
        intros Hne. rewrite record_keyword_id. case_decide as E; [|auto].
        subst i. rewrite Hi in Hid by done. done.
      * apply list_lookup_singleton_Some in Hr as [Hk'' <-].
        assert (k = len) as -> by lia.
        split_and!; [done..|]. exists current.
        rewrite (walk_shape st1 st3) by done. split; [done|].
        intros _. by rewrite record_keyword_id, decide_True.
Qed.

End RecordKeyword.

Lemma grows_refl st : grows st st.
Proof. by split. Qed.

Lemma grows_trans st1 st2 st3 : grows st1 st2 → grows st2 st3 → grows st1 st3.
Proof.
  intros [S1 W1 I1 K1] [S2 W2 I2 K2]. split.
  - lia.
  - eauto.
  - intros i Hi. rewrite I2; rewrite I1; done.
  - by etrans.
Qed.

Lemma extends_grows st st' : extends st st' → grows st st'.
Proof.
  intros [S K I W _]. split; [done..| | by rewrite K]. intros i _. apply I.
Qed.

Lemma same_tree_grows st st' : same_tree st st' → grows st st'.
Proof.
  intros Hs. split.
  - by rewrite (same_size st st' Hs).
  - intros w i. by rewrite (walk_same st st').
  - intros i _. apply Hs.
  - by rewrite (same_keywords st st' Hs).
Qed.

Lemma record_keyword_grows cs st1 current key :
  Inv cs st1 → walk st1 (normalize cs key) = Some current →
  Node.id (node st1 current) = (-1)%Z →
  grows st1 (record_keyword st1 current key).
Proof.
  intros HI Hw Hid.
  assert (same_shape st1 (record_keyword st1 current key)) as Hsh
      by by eapply record_keyword_shape.
  split.
  - by rewrite (same_size _ _ Hsh).
  - intros w i. by rewrite (walk_shape _ _ _ Hsh).
  - intros i Hi. erewrite record_keyword_id by done.
    case_decide; [|done]. by subst.
  - rewrite record_keyword_keywords. by apply prefix_app_r.
Qed.

Lemma addString_empty cs flag st :
  addString cs EmptyString flag st = (Returns tt, st).
Proof. done. Qed.

Lemma addString_nonempty cs key flag st :
  key ≠ EmptyString →
  addString cs key flag st
  = let '(current, st1) := addPath cs st (list_ascii_of_string key) in
    if negb (Node.id (node st1 current) =? -1)%Z
    then (Throws duplicate_keyword, st1)
    else if flag then addFailureLinks (record_keyword st1 current key)
         else (Returns tt, record_keyword st1 current key).
Proof. by destruct key. Qed.

(** A keyword whose word ends in a node that carries an identifier is
    rejected, and the call changes nothing. *)
Lemma addString_duplicate cs key flag st i :
  key ≠ EmptyString →
  walk st (normalize cs key) = Some i → Node.id (node st i) ≠ (-1)%Z →
  addString cs key flag st = (Throws duplicate_keyword, st).
Proof.
  intros Hkey Hw Hid. rewrite addString_nonempty by done.
  rewrite (addPath_existing cs st _ i) by done.
  by destruct (Z.eqb_spec (Node.id (node st i)) (-1)).
Qed.

Lemma addString_spec cs key flag st :
  Inv cs st →
  ∃ o st', addString cs key flag st = (o, st') ∧
           Inv cs st' ∧ grows st st' ∧ addString_result cs key st o st'.
Proof.
  intros HI. destruct (decide (key = EmptyString)) as [->|Hkey].
  { exists (Returns tt), st. split_and!; [done.. | apply grows_refl |].
    by constructor. }
  rewrite addString_nonempty by done.
  destruct (addPath_Inv cs st (list_ascii_of_string key) HI)
    as (HI1 & Hext & Hw).
  destruct (addPath cs st (list_ascii_of_string key)) as [current st1] eqn:E.
  simpl in *. fold (normalize cs key) in Hw.
  destruct (Z.eqb_spec (Node.id (node st1 current)) (-1)) as [Hid|Hid]; simpl.
  - assert (Inv cs (record_keyword st1 current key)) as HI3
        by by apply record_keyword_Inv.
    assert (grows st (record_keyword st1 current key)) as Hg3.
    { eapply grows_trans; [by apply extends_grows|].
      by eapply record_keyword_grows. }
    assert (∀ j, walk st (normalize cs key) = Some j →
                 Node.id (node st j) = (-1)%Z) as Hnew.
    { intros j Hj. apply (ext_walk _ _ Hext) in Hj.
      rewrite Hw in Hj. injection Hj as <-.
      by rewrite <- (ext_id _ _ Hext). }
    assert (keywords (record_keyword st1 current key)
            = keywords st
              ++ [Result.stub key (Z.of_nat (length (keywords st)))]) as Hkw.
    { rewrite record_keyword_keywords. by rewrite (ext_keywords _ _ Hext). }
    assert (Node.id (node (record_keyword st1 current key) current)
            = to_int (Z.of_nat (length (keywords st)))) as Hidc.
    { erewrite record_keyword_id by done. rewrite decide_True by done.
      by rewrite (ext_keywords _ _ Hext). }
    assert (walk (record_keyword st1 current key) (normalize cs key)
            = Some current) as Hw3.
    { erewrite walk_shape; [done|]. by eapply record_keyword_shape. }
    destruct flag.
    + destruct (addFailureLinks_Inv cs _ HI3) as (st4 & Hr & HI4 & Hsame).
      exists (Returns tt), st4. split_and!; [done | done | |].
      * eapply grows_trans; [done | by apply same_tree_grows].
      * eapply (addString_added _ _ _ _ current); [done | done | | |].
        -- by rewrite (same_keywords _ _ Hsame).
        -- by rewrite (walk_same _ _ _ Hsame).
        -- by rewrite (same_id _ _ Hsame).
    + exists (Returns tt), (record_keyword st1 current key).
      split_and!; [done..|]. by eapply (addString_added _ _ _ _ current).
  - assert (current < size st) as Hcur.
    { destruct (decide (current < size st)); [done|].
      rewrite (ext_id _ _ Hext), node_default_ge in Hid by lia. done. }
    pose proof (ext_walk_inv _ _ Hext _ _ Hw Hcur) as Hw0.
    rewrite (addPath_existing cs st _ current) in E by done.
    injection E as <-.
    exists (Throws duplicate_keyword), st.
    split_and!; [done | done | apply grows_refl |].
    by eapply (addString_throws _ _ _ current).
Qed.

(** ** Batch insertion, and the states a client can reach *)

Lemma addStrings_loop_spec cs keyList : ∀ st,
  Inv cs st →
  ∃ o st', addStrings_loop cs keyList st = (o, st') ∧
           Inv cs st' ∧ grows st st' ∧ o ≠ LoopBound.
Proof.
  induction keyList as [|key rest IH]; intros st HI; simpl.
  { exists (Returns tt), st. split_and!; [done.. | apply grows_refl | done]. }
  destruct (addString_spec cs key false st HI)
    as (o & st1 & -> & HI1 & Hg1 & Hres).
  destruct Hres.
  - destruct (IH st HI) as (o' & st2 & ? & ? & ? & ?). by exists o', st2.
  - exists (Throws duplicate_keyword), st.
    split_and!; [done.. | apply grows_refl | done].
  - destruct (IH st' HI1) as (o' & st2 & ? & ? & ? & ?). exists o', st2.
    split_and!; [done.. | by eapply grows_trans | done].
Qed.

Lemma addStrings_then_links_spec cs keyList st :
  Inv cs st →
  ∃ o st',
    match addStrings_loop cs keyList st with
    | (Returns _, st') => addFailureLinks st'
    | r => r
    end = (o, st') ∧ Inv cs st' ∧ grows st st' ∧ o ≠ LoopBound.
Proof.
  intros HI.
  destruct (addStrings_loop_spec cs keyList st HI)
    as (o & st1 & -> & HI1 & Hg1 & Ho).
  destruct o as [[]|e|]; [| by exists (Throws e), st1 | done].
  destruct (addFailureLinks_Inv cs st1 HI1) as (st2 & -> & HI2 & Hsame).
  exists (Returns tt), st2. split_and!; [done..| |done].
  eapply grows_trans; [done | by apply same_tree_grows].
Qed.

Lemma walk_empty_trie w i : walk empty_trie w = Some i → w = [] ∧ i = root.
Proof. destruct w; [by intros [= <-] | done]. Qed.

Lemma node_empty_trie i : node empty_trie i = Node.default.
Proof. by destruct i as [|[|i]]. Qed.

Lemma Inv_empty_trie cs : Inv cs empty_trie.
Proof.
  split.
  - split; try done; unfold size; simpl.
    + lia.
    + intros i Hi. lia.
    + intros i Hi. lia.
    + intros p ch _. rewrite node_empty_trie. by intros ?%elem_of_nil.
    + intros p _. rewrite node_empty_trie. constructor.
    + intros p a b _. rewrite node_empty_trie. by intros ?%elem_of_nil.
  - split; try done; unfold size; simpl.
    + intros i Hi. lia.
    + intros i Hi. lia.
    + intros i Hi. left. by rewrite node_empty_trie.
  - split; intros i w [-> ->]%walk_empty_trie; by exists [].
  - split; [done | |].
    + intros i _. by rewrite node_empty_trie.
    + intros k r. simpl. by rewrite lookup_nil.
Qed.

Lemma step_Inv cs st st' :
  Inv cs st → step cs st st' → Inv cs st' ∧ grows st st'.
Proof.
  intros HI [key flag o st'' Hcall|keyList o st'' Hcall|keyList o st'' Hcall].
  - destruct (addString_spec cs key flag st HI) as (o' & st1 & E & ? & ? & _).
    rewrite E in Hcall. by injection Hcall as <- <-.
  - destruct (addStrings_then_links_spec cs keyList st HI)
      as (o' & st1 & E & ? & ? & _).
    unfold addString_vector in Hcall.
    rewrite E in Hcall. by injection Hcall as <- <-.
  - destruct (addStrings_then_links_spec cs (StringSet.elements keyList)
                st HI) as (o' & st1 & E & ? & ? & _).
    unfold addString_set in Hcall.
    rewrite E in Hcall. by injection Hcall as <- <-.
Qed.

Lemma steps_Inv cs st st' :
  Inv cs st → rtc (step cs) st st' → Inv cs st' ∧ grows st st'.
Proof.
  intros HI Hsteps. induction Hsteps as [st|st st1 st2 Hstep _ IH].
  - split; [done | apply grows_refl].
  - destruct (step_Inv cs st st1 HI Hstep) as [HI1 Hg1].
    destruct (IH HI1) as [HI2 Hg2]. split; [done | by eapply grows_trans].
Qed.

(** Every reachable state is well formed. *)
Lemma reachable_Inv cs st : reachable cs st → Inv cs st.
Proof.
  intros H. by destruct (steps_Inv cs empty_trie st (Inv_empty_trie cs) H).
Qed.

(** ** The link structure (claim C8) *)

Lemma failure_iter_root st :
  wf_tree st → wf_links st → ∀ d n,
  n < size st → (Node.depth (node st n) ≤ Z.of_nat d)%Z →
  ∃ k, (Z.of_nat k ≤ Node.depth (node st n))%Z ∧ failure_iter st k n = root.
Proof.
  intros Hwf Hl. induction d as [|d IH]; intros n Hn Hd.
  - exists 0. split; [pose proof (depth_nonneg st n Hwf Hn); lia|].
    destruct (decide (n = 0)) as [->|Hne]; [done|].
    pose proof (depth_pos st n Hwf ltac:(lia)). lia.
  - destruct (decide (n = 0)) as [->|Hne].
    { exists 0. split; [|done].
      pose proof (wf_root_depth st Hwf) as Hrd. unfold root in Hrd.
      rewrite Hrd. done. }
    destruct (wfl_failure st Hl n ltac:(lia)) as [Hf Hfd].
    destruct (IH (Node.failure (node st n)) Hf ltac:(lia)) as (k & Hk & Hit).
    exists (S k). split; [lia|].
    unfold failure_iter in *. by rewrite Nat.iter_succ_r.
Qed.

Lemma Inv_link_structure cs st : Inv cs st → link_structure st.
Proof.
  intros [Hwf Hl _ _]. split_and!.
  - apply Hl.
  - apply Hl.
  - intros n Hn.
    apply (failure_iter_root st Hwf Hl
             (Z.to_nat (Node.depth (node st n)))); [done|].
    pose proof (depth_nonneg st n Hwf Hn). lia.
Qed.

(** C8: in every state reached from the constructor by construction
    operations, the failure link of the root is the root, the failure link
    of every other node points to a strictly shallower node of the trie,
    and from every node finitely many (at most its depth) failure links
    lead to the root; every further construction operation gives a state
    with the same property. *)
Theorem C8_link_structure_invariant cs st :
  reachable cs st →
  link_structure st ∧ ∀ st', step cs st st' → link_structure st'.
Proof.
  intros Hr. pose proof (reachable_Inv cs st Hr) as HI. split.
  - by eapply Inv_link_structure.
  - intros st' Hstep. destruct (step_Inv cs st st' HI Hstep) as [HI' _].
    by eapply Inv_link_structure.
Qed.

(** ** The example automata are reachable *)

Lemma reachable_snd_addString cs st key addFailure :
  reachable cs st → reachable cs (snd (addString cs key addFailure st)).
Proof.
  intros H. eapply rtc_r; [done|].
  eapply (step_addString _ _ key addFailure). apply surjective_pairing.
Qed.

Lemma reachable_snd_addString_vector cs st keyList :
  reachable cs st → reachable cs (snd (addString_vector cs keyList st)).
Proof.
  intros H. eapply rtc_r; [done|].
  eapply (step_addString_vector _ _ keyList). apply surjective_pairing.
Qed.

Lemma reachable_snd_addString_set cs st keyList :
  reachable cs st → reachable cs (snd (addString_set cs keyList st)).
Proof.
  intros H. eapply rtc_r; [done|].
  eapply (step_addString_set _ _ keyList). apply surjective_pairing.
Qed.

Lemma reachable_snd_addString_each cs keys : ∀ st,
  reachable cs st → reachable cs (snd (addString_each cs keys st)).
Proof.
  induction keys as [|key rest IH]; intros st Hr; simpl; [done|].
  pose proof (reachable_snd_addString cs st key true Hr) as Hr'.
  destruct (addString cs key true st) as [[[]|e|] st']; simpl in *; auto.
Qed.

Lemma reachable_ushers_trie : reachable true ushers_trie.
Proof. apply reachable_snd_addString_each, rtc_refl. Qed.

Lemma C8_witness :
  reachable true ushers_trie ∧
  (link_structure ushers_trie ∧
   ∀ st', step true ushers_trie st' → link_structure st').
Proof.
  split; [apply reachable_ushers_trie|].
  apply (C8_link_structure_invariant true ushers_trie).
  apply reachable_ushers_trie.
Defined.

(** ** The README scenario (claim C3) *)

(** C3: after inserting "hers", "his", "she", "he", "her" (one call each,
    as one vector, or as one set), scanning "ushers" returns exactly the
    matches "she" [1,3], "he" [2,3], "her" [2,4] and "hers" [2,5], in this
    order; the identifiers are those of the insertion order. *)
Theorem C3_ushers_scenario :
  addString_each true ushers_keys empty_trie = (Returns tt, ushers_trie) ∧
  parseText true ushers_trie "ushers"
  = Returns [Result.mk "she" 2 1 3; Result.mk "he" 3 2 3;
             Result.mk "her" 4 2 4; Result.mk "hers" 0 2 5] ∧
  addString_vector true ushers_keys empty_trie = (Returns tt, ushers_trie) ∧
  fst (addString_set true (std_set ushers_keys) empty_trie) = Returns tt ∧
  parseText true (snd (addString_set true (std_set ushers_keys) empty_trie))
            "ushers"
  = Returns [Result.mk "she" 4 1 3; Result.mk "he" 0 2 3;
             Result.mk "her" 1 2 4; Result.mk "hers" 2 2 5].
Proof. split_and!; by vm_compute. Qed.

(** ** Missed matches (claims C1 and C2) *)

(** C1 fails on the code: with the keywords "aab" and "b" and finalized
    links, the scan of "aab" returns the match of "aab" only, although "b"
    ends at position 2 as well. *)
Theorem C1_scan_misses_keyword :
  addString_vector true ["aab"; "b"]%string empty_trie
  = (Returns tt, aab_b_trie) ∧
  parseText true aab_b_trie "aab" = Returns [Result.mk "aab" 0 0 2] ∧
  ends_at true "b" "aab" 2 ∧
  ¬ scan_complete true aab_b_trie "aab".
Proof.
  split_and!; [by vm_compute | by vm_compute | |].
  - split; [simpl; lia|]. by exists ["a"; "a"]%char.
  - intros (Results & Hparse & Hall).
    assert (parseText true aab_b_trie "aab" = Returns [Result.mk "aab" 0 0 2])
      as E by by vm_compute.
    rewrite E in Hparse. injection Hparse as <-.
    destruct (Hall 1 (Result.stub "b" 1) 2) as (m & Hm & Hkw & _).
    + by vm_compute.
    + split; [simpl; lia|]. by exists ["a"; "a"]%char.
    + apply list_elem_of_singleton in Hm. by subst m.
Qed.

(** C2 fails on the code: with the keywords "aab" and "b", link
    construction leaves the failure link of the node of "aab" (node 3) at
    the root, although "b" (node 4) is a word of the trie; the walk of the
    specification from the parent's failure node finds node 4. *)
Theorem C2_failure_link_not_longest_suffix :
  walk aab_b_trie ["a"; "a"; "b"]%char = Some 3 ∧
  walk aab_b_trie ["b"]%char = Some 4 ∧
  Node.failure (node aab_b_trie 3) = root ∧
  spec_failure aab_b_trie 3 = Some 4 ∧
  ¬ longest_proper_suffix_node aab_b_trie 3
      (Node.failure (node aab_b_trie 3)).
Proof.
  split_and!; try by vm_compute.
  intros (w & w' & Hw & Hw' & _ & _ & Hmax).
  assert (Inv true aab_b_trie) as HI.
  { apply reachable_Inv, reachable_snd_addString_vector, rtc_refl. }
  assert (w = ["a"; "a"; "b"]%char) as ->.
  { eapply walk_inj; [apply HI | done | by vm_compute]. }
  assert (w' = []) as ->.
  { eapply walk_inj; [apply HI | done | by vm_compute]. }
  specialize (Hmax ["b"]%char 4). simpl in Hmax.
  assert (1 ≤ 0); [|lia].
  apply Hmax; [by vm_compute | by exists ["a"; "a"]%char | lia].
Qed.

(** ** Duplicate keywords (claim C4) *)

Lemma to_int_small z : (0 ≤ z < int_max)%Z → to_int z = z.
Proof.
  unfold to_int, int_max. intros H.
  rewrite Z.mod_small; lia.
Qed.

Lemma normalize_nonempty cs key key' :
  key ≠ EmptyString → normalize cs key' = normalize cs key →
  key' ≠ EmptyString.
Proof. intros Hk E ->. by destruct key. Qed.

(** C4: let [key] be inserted successfully, as keyword number [k], into
    an automaton that holds fewer than 2^31 keywords.  After any further
    construction operations, the insertion of a keyword [key'] with the
    same case-normalized form throws the duplicate-keyword error and
    returns the automaton as it found it (so no node is added or changed,
    the keyword vector is not extended and no identifier is consumed);
    the first insertion still owns index [k] of the keyword vector and
    the identifier [k] at the node of its word. *)
Theorem C4_duplicate_keyword_rejected
    cs st key addFailure st1 st2 key' addFailure' :
  reachable cs st →
  (Z.of_nat (length (keywords st)) < int_max)%Z →
  key ≠ EmptyString →
  addString cs key addFailure st = (Returns tt, st1) →
  rtc (step cs) st1 st2 →
  normalize cs key' = normalize cs key →
  addString cs key' addFailure' st2 = (Throws duplicate_keyword, st2) ∧
  keywords st2 !! length (keywords st)
  = Some (Result.stub key (Z.of_nat (length (keywords st)))) ∧
  ∃ i, walk st2 (normalize cs key) = Some i ∧
       Node.id (node st2 i) = Z.of_nat (length (keywords st)).
Proof.
  intros Hr Hbound Hkey Hadd Hsteps Hnorm.
  pose proof (reachable_Inv cs st Hr) as HI.
  destruct (addString_spec cs key addFailure st HI)
    as (o & st1' & E & HI1 & _ & Hres).
  rewrite E in Hadd. injection Hadd as -> ->.
  inversion Hres as [| |st1'' i _ _ Hkw Hw Hid]; subst; [done|].
  rewrite to_int_small in Hid by lia.
  destruct (steps_Inv cs st1 st2 HI1 Hsteps) as [HI2 Hg].
  pose proof (grows_walk _ _ Hg _ _ Hw) as Hw2.
  assert (Node.id (node st2 i) = Z.of_nat (length (keywords st))) as Hid2.
  { rewrite (grows_id _ _ Hg); [done|]. rewrite Hid. lia. }
  split_and!.
  - apply (addString_duplicate cs key' addFailure' st2 i).
    + by eapply normalize_nonempty.
    + by rewrite Hnorm.
    + rewrite Hid2. lia.
  - eapply prefix_lookup_Some; [|apply Hg]. rewrite Hkw.
    rewrite lookup_app_r by done. by rewrite Nat.sub_diag.
  - by exists i.
Qed.

Lemma C4_witness :
  addString false "her" true
    (snd (addString false "he" true (snd (addString false "Her" true
                                                    empty_trie))))
  = (Throws duplicate_keyword,
     snd (addString false "he" true (snd (addString false "Her" true
                                                    empty_trie)))) ∧
  keywords (snd (addString false "he" true
                   (snd (addString false "Her" true empty_trie)))) !! 0
  = Some (Result.stub "Her" 0) ∧
  ∃ i, walk (snd (addString false "he" true
                    (snd (addString false "Her" true empty_trie))))
            (normalize false "Her") = Some i ∧
       Node.id (node (snd (addString false "he" true
                             (snd (addString false "Her" true empty_trie))))
                     i) = 0%Z.
Proof.
  apply (C4_duplicate_keyword_rejected false empty_trie "Her" true
           (snd (addString false "Her" true empty_trie))
           (snd (addString false "he" true
                   (snd (addString false "Her" true empty_trie))))
           "her" true).
  - apply rtc_refl.
  - by vm_compute.
  - done.
  - by vm_compute.
  - eapply rtc_l; [|apply rtc_refl].
    eapply (step_addString _ _ "he" true). apply surjective_pairing.
  - by vm_compute.
Defined.

(** ** Identifiers of a batch taken from a set (claim C10) *)

Lemma addStrings_loop_keywords cs keyList : ∀ st st',
  Inv cs st → addStrings_loop cs keyList st = (Returns tt, st') →
  keywords st' = keywords st ++ batch_stubs (length (keywords st)) keyList.
Proof.
  induction keyList as [|key rest IH]; intros st st' HI; simpl.
  { intros [= <-]. by rewrite app_nil_r. }
  destruct (addString_spec cs key false st HI)
    as (o & st1 & -> & HI1 & _ & Hres).
  destruct Hres as [->| |st1 i Hkey _ Hkw _ _]; [by apply IH | done |].
  intros Hloop. rewrite (IH _ _ HI1 Hloop), Hkw, <- app_assoc.
  rewrite length_app. simpl. rewrite Nat.add_1_r. by destruct key.
Qed.

Lemma batch_stubs_keyword base keyList res :
  res ∈ batch_stubs base keyList → Result.keyword res ∈ keyList.
Proof.
  revert base. induction keyList as [|key rest IH]; intros base; simpl.
  { by intros ?%elem_of_nil. }
  destruct key as [|a key].
  - intros H. right. by eapply IH.
  - intros [->|H]%elem_of_cons; [by left|]. right. by eapply IH.
Qed.

Lemma batch_stubs_id base keyList j res :
  batch_stubs base keyList !! j = Some res →
  Result.id res = Z.of_nat (base + j).
Proof.
  revert base j. induction keyList as [|key rest IH]; intros base j; simpl.
  { by rewrite lookup_nil. }
  destruct key as [|a key]; [apply IH|].
  destruct j as [|j]; simpl.
  - intros [= <-]. simpl. f_equal. lia.
  - intros H. rewrite (IH _ _ H). f_equal. lia.
Qed.

Lemma batch_stubs_sorted base keyList j1 j2 r1 r2 :
  StronglySorted String_as_OT.lt keyList →
  batch_stubs base keyList !! j1 = Some r1 →
  batch_stubs base keyList !! j2 = Some r2 →
  j1 < j2 → String_as_OT.lt (Result.keyword r1) (Result.keyword r2).
Proof.
  intros Hs. revert base j1 j2.
  induction Hs as [|key rest Hs IH Hall]; intros base j1 j2; simpl.
  { by rewrite lookup_nil. }
  destruct key as [|a key]; [apply IH|].
  destruct j1 as [|j1], j2 as [|j2]; simpl; try lia.
  - intros [= <-] H2 _. simpl.
    apply list_elem_of_lookup_2, batch_stubs_keyword in H2.
    rewrite Forall_forall in Hall. by apply Hall.
  - intros H1 H2 Hlt. apply (IH (S base) j1 j2); [done..|lia].
Qed.

(** C10: a batch taken from a [std::set] that returns normally appends
    one keyword per non-empty element of the set, in the sorted iteration
    order of the set; so among the keywords of the batch the identifiers
    increase exactly with the lexicographic order of the keywords. *)
Theorem C10_set_batch_identifiers cs st keyList st' :
  reachable cs st →
  addString_set cs keyList st = (Returns tt, st') →
  keywords st'
  = keywords st
    ++ batch_stubs (length (keywords st)) (StringSet.elements keyList) ∧
  ∀ j1 j2 r1 r2,
    batch_stubs (length (keywords st)) (StringSet.elements keyList) !! j1
    = Some r1 →
    batch_stubs (length (keywords st)) (StringSet.elements keyList) !! j2
    = Some r2 →
    String_as_OT.lt (Result.keyword r1) (Result.keyword r2)
    ↔ (Result.id r1 < Result.id r2)%Z.
Proof.
  intros Hr Hcall. pose proof (reachable_Inv cs st Hr) as HI.
  unfold addString_set in Hcall.
  destruct (addStrings_loop_spec cs (StringSet.elements keyList) st HI)
    as (o & st1 & E & HI1 & _ & _).
  rewrite E in Hcall. destruct o as [[]|e|]; [|done..].
  destruct (addFailureLinks_Inv cs st1 HI1) as (st2 & E2 & _ & Hsame).
  rewrite E2 in Hcall. injection Hcall as <-.
  split.
  { rewrite (same_keywords _ _ Hsame).
    by apply (addStrings_loop_keywords cs). }
  assert (StronglySorted String_as_OT.lt (StringSet.elements keyList))
    as Hsorted.
  { apply Sorted_StronglySorted; [|apply StringSet.elements_spec2].
    intros x y z. apply String_as_OT.lt_strorder. }
  intros j1 j2 r1 r2 H1 H2.
  rewrite (batch_stubs_id _ _ _ _ H1), (batch_stubs_id _ _ _ _ H2).
  split.
  - intros Hlt. destruct (Nat.lt_trichotomy j1 j2) as [?|[->|Hgt]]; [lia|..].
    + rewrite H1 in H2. injection H2 as <-.
      by apply String_as_OT.lt_strorder in Hlt.
    + pose proof (batch_stubs_sorted _ _ _ _ _ _ Hsorted H2 H1 Hgt) as Hlt'.
      exfalso. eapply (StrictOrder_Irreflexive (R := String_as_OT.lt)).
      by etrans.
  - intros Hlt. eapply batch_stubs_sorted; [done..|lia].
Qed.

Lemma C10_witness :
  keywords (snd (addString_set true (std_set driver_keys) empty_trie))
  = keywords empty_trie
    ++ batch_stubs (length (keywords empty_trie))
                   (StringSet.elements (std_set driver_keys)) ∧
  ∀ j1 j2 r1 r2,
    batch_stubs (length (keywords empty_trie))
                (StringSet.elements (std_set driver_keys)) !! j1 = Some r1 →
    batch_stubs (length (keywords empty_trie))
                (StringSet.elements (std_set driver_keys)) !! j2 = Some r2 →
    String_as_OT.lt (Result.keyword r1) (Result.keyword r2)
    ↔ (Result.id r1 < Result.id r2)%Z.
Proof.
  apply (C10_set_batch_identifiers true empty_trie (std_set driver_keys)).
  - apply rtc_refl.
  - by vm_compute.
Defined.

(** The identifiers of the driver's set follow the sorted order, those of
    the same keys given as a vector follow the order of the listing. *)
Example driver_set_identifiers :
  keywords (snd (addString_set true (std_set driver_keys) empty_trie))
  = [Result.stub "he" 0; Result.stub "help" 1; Result.stub "her" 2;
     Result.stub "hey" 3; Result.stub "she" 4; Result.stub "we" 5] ∧
  keywords (snd (addString_vector true driver_keys empty_trie))
  = [Result.stub "he" 0; Result.stub "she" 1; Result.stub "help" 2;
     Result.stub "hey" 3; Result.stub "we" 4; Result.stub "her" 5].
Proof. split; by vm_compute. Qed.

(** ** Case folding (claim C7) *)

Lemma addPath_fold_from key : ∀ acc,
  fold_left (λ '(current, s) character,
               addChild s current (fold_case false character)) key acc
  = fold_left (λ '(current, s) character,
                 addChild s current (fold_case true character))
              (map tolower key) acc.
Proof.
  induction key as [|ch key IH]; intros [current s]; simpl; [done | apply IH].
Qed.

Lemma parseText_unfold cs st text :
  parseText cs st text
  = parseText_loop cs st (list_ascii_of_string text) 0 root [].
Proof. by destruct text. Qed.

Lemma parseText_loop_fold st text : ∀ i current Results,
  parseText_loop false st text i current Results
  = parseText_loop true st (map tolower text) i current Results.
Proof.
  induction text as [|ch text IH]; intros i current Results;
    cbn [parseText_loop map]; [done|].
  change (fold_case false ch) with (tolower ch).
  change (fold_case true (tolower ch)) with (tolower ch).
  destruct (findChild st current (tolower ch)) as [current'|]; [|done].
  destruct (if negb _ then _ else _) as [Results1|e|]; [|done..].
  destruct (outputs_loop _ st _ i Results1) as [Results2|e|]; [|done..].
  apply IH.
Qed.

(** C7: a case-insensitive automaton treats a key and a text as the
    case-sensitive automaton treats their folded symbols: the path of a
    key is looked up and created with the folded symbols, and the scan
    looks up the folded symbols of the text.  With "Her" inserted, the
    scan of "usheRs" returns one match, of the keyword "Her" (identifier
    0), from offset 2 to offset 4, the offset of the 'R'; scanning
    "ushers" or "USHERS" gives the same. *)
Theorem C7_case_folding :
  (∀ st key, addPath false st key = addPath true st (map tolower key)) ∧
  (∀ st text,
     parseText false st text = parseText true st (tolower_string text)) ∧
  addString false "Her" true empty_trie = (Returns tt, Her_trie) ∧
  parseText false Her_trie "usheRs" = Returns [Result.mk "Her" 0 2 4] ∧
  parseText false Her_trie "ushers" = Returns [Result.mk "Her" 0 2 4] ∧
  parseText false Her_trie "USHERS" = Returns [Result.mk "Her" 0 2 4] ∧
  fst (addString false "her" true Her_trie) = Throws duplicate_keyword.
Proof.
  split; [|split]; [| |split_and!; by vm_compute].
  - intros st key. apply addPath_fold_from.
  - intros st text. rewrite !parseText_unfold. unfold tolower_string.
    rewrite list_ascii_of_string_of_list_ascii. apply parseText_loop_fold.
Qed.

(** ** The earlier revision with a run-time flag (claim C6) *)




(** The flag is assigned before the check: the call that throws on a
    case-sensitive automaton leaves it case-insensitive. *)
Example setCaseSensitivity_throw_switches :
  basic_trie.caseSensitive basic_trie.he_trie = true ∧
  fst (basic_trie.setCaseSensitivity false basic_trie.he_trie)
  = Throws basic_trie.switching_error ∧
  basic_trie.caseSensitive
    (snd (basic_trie.setCaseSensitivity false basic_trie.he_trie)) = false.
Proof. split_and!; by vm_compute. Qed.

(** The 2016 revision placed the start of a match one offset too far:
    for "he" ending at offset 3 it reports the start 3, the current
    header reports 2. *)
Example Result_at_pos_2016 :
  Result.start (basic_trie.Result_at_pos (Result.stub "he" 3) 3) = 3%Z ∧
  Result.start (Result.at_pos (Result.stub "he" 3) 3) = 2%Z.
Proof. split; by vm_compute. Qed.

(** ** Soundness of the scan (claim C5) *)

Lemma length_list_ascii_of_string s :
  length (list_ascii_of_string s) = String.length s.
Proof. induction s as [|a s IH]; simpl; [done | by rewrite IH]. Qed.

Lemma length_normalize cs key : length (normalize cs key) = String.length key.
Proof.
  unfold normalize. by rewrite length_map, length_list_ascii_of_string.
Qed.

Lemma to_size_t_small z : (0 ≤ z < size_t_max)%Z → to_size_t z = z.
Proof. intros H. unfold to_size_t. by apply Z.mod_small. Qed.

Lemma suffix_take_drop {A} (w l : list A) n :
  w `suffix_of` take n l → n ≤ length l →
  length w ≤ n ∧ take (length w) (drop (n - length w) l) = w.
Proof.
  intros [k Hk] Hn.
  assert (length k + length w = n) as Hlen.
  { rewrite <- length_app, <- Hk, length_take. lia. }
  split; [lia|].
  replace (n - length w) with (length k) by lia.
  rewrite <- (take_drop n l), Hk, <- app_assoc.
  rewrite drop_app_length. by rewrite take_app_length.
Qed.

Section Scan.
Variables (cs : bool) (st : trie).
Hypothesis HI : Inv cs st.
Hypothesis Hkeywords : (Z.of_nat (length (keywords st)) ≤ int_max)%Z.

(** The keyword read through the identifier of a node is the one whose
    word ends in the node. *)
Lemma keywords_at_node n w :
  walk st w = Some n → Node.id (node st n) ≠ (-1)%Z →
  ∃ res, keywords_at st (Node.id (node st n)) = Some res ∧
         normalize cs (Result.keyword res) = w.
Proof using HI Hkeywords.
  intros Hw Hid. pose proof HI as [Hwf _ _ Hk].
  pose proof (walk_lt st w n Hwf Hw) as Hn.
  destruct (wfk_node cs st Hk n Hn Hid) as (k & res & Hidk & Hres & Hwk).
  exists res. split; [|by eapply walk_inj].
  apply lookup_lt_Some in Hres as Hlt.
  unfold keywords_at. rewrite Hidk.
  rewrite to_int_small by lia.
  rewrite to_size_t_small by (unfold size_t_max, int_max in *; lia).
  by rewrite Nat2Z.id.
Qed.

Lemma traverseFail_loop_sound ch w : ∀ fuel temp wt,
  walk st wt = Some temp → wt `suffix_of` w →
  (Node.depth (node st temp) < Z.of_nat fuel)%Z →
  ∃ x wx, traverseFail_loop fuel st temp ch = Some x ∧
          walk st wx = Some x ∧ wx `suffix_of` w ++ [ch].
Proof using HI.
  pose proof HI as [Hwf Hl Hs _].
  induction fuel as [|fuel IH]; intros temp wt Hwt Hsuf Hd.
  { pose proof (depth_nonneg st temp Hwf (walk_lt _ _ _ Hwf Hwt)). lia. }
  simpl. destruct (Nat.eqb_spec temp root) as [->|Hne].
  - apply walk_root_nil in Hwt as ->; [|done].
    destruct (child_with st root ch) as [rootchild|] eqn:E.
    + exists rootchild, [ch]. split_and!; [done | |by apply suffix_app_r].
      unfold walk. simpl. by rewrite E.
    + exists root, []. split_and!; [done.. | apply suffix_nil].
  - destruct (child_with st temp ch) as [failchild|] eqn:E.
    + exists failchild, (wt ++ [ch]). split_and!; [done | |by apply suffix_app].
      rewrite walk_snoc, Hwt. done.
    + pose proof (walk_lt _ _ _ Hwf Hwt) as Hlt.
      destruct (sl_failure st Hs _ _ Hwt) as (w' & Hw' & Hsuf').
      destruct (wfl_failure st Hl temp) as [_ Hfd]; [unfold root in *; lia|].
      apply (IH _ w'); [done | by etrans | lia].
Qed.

Lemma findChild_sound current w ch :
  walk st w = Some current →
  ∃ x wx, findChild st current ch = Some x ∧
          walk st wx = Some x ∧ wx `suffix_of` w ++ [ch].
Proof using HI.
  intros Hw. pose proof HI as [Hwf Hl Hs _]. unfold findChild.
  destruct (child_with st current ch) as [child|] eqn:E.
  - exists child, (w ++ [ch]). split_and!; [done | | done].
    rewrite walk_snoc, Hw. done.
  - destruct (sl_failure st Hs _ _ Hw) as (w' & Hw' & Hsuf').
    unfold traverseFail. apply (traverseFail_loop_sound ch w _ _ w');
      [done..|].
    pose proof (walk_lt _ _ _ Hwf Hw') as Hlt.
    pose proof (depth_nonneg st _ Hwf Hlt). unfold size in *. lia.
Qed.

Variables (pre : list ascii) (ch : ascii) (rest : list ascii).
Hypothesis Htext :
  (Z.of_nat (length (pre ++ ch :: rest)) ≤ size_t_max)%Z.

(** A keyword read at a node whose word ends with the symbol at offset
    [length pre] gives a correct record. *)
Lemma emit_ok n w :
  walk st w = Some n → w `suffix_of` map (fold_case cs) (pre ++ [ch]) →
  Node.id (node st n) ≠ (-1)%Z →
  ∃ res, keywords_at st (Node.id (node st n)) = Some res ∧
         match_ok cs (pre ++ ch :: rest)
                  (Result.at_pos res (Z.of_nat (length pre))).
Proof using HI Hkeywords Htext.
  intros Hw Hsuf Hid.
  destruct (keywords_at_node n w Hw Hid) as (res & Hres & Hnorm).
  exists res. split; [done|].
  assert (map (fold_case cs) (pre ++ [ch])
          = take (S (length pre)) (map (fold_case cs) (pre ++ ch :: rest)))
    as Htake.
  { rewrite <- !fmap_take. f_equal.
    rewrite (cons_middle ch pre rest), app_assoc.
    rewrite take_app_length'; [done|]. rewrite length_app. simpl. lia. }
  rewrite Htake in Hsuf.
  apply suffix_take_drop in Hsuf as [Hlen Hseg].
  2:{ rewrite length_map, length_app. simpl. lia. }
  assert (length w = String.length (Result.keyword res)) as Hlw.
  { by rewrite <- Hnorm, length_normalize. }
  assert (0 < length w) as Hpos.
  { destruct w; [|simpl; lia]. injection Hw as <-.
    by rewrite (wfk_root cs st (inv_keywords cs st HI)) in Hid. }
  rewrite length_app in Htext. simpl in Htext.
  unfold match_ok, Result.at_pos. simpl.
  rewrite to_size_t_small by lia.
  split_and!; [done | lia | rewrite length_app; simpl; lia |].
  rewrite <- Hlw, Hnorm.
  replace (Z.to_nat (Z.of_nat (length pre) - Z.of_nat (length w) + 1))
    with (S (length pre) - length w) by lia.
  done.
Qed.

Lemma outputs_loop_sound : ∀ fuel Results temp wt,
  walk st wt = Some temp →
  wt `suffix_of` map (fold_case cs) (pre ++ [ch]) →
  temp = root ∨ Node.id (node st temp) ≠ (-1)%Z →
  (Node.depth (node st temp) < Z.of_nat fuel)%Z →
  Forall (match_ok cs (pre ++ ch :: rest)) Results →
  ∃ Results',
    outputs_loop fuel st temp (Z.of_nat (length pre)) Results
    = Returns Results' ∧
    Forall (match_ok cs (pre ++ ch :: rest)) Results'.
Proof using HI Hkeywords Htext.
  pose proof HI as [Hwf Hl Hs _].
  induction fuel as [|fuel IH]; intros Results temp wt Hwt Hsuf Hid Hd Hall.
  { pose proof (depth_nonneg st temp Hwf (walk_lt _ _ _ Hwf Hwt)). lia. }
  simpl. destruct (Nat.eqb_spec temp root) as [->|Hne]; [by exists Results|].
  destruct Hid as [?|Hid]; [done|].
  destruct (emit_ok temp wt Hwt Hsuf Hid) as (res & -> & Hok).
  pose proof (walk_lt _ _ _ Hwf Hwt) as Hlt.
  destruct (sl_output st Hs _ _ Hwt) as (w' & Hw' & Hsuf').
  destruct (wfl_output st Hl temp) as [_ Hod]; [unfold root in *; lia|].
  apply (IH _ _ w'); [done | by etrans | by apply Hl | lia |].
  apply Forall_app. split; [done|]. by apply Forall_singleton.
Qed.

End Scan.

Lemma parseText_loop_sound cs st full :
  Inv cs st →
  (Z.of_nat (length (keywords st)) ≤ int_max)%Z →
  (Z.of_nat (length full) ≤ size_t_max)%Z →
  ∀ rest pre current w Results,
    full = pre ++ rest →
    walk st w = Some current → w `suffix_of` map (fold_case cs) pre →
    Forall (match_ok cs full) Results →
    ∃ Results',
      parseText_loop cs st rest (Z.of_nat (length pre)) current Results
      = Returns Results' ∧
      Forall (match_ok cs full) Results'.
Proof.
  intros HI Hkw Hlen. pose proof HI as [Hwf Hl Hs _].
  induction rest as [|ch rest IH]; intros pre current w Results -> Hw Hsuf Hall.
  { by exists Results. }
  cbn [parseText_loop].
  destruct (findChild_sound cs st HI current w (fold_case cs ch) Hw)
    as (x & wx & -> & Hwx & Hsufx).
  assert (wx `suffix_of` map (fold_case cs) (pre ++ [ch])) as Hsufx'.
  { etrans; [done|]. rewrite map_app. by apply suffix_app. }
  pose proof (walk_lt _ _ _ Hwf Hwx) as Hx.
  assert (∃ Results1,
            (if negb (Node.id (node st x) =? -1)%Z
             then match keywords_at st (Node.id (node st x)) with
                  | Some res =>
                      Returns (Results
                               ++ [Result.at_pos res (Z.of_nat (length pre))])
                  | None => Throws out_of_range
                  end
             else Returns Results) = Returns Results1 ∧
            Forall (match_ok cs (pre ++ ch :: rest)) Results1)
    as (Results1 & -> & Hall1).
  { destruct (Z.eqb_spec (Node.id (node st x)) (-1)) as [Hid|Hid]; simpl.
    { by exists Results. }
    destruct (emit_ok cs st HI Hkw pre ch rest Hlen x wx Hwx Hsufx' Hid)
      as (res & -> & Hok).
    eexists. split; [done|]. apply Forall_app. split; [done|].
    by apply Forall_singleton. }
  destruct (sl_output st Hs _ _ Hwx) as (wo & Hwo & Hsufo).
  destruct (outputs_loop_sound cs st HI Hkw pre ch rest Hlen
              (S (length (trieNodes st))) Results1
              (Node.output (node st x)) wo)
    as (Results2 & -> & Hall2); [done | by etrans | by apply Hl | | done |].
  { pose proof (walk_lt _ _ _ Hwf Hwo) as Hlt.
    pose proof (depth_nonneg st _ Hwf Hlt). unfold size in *. lia. }
  replace (Z.of_nat (length pre) + 1)%Z with (Z.of_nat (length (pre ++ [ch])))
    by (rewrite length_app; simpl; lia).
  assert (pre ++ ch :: rest = (pre ++ [ch]) ++ rest) as Hfull
      by by rewrite <- app_assoc.
  rewrite Hfull in *.
  by apply (IH (pre ++ [ch]) x wx Results2).
Qed.

(** C5: on every reachable automaton with at most 2^31 keywords, and for
    every text whose length fits [size_t], [parseText] returns, and every
    record [res] of the result has [start = end - length(keyword) + 1]
    with [0 <= start] and [end] below the length of the text, and the
    symbols of the text at the offsets [start] to [end] (inclusive) are,
    after case folding, the symbols of the keyword. *)
Theorem C5_match_offsets cs st text :
  reachable cs st →
  (Z.of_nat (length (keywords st)) ≤ int_max)%Z →
  (Z.of_nat (String.length text) ≤ size_t_max)%Z →
  ∃ Results, parseText cs st text = Returns Results ∧
    ∀ res, res ∈ Results →
      Result.start res
      = (Result.end_ res - Z.of_nat (String.length (Result.keyword res)) + 1)%Z
      ∧ (0 ≤ Result.start res)%Z
      ∧ (Result.end_ res < Z.of_nat (String.length text))%Z
      ∧ take (String.length (Result.keyword res))
             (drop (Z.to_nat (Result.start res)) (normalize cs text))
        = normalize cs (Result.keyword res).
Proof.
  intros Hr Hkw Hlen. pose proof (reachable_Inv cs st Hr) as HI.
  rewrite <- length_list_ascii_of_string in Hlen.
  destruct (parseText_loop_sound cs st (list_ascii_of_string text) HI Hkw Hlen
              (list_ascii_of_string text) [] root [] [])
    as (Results & Hparse & Hall); [done | done | apply suffix_nil | done |].
  exists Results. split; [by rewrite parseText_unfold|].
  intros res Hres. rewrite Forall_forall in Hall.
  destruct (Hall res Hres) as (? & ? & ? & ?).
  by rewrite length_list_ascii_of_string in *.
Qed.

Lemma C5_witness :
  ∃ Results, parseText true ushers_trie "ushers" = Returns Results ∧
    ∀ res, res ∈ Results →
      Result.start res
      = (Result.end_ res - Z.of_nat (String.length (Result.keyword res)) + 1)%Z
      ∧ (0 ≤ Result.start res)%Z
      ∧ (Result.end_ res < Z.of_nat (String.length "ushers"))%Z
      ∧ take (String.length (Result.keyword res))
             (drop (Z.to_nat (Result.start res)) (normalize true "ushers"))
        = normalize true (Result.keyword res).
Proof.
  apply (C5_match_offsets true ushers_trie "ushers").
  - apply reachable_ushers_trie.
  - by vm_compute.
  - by vm_compute.
Defined.

(** ** Idempotence of the link construction (claim C9) *)

Lemma with_failure_same n : Node.with_failure n (Node.failure n) = n.
Proof. by destruct n. Qed.

Lemma with_output_same n : Node.with_output n (Node.output n) = n.
Proof. by destruct n. Qed.

Lemma relinkFailure_other st temp y :
  wf_tree st → y ≠ temp → node (relinkFailure st temp) y = node st y.
Proof.
  intros Hwf Hy. rewrite relinkFailure_spec by done.
  destruct (_ <? _)%Z; [|done]. destruct (child_with _ _ _); [|done].
  by rewrite node_store_ne.
Qed.

Lemma relinkFailure_output st temp y :
  wf_tree st →
  Node.output (node (relinkFailure st temp) y) = Node.output (node st y).
Proof.
  intros Hwf. rewrite relinkFailure_spec by done.
  destruct (_ <? _)%Z; [|done]. destruct (child_with _ _ _); [|done].
  rewrite node_store_gen. by destruct (decide _) as [[-> _]|_].
Qed.

Lemma relink_other st temp st' y :
  wf_tree st → relink st temp = Some st' → y ≠ temp →
  node st' y = node st y.
Proof.
  intros Hwf Hr Hy. unfold relink in Hr.
  destruct (outputWalk _ _ _) as [out|]; [|done]. injection Hr as <-.
  rewrite node_store_ne by done. by apply relinkFailure_other.
Qed.

Lemma stable_intro st x :
  relinkFailure st x = st →
  outputWalk (S (length (trieNodes st))) st (Node.failure (node st x))
  = Some (Node.output (node st x)) →
  stable st x.
Proof.
  intros Hf Ho. unfold stable, relink. rewrite Hf, Ho.
  by rewrite with_output_same, store_same.
Qed.

Lemma stable_inv st x :
  wf_tree st → x < size st → stable st x →
  relinkFailure st x = st ∧
  outputWalk (S (length (trieNodes st))) st (Node.failure (node st x))
  = Some (Node.output (node st x)).
Proof.
  intros Hwf Hx Hst. unfold stable, relink in Hst.
  pose proof (relinkFailure_same st x) as Hsame.
  pose proof (relinkFailure_output st x x Hwf) as Hout.
  set (st1 := relinkFailure st x) in *.
  destruct (outputWalk _ st1 _) as [out|] eqn:Ho; [|done].
  injection Hst as Hst.
  assert (node st x = Node.with_output (node st1 x) out) as Hnode.
  { rewrite <- Hst at 1. rewrite node_store_eq; [done|].
    by rewrite (same_size _ _ Hsame). }
  assert (st1 = st) as Heq.
  { subst st1. rewrite relinkFailure_spec in * by done.
    destruct (_ <? _)%Z; [|done]. destruct (child_with _ _ _) as [fc|]; [|done].
    rewrite node_store_eq in Hnode by done.
    assert (Node.failure (node st x) = fc) as <- by by rewrite Hnode.
    by rewrite with_failure_same, store_same. }
  rewrite Heq in *. split; [done|].
  rewrite Ho. f_equal. by rewrite Hnode.
Qed.

(** [outputWalk] reads the identifiers and failure links of the nodes
    that are at most as deep as its starting point. *)
Lemma outputWalk_agree st st' :
  wf_tree st → wf_links st → same_tree st st' →
  ∀ fuel out, out < size st →
  (∀ y, y < size st →
        (Node.depth (node st y) ≤ Node.depth (node st out))%Z →
        Node.failure (node st' y) = Node.failure (node st y)) →
  outputWalk fuel st' out = outputWalk fuel st out.
Proof.
  intros Hwf Hl Hsame.
  induction fuel as [|fuel IH]; intros out Hout Hagree; simpl; [done|].
  destruct (Nat.eqb_spec out root) as [->|Hne]; [done|].
  rewrite (same_id _ _ Hsame). destruct (negb _); [done|].
  rewrite Hagree by (done || lia).
  destruct (wfl_failure st Hl out) as [Hf Hfd]; [unfold root in *; lia|].
  apply IH; [done|]. intros y Hy Hd. apply Hagree; [done | lia].
Qed.

Section RelinkStable.
Variables (cs : bool) (st st' : trie) (temp : nat).
Hypothesis HI : Inv cs st.
Hypothesis Htemp : temp < size st.
Hypothesis Hrelink : relink st temp = Some st'.

Lemma relink_result_Inv : Inv cs st' ∧ same_tree st st'.
Proof using HI Htemp Hrelink.
  destruct (relink_Inv cs st temp HI Htemp) as (st'' & E & ? & ?).
  rewrite E in Hrelink. by injection Hrelink as <-.
Qed.

(** After its iteration, [temp] is stable. *)
Lemma relink_idem : stable st' temp.
Proof using HI Htemp Hrelink.
  pose proof HI as [Hwf Hl _ _].
  destruct relink_result_Inv as [[Hwf' Hl' _ _] Hsame].
  pose proof Hrelink as Hr. unfold relink in Hr.
  pose proof (relinkFailure_same st temp) as Hsame1.
  set (st1 := relinkFailure st temp) in *.
  destruct (outputWalk _ st1 _) as [out|] eqn:Ho; [|done].
  injection Hr as Hst'.
  assert (temp < size st1) as Htemp1 by by rewrite (same_size _ _ Hsame1).
  assert (∀ y, Node.failure (node st' y) = Node.failure (node st1 y)) as Hf.
  { intros y. rewrite <- Hst', node_store_gen.
    by destruct (decide _) as [[-> _]|_]. }
  assert (Node.output (node st' temp) = out) as Hout.
  { by rewrite <- Hst', node_store_eq. }
  assert (same_tree st1 st') as Hsame2.
  { rewrite <- Hst'. apply same_tree_store_output. }
  apply stable_intro.
  - rewrite relinkFailure_spec by done.
    destruct (_ <? _)%Z eqn:Hcond'; [|done].
    destruct (child_with st' _ _) as [fc'|] eqn:Hfc'; [|done].
    destruct (relinkFailure_target st' temp fc') as (Hpos & Hppos & _);
      [done | done | by rewrite <- (same_size _ _ Hsame) in Htemp | done..|].
    assert (Node.parent (node st' temp) ≠ temp) as Hpne.
    { pose proof (wf_parent st' Hwf' temp).
      rewrite (same_size _ _ Hsame) in *. lia. }
    assert (Node.failure (node st' temp) = fc') as <-; [|
      by rewrite with_failure_same, store_same].
    rewrite Hf. subst st1. rewrite relinkFailure_spec by done.
    rewrite (child_with_same st st'), (same_c _ _ Hsame),
      (same_parent _ _ Hsame) in Hfc' by done.
    rewrite (same_parent _ _ Hsame) in Hpne.
    rewrite (relink_other st temp st') in Hfc' by done.
    destruct (Node.depth (node st (Node.failure (node st temp)))
              <? Node.depth (node st temp) - 1)%Z eqn:Hcond.
    + rewrite Hfc'. by rewrite node_store_eq.
    + exfalso. rewrite Hf in Hcond'.
      rewrite relinkFailure_spec, Hcond in Hcond' by done.
      rewrite !(same_depth _ _ Hsame) in Hcond'. congruence.
  - rewrite Hout, Hf, <- Ho.
    assert (length (trieNodes st') = length (trieNodes st1)) as ->.
    { apply (same_size _ _ Hsame2). }
    clear -Hf Hsame2. generalize (S (length (trieNodes st1))).
    intros fuel. generalize (Node.failure (node st1 temp)). 
    induction fuel as [|fuel IH]; intros o; simpl; [done|].
    rewrite (same_id _ _ Hsame2), Hf. destruct (o =? root); [done|].
    destruct (negb _); [done | apply IH].
Qed.

(** The iteration on [temp] keeps stable every node that is not [temp]
    and at most as deep as [temp]. *)
Lemma relink_frame x :
  x < size st → x ≠ temp →
  (Node.depth (node st x) ≤ Node.depth (node st temp))%Z →
  stable st x → stable st' x.
Proof using HI Htemp Hrelink.
  intros Hx Hne Hd Hst. pose proof HI as [Hwf Hl _ _].
  destruct relink_result_Inv as [[Hwf' Hl' _ _] Hsame].
  destruct (stable_inv st x Hwf Hx Hst) as [Hfx Hox].
  assert (∀ y, y ≠ temp → node st' y = node st y) as Hother.
  { intros y Hy. by eapply relink_other. }
  apply stable_intro.
  - rewrite relinkFailure_spec by done.
    rewrite relinkFailure_spec in Hfx by done.
    rewrite (Hother x), (same_depth _ _ Hsame) by done.
    destruct (_ <? _)%Z eqn:Hcond; [|done].
    rewrite (child_with_same st st') by done.
    assert (Node.parent (node st x) ≠ temp) as Hpne.
    { intros E. destruct (decide (x = 0)) as [->|].
      - change 0 with root in E. rewrite (wf_root_parent st Hwf) in E.
        by subst temp.
      - pose proof (wf_depth st Hwf x ltac:(lia)) as Hdx.
        rewrite E in Hdx. lia. }
    rewrite (Hother _ Hpne).
    destruct (child_with st _ _) as [fc|] eqn:Hfc; [|done].
    assert (node st x = Node.with_failure (node st x) fc) as Hn.
    { rewrite <- Hfx at 1. by rewrite node_store_eq. }
    rewrite <- Hn. rewrite <- (Hother x) by done. apply store_same.
  - rewrite (Hother x) by done.
    assert (length (trieNodes st') = length (trieNodes st)) as ->.
    { apply (same_size _ _ Hsame). }
    rewrite <- Hox.
    destruct (decide (x = 0)) as [->|Hx0].
    { change 0 with root. by rewrite (wfl_root_failure st Hl). }
    destruct (wfl_failure st Hl x) as [Hf Hfd]; [lia|].
    apply outputWalk_agree; [done..|].
    intros y Hy Hdy. rewrite Hother; [done|]. intros ->. lia.
Qed.

End RelinkStable.

Lemma bfs_stable_bound cs st0 popped q st :
  bfs_stable cs st0 popped q st → length popped + length q ≤ size st0.
Proof. intros [H _ _ _ _]. by eapply bfs_inv_bound. Qed.

Lemma bfs_stable_init cs st : Inv cs st → bfs_stable cs st [] [root] st.
Proof.
  intros HI. split.
  - by apply bfs_inv_init.
  - exists 0%Z, [root], []. split_and!; [done | constructor | | constructor].
    apply Forall_singleton, HI.
  - by intros x ?%elem_of_nil.
  - by intros x ch ?%elem_of_nil.
  - by left.
Qed.

Lemma bfs_stable_step cs st0 popped temp rest st :
  bfs_stable cs st0 popped (temp :: rest) st →
  ∃ st', relink st temp = Some st' ∧
         bfs_stable cs st0 (popped ++ [temp])
                    (rest ++ Node.children (node st temp)) st'.
Proof.
  intros [Hinv (d & q1 & q2 & Hq & Hpop & Hq1 & Hq2) Hst Hcl Hroot].
  destruct (bfs_inv_step cs st0 popped temp rest st Hinv) as (st' & Hr & Hinv').
  exists st'. split; [done|].
  pose proof Hinv as [HI Hsame Hnd Hlt _].
  assert (wf_tree st0) as Hwf0.
  { eapply wf_tree_same; [by apply same_tree_sym | apply HI]. }
  assert (temp < size st0) as Htemp.
  { apply Hlt, elem_of_app. right. by left. }
  assert (temp < size st) as Htemp' by by rewrite (same_size _ _ Hsame).
  assert (∀ ch, ch ∈ Node.children (node st temp) →
                Node.depth (node st0 ch)
                = (Node.depth (node st0 temp) + 1)%Z) as Hchd.
  { intros ch. rewrite (same_children _ _ Hsame). intros Hch.
    destruct (wf_children st0 Hwf0 temp ch Htemp Hch) as [Hr' Hp].
    by rewrite (wf_depth st0 Hwf0 ch Hr'), Hp. }
  assert (∀ x, x ∈ popped →
               (Node.depth (node st0 x) ≤ Node.depth (node st0 temp))%Z)
    as Hdeep.
  { intros x Hx. rewrite Forall_forall in Hpop. specialize (Hpop x Hx).
    destruct q1 as [|t q1]; simpl in Hq.
    - subst q2. apply Forall_cons in Hq2 as [-> _]. lia.
    - injection Hq as <- _. apply Forall_cons in Hq1 as [-> _]. lia. }
  split.
  - done.
  - destruct q1 as [|t q1]; simpl in Hq.
    + subst q2. apply Forall_cons in Hq2 as [Hdt Hq2].
      exists (d + 1)%Z, rest, (Node.children (node st temp)).
      split_and!; [done | | done |].
      * apply Forall_app. split; [|by apply Forall_singleton; lia].
        eapply Forall_impl; [done|]. simpl. lia.
      * apply Forall_forall. intros ch Hch. rewrite (Hchd ch Hch). lia.
    + injection Hq as <- ->. apply Forall_cons in Hq1 as [Hdt Hq1].
      exists d, q1, (q2 ++ Node.children (node st temp)).
      split_and!; [by rewrite app_assoc | | done |].
      * apply Forall_app. split; [done|]. apply Forall_singleton. lia.
      * apply Forall_app. split; [done|].
        apply Forall_forall. intros ch Hch. rewrite (Hchd ch Hch). lia.
  - intros x [Hx| ->%list_elem_of_singleton]%elem_of_app.
    + eapply (relink_frame cs st st' temp); [done..| | | | by apply Hst].
      * rewrite (same_size _ _ Hsame). apply Hlt, elem_of_app. by left.
      * intros ->. apply NoDup_app in Hnd as (_ & Hdisj & _).
        apply (Hdisj temp Hx). by left.
      * rewrite !(same_depth _ _ Hsame). by apply Hdeep.
    + by eapply (relink_idem cs st).
  - intros x ch [Hx| ->%list_elem_of_singleton]%elem_of_app Hch.
    + specialize (Hcl x ch Hx Hch).
      rewrite <- app_assoc. simpl.
      apply elem_of_app in Hcl as [?|Hcl]; [apply elem_of_app; by left|].
      apply elem_of_app. right.
      apply elem_of_cons in Hcl as [->|?]; [by left|].
      right. apply elem_of_app. by left.
    + rewrite (same_children _ _ Hsame).
      apply elem_of_app. right. apply elem_of_app. by right.
  - rewrite <- app_assoc. simpl.
    apply elem_of_app in Hroot as [?|Hroot]; [apply elem_of_app; by left|].
    apply elem_of_app. right.
    apply elem_of_cons in Hroot as [->|?]; [by left|].
    right. apply elem_of_app. by left.
Qed.

Lemma bfs_again_step cs st1 P :
  (∀ x, x ∈ P → stable st1 x) →
  (∀ x ch, x ∈ P → ch ∈ Node.children (node st1 x) → ch ∈ P) →
  ∀ popped temp rest st,
    bfs_again cs st1 P popped (temp :: rest) st →
    ∃ st', relink st temp = Some st' ∧
           bfs_again cs st1 P (popped ++ [temp])
                     (rest ++ Node.children (node st temp)) st'.
Proof.
  intros HP Hcl popped temp rest st [Hinv -> Hin].
  destruct (bfs_inv_step cs st1 popped temp rest st1 Hinv)
    as (st' & Hr & Hinv').
  assert (temp ∈ P) as Htemp by (apply Hin; by left).
  assert (st' = st1) as ->.
  { specialize (HP temp Htemp). unfold stable in HP. congruence. }
  exists st1. split; [done|]. split; [done..|].
  intros x [Hx|Hx]%elem_of_app.
  - apply Hin. by right.
  - by apply (Hcl temp).
Qed.

(** C9: on every reachable automaton the link construction returns, and
    a second run on the state it leaves returns that same state: every
    failure and output link is the one of the first run. *)
Theorem C9_link_construction_idempotent cs st :
  reachable cs st →
  ∃ st1, addFailureLinks st = (Returns tt, st1) ∧
         addFailureLinks st1 = (Returns tt, st1).
Proof.
  intros Hr. pose proof (reachable_Inv cs st Hr) as HI.
  unfold addFailureLinks at 1.
  destruct (addFailureLinks_loop_inv (bfs_stable cs st) (size st)
              (bfs_stable_bound cs st) (bfs_stable_step cs st)
              (length (trieNodes st)) [] [root] st)
    as (P & st1 & Hloop & [Hinv _ Hst Hcl Hroot]).
  { by apply bfs_stable_init. }
  { unfold size. simpl. lia. }
  exists st1. split; [done|].
  pose proof Hinv as [HI1 Hsame _ _ _].
  assert (∀ x ch, x ∈ P → ch ∈ Node.children (node st1 x) → ch ∈ P)
    as Hcl1.
  { intros x ch Hx. rewrite (same_children _ _ Hsame). intros Hch.
    specialize (Hcl x ch Hx Hch). by rewrite app_nil_r in Hcl. }
  rewrite app_nil_r in Hroot.
  unfold addFailureLinks.
  destruct (addFailureLinks_loop_inv (bfs_again cs st1 P) (size st1)
              (λ popped q s H, bfs_inv_bound cs st1 popped q s
                                 (ba_inv cs st1 P popped q s H))
              (bfs_again_step cs st1 P Hst Hcl1)
              (length (trieNodes st1)) [] [root] st1)
    as (P2 & st2 & Hloop2 & [_ -> _]); [|unfold size; simpl; lia | done].
  split; [by apply bfs_inv_init | done |].
  by intros x ->%list_elem_of_singleton.
Qed.

Lemma C9_witness :
  ∃ st1, addFailureLinks ushers_trie = (Returns tt, st1) ∧
         addFailureLinks st1 = (Returns tt, st1).
Proof.
  apply (C9_link_construction_idempotent true ushers_trie).
  apply reachable_ushers_trie.
Defined.

(** ** Identifiers and keywords *)

Lemma node_of_keyword cs st k res :
  Inv cs st → (Z.of_nat (length (keywords st)) ≤ int_max)%Z →
  keywords st !! k = Some res →
  Result.id res = Z.of_nat k ∧ Result.keyword res ≠ EmptyString ∧
  ∃ n, walk st (normalize cs (Result.keyword res)) = Some n ∧
       Node.id (node st n) = Z.of_nat k.
Proof.
  intros HI Hb Hres. apply lookup_lt_Some in Hres as Hk.
  destruct (wfk_keyword cs st (inv_keywords cs st HI) k res Hres)
    as (Hid & Hne & n & Hw & Hn).
  split_and!; [done..|]. exists n. split; [done|].
  rewrite to_int_small in Hn by lia. apply Hn. lia.
Qed.

(** X1: in a reachable automaton with at most 2^31 keywords the record
    at index [k] of the keyword vector has the identifier [k] and a
    non-empty text, and the node at the end of its word carries [k]; a
    node that carries an identifier is the end of the word of the keyword
    with that index; and two stored keywords never have the same
    case-normalized form. *)
Theorem X1_identifiers cs st :
  reachable cs st →
  (Z.of_nat (length (keywords st)) ≤ int_max)%Z →
  (∀ k res, keywords st !! k = Some res →
     Result.id res = Z.of_nat k ∧ Result.keyword res ≠ EmptyString ∧
     ∃ n, walk st (normalize cs (Result.keyword res)) = Some n ∧
          Node.id (node st n) = Z.of_nat k) ∧
  (∀ n, n < size st → Node.id (node st n) ≠ (-1)%Z →
     ∃ k res, Node.id (node st n) = Z.of_nat k ∧
              keywords st !! k = Some res ∧
              walk st (normalize cs (Result.keyword res)) = Some n) ∧
  (∀ k1 k2 r1 r2,
     keywords st !! k1 = Some r1 → keywords st !! k2 = Some r2 →
     normalize cs (Result.keyword r1) = normalize cs (Result.keyword r2) →
     k1 = k2).
Proof.
  intros Hr Hb. pose proof (reachable_Inv cs st Hr) as HI. split_and!.
  - intros k res. by apply node_of_keyword.
  - intros n Hn Hid.
    destruct (wfk_node cs st (inv_keywords cs st HI) n Hn Hid)
      as (k & res & Hk & Hres & Hw).
    exists k, res. split_and!; [|done..].
    apply lookup_lt_Some in Hres. rewrite Hk. apply to_int_small. lia.
  - intros k1 k2 r1 r2 H1 H2 Hnorm.
    destruct (node_of_keyword cs st k1 r1 HI Hb H1) as (_ & _ & n1 & Hw1 & Hn1).
    destruct (node_of_keyword cs st k2 r2 HI Hb H2) as (_ & _ & n2 & Hw2 & Hn2).
    rewrite Hnorm, Hw2 in Hw1. injection Hw1 as <-. lia.
Qed.

Lemma X1_witness :
  (∀ k res, keywords ushers_trie !! k = Some res →
     Result.id res = Z.of_nat k ∧ Result.keyword res ≠ EmptyString ∧
     ∃ n, walk ushers_trie (normalize true (Result.keyword res)) = Some n ∧
          Node.id (node ushers_trie n) = Z.of_nat k) ∧
  (∀ n, n < size ushers_trie → Node.id (node ushers_trie n) ≠ (-1)%Z →
     ∃ k res, Node.id (node ushers_trie n) = Z.of_nat k ∧
              keywords ushers_trie !! k = Some res ∧
              walk ushers_trie (normalize true (Result.keyword res))
              = Some n) ∧
  (∀ k1 k2 r1 r2,
     keywords ushers_trie !! k1 = Some r1 →
     keywords ushers_trie !! k2 = Some r2 →
     normalize true (Result.keyword r1) = normalize true (Result.keyword r2) →
     k1 = k2).
Proof.
  apply (X1_identifiers true ushers_trie).
  - apply reachable_ushers_trie.
  - by vm_compute.
Defined.

(** X2: a non-empty key is rejected with the duplicate error, and the
    automaton returned as it was, exactly when a keyword with the same
    case-normalized form is stored; otherwise the call returns normally
    and appends the key, with the next free index as identifier, to the
    keyword vector. *)
Theorem X2_addString_outcome cs st key addFailure :
  reachable cs st →
  (Z.of_nat (length (keywords st)) < int_max)%Z →
  key ≠ EmptyString →
  (stored cs st key →
   addString cs key addFailure st = (Throws duplicate_keyword, st)) ∧
  (¬ stored cs st key →
   ∃ st', addString cs key addFailure st = (Returns tt, st') ∧
          keywords st'
          = keywords st
            ++ [Result.stub key (Z.of_nat (length (keywords st)))]).
Proof.
  intros Hr Hb Hkey. pose proof (reachable_Inv cs st Hr) as HI. split.
  - intros (res & Hin & Hnorm).
    apply list_elem_of_lookup_1 in Hin as [k Hres].
    destruct (node_of_keyword cs st k res HI ltac:(lia) Hres)
      as (_ & _ & n & Hw & Hn).
    apply (addString_duplicate cs key addFailure st n); [done | |].
    + by rewrite <- Hnorm.
    + rewrite Hn. lia.
  - intros Hnew.
    destruct (addString_spec cs key addFailure st HI)
      as (o & st' & E & _ & _ & Hres).
    destruct Hres as [?|i _ Hw Hid|st' i _ _ Hkw _ _]; [done | | by exists st'].
    exfalso. apply Hnew.
    pose proof (walk_lt _ _ _ (inv_tree cs st HI) Hw) as Hi.
    destruct (wfk_node cs st (inv_keywords cs st HI) i Hi Hid)
      as (k & res & _ & Hres & Hwr).
    exists res. split; [by eapply list_elem_of_lookup_2|].
    by eapply walk_inj; [apply HI|..].
Qed.

Lemma X2_witness :
  (stored false Her_trie "HER" →
   addString false "HER" true Her_trie = (Throws duplicate_keyword, Her_trie))
  ∧
  (¬ stored false Her_trie "HER" →
   ∃ st', addString false "HER" true Her_trie = (Returns tt, st') ∧
          keywords st'
          = keywords Her_trie
            ++ [Result.stub "HER" (Z.of_nat (length (keywords Her_trie)))]).
Proof.
  apply (X2_addString_outcome false Her_trie "HER" true).
  - apply reachable_snd_addString, rtc_refl.
  - by vm_compute.
  - done.
Defined.

(** ** Links lead to suffixes *)

(** X3: in a reachable automaton the failure link and the output link of
    a node other than the root lead to nodes whose words are proper
    suffixes of the word of the node, and the output link leads to the
    root or to a node that carries a keyword identifier. *)
Theorem X3_links_are_suffixes cs st w n :
  reachable cs st → walk st w = Some n → n ≠ root →
  (∃ w', walk st w' = Some (Node.failure (node st n)) ∧
         w' `suffix_of` w ∧ length w' < length w) ∧
  (∃ w', walk st w' = Some (Node.output (node st n)) ∧
         w' `suffix_of` w ∧ length w' < length w) ∧
  (Node.output (node st n) = root ∨
   Node.id (node st (Node.output (node st n))) ≠ (-1)%Z).
Proof.
  intros Hr Hw Hn. pose proof (reachable_Inv cs st Hr) as [Hwf Hl Hs _].
  pose proof (walk_lt _ _ _ Hwf Hw) as Hlt.
  assert (0 < n < size st) as Hpos by (unfold root in *; lia).
  pose proof (depth_walk _ _ _ Hwf Hw) as Hd.
  split_and!.
  - destruct (sl_failure st Hs _ _ Hw) as (w' & Hw' & Hsuf).
    exists w'. split_and!; [done..|].
    pose proof (depth_walk _ _ _ Hwf Hw').
    destruct (wfl_failure st Hl n Hpos). lia.
  - destruct (sl_output st Hs _ _ Hw) as (w' & Hw' & Hsuf).
    exists w'. split_and!; [done..|].
    pose proof (depth_walk _ _ _ Hwf Hw').
    destruct (wfl_output st Hl n Hpos). lia.
  - by apply Hl.
Qed.

Lemma X3_witness :
  (∃ w', walk ushers_trie w'
         = Some (Node.failure (node ushers_trie 9)) ∧
         w' `suffix_of` ["s"; "h"; "e"]%char ∧ length w' < 3) ∧
  (∃ w', walk ushers_trie w'
         = Some (Node.output (node ushers_trie 9)) ∧
         w' `suffix_of` ["s"; "h"; "e"]%char ∧ length w' < 3) ∧
  (Node.output (node ushers_trie 9) = root ∨
   Node.id (node ushers_trie (Node.output (node ushers_trie 9)))
   ≠ (-1)%Z).
Proof.
  apply (X3_links_are_suffixes true ushers_trie ["s"; "h"; "e"]%char 9).
  - apply reachable_ushers_trie.
  - by vm_compute.
  - done.
Defined.

(** ** What later operations keep *)

(** X4: construction operations only add: after any further sequence of
    them the keyword vector has the old one as a prefix, no node has
    gone, every node is still reached by its word and a node that carried
    an identifier carries the same one. *)
Theorem X4_operations_only_add cs st st' :
  reachable cs st → rtc (step cs) st st' →
  keywords st `prefix_of` keywords st' ∧ size st ≤ size st' ∧
  ∀ w n, walk st w = Some n →
    walk st' w = Some n ∧
    (Node.id (node st n) ≠ (-1)%Z →
     Node.id (node st' n) = Node.id (node st n)).
Proof.
  intros Hr Hsteps. pose proof (reachable_Inv cs st Hr) as HI.
  destruct (steps_Inv cs st st' HI Hsteps) as [_ [Hsz Hw Hid Hk]].
  split_and!; [done..|]. intros w n Hwn. split; [by apply Hw | apply Hid].
Qed.

Lemma X4_witness :
  keywords Her_trie
  `prefix_of` keywords (snd (addString false "she" false Her_trie)) ∧
  size Her_trie ≤ size (snd (addString false "she" false Her_trie)) ∧
  ∀ w n, walk Her_trie w = Some n →
    walk (snd (addString false "she" false Her_trie)) w = Some n ∧
    (Node.id (node Her_trie n) ≠ (-1)%Z →
     Node.id (node (snd (addString false "she" false Her_trie)) n)
     = Node.id (node Her_trie n)).
Proof.
  apply (X4_operations_only_add false Her_trie).
  - apply reachable_snd_addString, rtc_refl.
  - eapply rtc_l; [|apply rtc_refl].
    eapply (step_addString _ _ "she" false). apply surjective_pairing.
Defined.

(** ** The records of a scan, in the order of their report *)

Lemma StronglySorted_app_intro {A} (R : A → A → Prop) l1 l2 :
  StronglySorted R l1 → StronglySorted R l2 →
  (∀ a b, a ∈ l1 → b ∈ l2 → R a b) →
  StronglySorted R (l1 ++ l2).
Proof.
  intros H1 H2 H. induction H1 as [|a l1 H1 IH Ha]; simpl; [done|].
  constructor.
  - apply IH. intros x y Hx. apply H. by right.
  - apply Forall_app. split; [done|].
    apply Forall_forall. intros b Hb. apply H; [by left | done].
Qed.

Lemma list_ascii_of_string_app s1 s2 :
  list_ascii_of_string (s1 +:+ s2)
  = list_ascii_of_string s1 ++ list_ascii_of_string s2.
Proof. induction s1 as [|a s1 IH]; simpl; [done | by rewrite IH]. Qed.

(** The loop over the output links only appends records, all with the
    end offset of the current symbol. *)
Lemma outputs_loop_extends st i : ∀ fuel temp Results Results',
  outputs_loop fuel st temp i Results = Returns Results' →
  ∃ New, Results' = Results ++ New ∧ Forall (λ r, Result.end_ r = i) New.
Proof.
  induction fuel as [|fuel IH]; intros temp Results Results'; simpl; [done|].
  destruct (Nat.eqb temp root).
  { intros [= <-]. exists []. by rewrite app_nil_r. }
  destruct (keywords_at st _) as [res|]; [|done].
  intros (New & -> & Hall)%IH. exists (Result.at_pos res i :: New).
  split; [by rewrite <- app_assoc|]. by constructor.
Qed.

Lemma parseText_step cs st ch text i current Results Results' :
  parseText_loop cs st (ch :: text) i current Results = Returns Results' →
  ∃ current' New,
    findChild st current (fold_case cs ch) = Some current' ∧
    Forall (λ r, Result.end_ r = i) New ∧
    parseText_loop cs st text (i + 1) current' (Results ++ New)
    = Returns Results'.
Proof.
  cbn [parseText_loop].
  destruct (findChild st current (fold_case cs ch)) as [current'|]; [|done].
  destruct (if negb _ then _ else _) as [Results1|e|] eqn:E1; [|done..].
  destruct (outputs_loop _ st _ i Results1) as [Results2|e|] eqn:E2;
    [|done..].
  intros Hrest. exists current'.
  apply outputs_loop_extends in E2 as (New2 & -> & Hall2).
  destruct (negb _).
  - destruct (keywords_at st _) as [res|]; [|done]. injection E1 as <-.
    exists (Result.at_pos res i :: New2). split_and!; [done | by constructor|].
    by rewrite <- app_assoc in Hrest.
  - injection E1 as <-. by exists New2.
Qed.

(** The scan only appends records; those of the symbols [text], read from
    the offset [i] on, end at the offsets [i] to [i + length text - 1]. *)
Lemma parseText_loop_extends cs st : ∀ text i current Results Results',
  parseText_loop cs st text i current Results = Returns Results' →
  ∃ New, Results' = Results ++ New ∧
         Forall (λ r, (i ≤ Result.end_ r < i + Z.of_nat (length text))%Z) New.
Proof.
  induction text as [|ch text IH]; intros i current Results Results'.
  { intros [= <-]. exists []. by rewrite app_nil_r. }
  intros (current' & New1 & _ & Hall1 & Hrest)%parseText_step.
  apply IH in Hrest as (New2 & -> & Hall2).
  exists (New1 ++ New2). split; [by rewrite app_assoc|].
  apply Forall_app. split.
  - eapply Forall_impl; [done|]. simpl. intros r ->. lia.
  - eapply Forall_impl; [done|]. simpl. intros r ?. lia.
Qed.

(** The scan of [t1 ++ t2] is the scan of [t1] followed by the scan of
    [t2] from the node and with the records reached after [t1]. *)
Lemma parseText_loop_app cs st t2 : ∀ t1 i current Results Results2,
  parseText_loop cs st (t1 ++ t2) i current Results = Returns Results2 →
  ∃ Results1 current',
    parseText_loop cs st t1 i current Results = Returns Results1 ∧
    scan_state cs st t1 current = Some current' ∧
    parseText_loop cs st t2 (i + Z.of_nat (length t1)) current' Results1
    = Returns Results2.
Proof.
  induction t1 as [|ch t1 IH]; intros i current Results Results2.
  { simpl. intros H. exists Results, current. by rewrite Z.add_0_r. }
  rewrite <- app_comm_cons. cbn [parseText_loop scan_state].
  destruct (findChild st current (fold_case cs ch)) as [current'|]; [|done].
  destruct (if negb _ then _ else _) as [Results0|e|]; [|done..].
  destruct (outputs_loop _ st _ i Results0) as [Results0'|e|]; [|done..].
  intros (Results1 & current'' & H1 & Hstate & H2)%IH.
  exists Results1, current''. split_and!; [done..|].
  rewrite <- H2. f_equal. simpl length. lia.
Qed.

(** X5: the scan reports online.  When [parseText] returns for a text, it
    returns for every prefix of the text, and the result for the prefix
    is the initial part of the result for the text: the records that end
    inside the prefix, before all those that end after it. *)
Theorem X5_scan_of_prefix cs st t1 t2 Results2 :
  parseText cs st (t1 +:+ t2) = Returns Results2 →
  ∃ Results1 New,
    parseText cs st t1 = Returns Results1 ∧
    Results2 = Results1 ++ New ∧
    Forall (λ r, (0 ≤ Result.end_ r < Z.of_nat (String.length t1))%Z)
           Results1 ∧
    Forall (λ r, (Z.of_nat (String.length t1) ≤ Result.end_ r
                  < Z.of_nat (String.length (t1 +:+ t2)))%Z) New.
Proof.
  rewrite !parseText_unfold, list_ascii_of_string_app.
  intros (Results1 & current' & H1 & _ & H2)%parseText_loop_app.
  apply parseText_loop_extends in H1 as H1'. destruct H1' as (New1 & -> & Hall1).
  apply parseText_loop_extends in H2 as (New2 & -> & Hall2).
  exists New1, New2. split_and!; [done | done | |].
  - eapply Forall_impl; [done|]. simpl. intros r.
    rewrite length_list_ascii_of_string. lia.
  - eapply Forall_impl; [done|]. simpl. intros r.
    rewrite <- !length_list_ascii_of_string, list_ascii_of_string_app,
      length_app. lia.
Qed.

Lemma X5_witness :
  ∃ Results1 New,
    parseText true ushers_trie "ush" = Returns Results1 ∧
    [Result.mk "she" 2 1 3; Result.mk "he" 3 2 3; Result.mk "her" 4 2 4;
     Result.mk "hers" 0 2 5] = Results1 ++ New ∧
    Forall (λ r, (0 ≤ Result.end_ r < Z.of_nat (String.length "ush"))%Z)
           Results1 ∧
    Forall (λ r, (Z.of_nat (String.length "ush") ≤ Result.end_ r
                  < Z.of_nat (String.length ("ush" +:+ "ers")))%Z) New.
Proof.
  apply (X5_scan_of_prefix true ushers_trie "ush" "ers"). by vm_compute.
Defined.

Section ScanReport.
Variables (cs : bool) (st : trie).
Hypothesis HI : Inv cs st.
Hypothesis Hkeywords : (Z.of_nat (length (keywords st)) ≤ int_max)%Z.

Lemma reported_at_pos k res i :
  keywords st !! k = Some res → reported st (Result.at_pos res i).
Proof. intros Hres. by exists k, res. Qed.

(** The records appended for the output links of one symbol. *)
Lemma outputs_loop_report i : ∀ fuel Results temp wt,
  walk st wt = Some temp →
  temp = root ∨ Node.id (node st temp) ≠ (-1)%Z →
  (Node.depth (node st temp) < Z.of_nat fuel)%Z →
  ∃ New,
    outputs_loop fuel st temp i Results = Returns (Results ++ New) ∧
    Forall (λ r, reported st r ∧ Result.end_ r = i ∧
                 String.length (Result.keyword r) ≤ length wt) New ∧
    StronglySorted reported_before New.
Proof using HI Hkeywords.
  pose proof HI as [Hwf Hl Hs _].
  induction fuel as [|fuel IH]; intros Results temp wt Hwt Hid Hd.
  { pose proof (depth_nonneg st temp Hwf (walk_lt _ _ _ Hwf Hwt)). lia. }
  simpl. destruct (Nat.eqb_spec temp root) as [->|Hne].
  { exists []. rewrite app_nil_r. split_and!; [done | done | constructor]. }
  destruct Hid as [?|Hid]; [done|].
  destruct (keywords_at_node cs st HI Hkeywords temp wt Hwt Hid)
    as (res & Hres & Hnorm).
  rewrite Hres.
  pose proof (walk_lt _ _ _ Hwf Hwt) as Hlt.
  destruct (sl_output st Hs _ _ Hwt) as (w' & Hw' & Hsuf').
  destruct (wfl_output st Hl temp) as [_ Hod]; [unfold root in *; lia|].
  pose proof (depth_walk _ _ _ Hwf Hwt) as Hdt.
  pose proof (depth_walk _ _ _ Hwf Hw') as Hdo.
  destruct (IH (Results ++ [Result.at_pos res i])
               (Node.output (node st temp)) w')
    as (New & -> & Hall & Hsorted); [done | by apply Hl | lia |].
  assert (String.length (Result.keyword res) = length wt) as Hlen
      by by rewrite <- Hnorm, length_normalize.
  exists (Result.at_pos res i :: New).
  split_and!; [by rewrite <- app_assoc | |].
  - constructor.
    + split_and!; [by eapply reported_at_pos | done | simpl; lia].
    + eapply Forall_impl; [done|]. simpl. intros r (? & ? & ?).
      split_and!; [done..|lia].
  - constructor; [done|].
    eapply Forall_impl; [done|]. simpl. intros r (_ & Hend & Hr).
    right. simpl. split; [done | lia].
Qed.

(** The records appended by the scan of [text] from the offset [i]. *)
Lemma parseText_loop_report : ∀ text i current w Results,
  walk st w = Some current →
  ∃ New,
    parseText_loop cs st text i current Results = Returns (Results ++ New) ∧
    Forall (λ r, reported st r ∧ (i ≤ Result.end_ r)%Z) New ∧
    StronglySorted reported_before New.
Proof using HI Hkeywords.
  pose proof HI as [Hwf Hl Hs _].
  induction text as [|ch text IH]; intros i current w Results Hw.
  { exists []. rewrite app_nil_r. split_and!; [done | done | constructor]. }
  cbn [parseText_loop].
  destruct (findChild_sound cs st HI current w (fold_case cs ch) Hw)
    as (x & wx & -> & Hwx & _).
  pose proof (walk_lt _ _ _ Hwf Hwx) as Hx.
  destruct (sl_output st Hs _ _ Hwx) as (wo & Hwo & Hsufo).
  pose proof (walk_lt _ _ _ Hwf Hwo) as Hlto.
  pose proof (depth_nonneg st _ Hwf Hlto) as Hdo0.
  assert (∀ Results1, ∃ New,
            outputs_loop (S (length (trieNodes st))) st
              (Node.output (node st x)) i Results1
            = Returns (Results1 ++ New) ∧
            Forall (λ r, reported st r ∧ Result.end_ r = i ∧
                         String.length (Result.keyword r) ≤ length wo) New ∧
            StronglySorted reported_before New) as Hout.
  { intros Results1. apply outputs_loop_report; [done | | ].
    - destruct (Nat.eq_dec x root) as [->|Hxr].
      + left. apply walk_root_nil in Hwx as ->; [|done].
        apply suffix_nil_inv in Hsufo as ->. by injection Hwo as <-.
      + apply Hl. unfold root in *; lia.
    - unfold size in *. lia. }
  destruct (Z.eqb_spec (Node.id (node st x)) (-1)) as [Hid|Hid]; cbn [negb].
  - destruct (Hout Results) as (New & -> & Hall & Hsorted).
    destruct (IH (i + 1)%Z x wx (Results ++ New) Hwx)
      as (New' & -> & Hall' & Hsorted').
    exists (New ++ New'). split_and!; [by rewrite app_assoc | |].
    + apply Forall_app. split.
      * eapply Forall_impl; [done|]. simpl. intros r (? & -> & _).
        split; [done | lia].
      * eapply Forall_impl; [done|]. simpl. intros r (? & ?).
        split; [done | lia].
    + apply StronglySorted_app_intro; [done..|].
      intros a b Ha Hb. rewrite Forall_forall in Hall, Hall'.
      destruct (Hall a Ha) as (_ & Hea & _).
      destruct (Hall' b Hb) as (_ & Heb). left. lia.
  - destruct (keywords_at_node cs st HI Hkeywords x wx Hwx Hid)
      as (res & Hres & Hnorm).
    rewrite Hres.
    destruct (Hout (Results ++ [Result.at_pos res i]))
      as (New & -> & Hall & Hsorted).
    destruct (IH (i + 1)%Z x wx ((Results ++ [Result.at_pos res i]) ++ New)
                 Hwx)
      as (New' & -> & Hall' & Hsorted').
    exists ((Result.at_pos res i :: New) ++ New').
    assert (length wo < length wx) as Hshorter.
    { pose proof (depth_walk _ _ _ Hwf Hwx).
      pose proof (depth_walk _ _ _ Hwf Hwo).
      destruct (wfl_output st Hl x) as [_ Hod]; [|lia].
      split; [|done].
      destruct (Nat.eq_dec x root) as [->|]; [|unfold root in *; lia].
      by rewrite (wfk_root cs st (inv_keywords cs st HI)) in Hid. }
    assert (String.length (Result.keyword res) = length wx) as Hlen
        by by rewrite <- Hnorm, length_normalize.
    rewrite Forall_forall in Hall, Hall'.
    split_and!.
    + by rewrite <- !app_assoc.
    + apply Forall_forall. intros r [Hr|Hr]%elem_of_app.
      * apply elem_of_cons in Hr as [->|Hr].
        { split; [by eapply reported_at_pos | simpl; lia]. }
        destruct (Hall r Hr) as (? & -> & _). split; [done | lia].
      * destruct (Hall' r Hr). split; [done | lia].
    + apply StronglySorted_app_intro; [|done|].
      * constructor; [done|]. apply Forall_forall. intros r Hr.
        destruct (Hall r Hr) as (_ & Hend & Hr'). right. simpl.
        split; [done | lia].
      * intros a b Ha Hb. destruct (Hall' b Hb) as (_ & Heb). left.
        apply elem_of_cons in Ha as [->|Ha]; [simpl; lia|].
        destruct (Hall a Ha) as (_ & -> & _). lia.
Qed.

End ScanReport.

Lemma parseText_report cs st text :
  Inv cs st → (Z.of_nat (length (keywords st)) ≤ int_max)%Z →
  ∃ Results, parseText cs st text = Returns Results ∧
             Forall (λ r, reported st r ∧ (0 ≤ Result.end_ r)%Z) Results ∧
             StronglySorted reported_before Results.
Proof.
  intros HI Hkw. rewrite parseText_unfold.
  destruct (parseText_loop_report cs st HI Hkw (list_ascii_of_string text)
              0%Z root [] [] eq_refl) as (New & Hparse & Hall & Hsorted).
  by exists New.
Qed.

Lemma StronglySorted_NoDup {A} (R : A → A → Prop) l :
  (∀ a, ¬ R a a) → StronglySorted R l → NoDup l.
Proof.
  intros Hirr. induction 1 as [|a l Hl IH Ha]; constructor; [|done].
  intros Hin. rewrite Forall_forall in Ha. by apply (Hirr a), Ha.
Qed.

(** X6: on a reachable automaton with at most 2^31 keywords [parseText]
    returns for every text, and every record of the result carries the
    text and the identifier of a stored keyword, the identifier being the
    index of that keyword in the keyword vector; an automaton without
    keywords reports nothing. *)
Theorem X6_records_are_stored_keywords cs st text :
  reachable cs st →
  (Z.of_nat (length (keywords st)) ≤ int_max)%Z →
  ∃ Results, parseText cs st text = Returns Results ∧
    (∀ r, r ∈ Results →
       ∃ k stub, keywords st !! k = Some stub ∧
                 Result.keyword r = Result.keyword stub ∧
                 Result.id r = Z.of_nat k) ∧
    (keywords st = [] → Results = []).
Proof.
  intros Hr Hkw. pose proof (reachable_Inv cs st Hr) as HI.
  destruct (parseText_report cs st text HI Hkw) as (Results & Hp & Hall & _).
  exists Results. rewrite Forall_forall in Hall.
  assert (∀ r, r ∈ Results →
            ∃ k stub, keywords st !! k = Some stub ∧
                      Result.keyword r = Result.keyword stub ∧
                      Result.id r = Z.of_nat k) as Hrec.
  { intros r Hin. destruct (Hall r Hin) as ((k & stub & Hk & Heq) & _).
    exists k, stub. split; [done|]. rewrite Heq. simpl.
    split; [done|]. by apply (wfk_keyword cs st (inv_keywords cs st HI)). }
  split_and!; [done..|].
  intros Hnone. destruct Results as [|r Results]; [done|].
  destruct (Hrec r) as (k & stub & Hk & _); [by left|].
  by rewrite Hnone in Hk.
Qed.

Lemma X6_witness :
  ∃ Results, parseText true ushers_trie "ushers" = Returns Results ∧
    (∀ r, r ∈ Results →
       ∃ k stub, keywords ushers_trie !! k = Some stub ∧
                 Result.keyword r = Result.keyword stub ∧
                 Result.id r = Z.of_nat k) ∧
    (keywords ushers_trie = [] → Results = []).
Proof.
  apply (X6_records_are_stored_keywords true ushers_trie "ushers").
  - apply reachable_ushers_trie.
  - by vm_compute.
Defined.

(** X7: the records of a result are in the order of the end offsets of
    the occurrences, and those with the same end offset in the order of
    strictly decreasing keyword length; no record is reported twice. *)
Theorem X7_report_order cs st text :
  reachable cs st →
  (Z.of_nat (length (keywords st)) ≤ int_max)%Z →
  ∃ Results, parseText cs st text = Returns Results ∧
             StronglySorted reported_before Results ∧ NoDup Results.
Proof.
  intros Hr Hkw. pose proof (reachable_Inv cs st Hr) as HI.
  destruct (parseText_report cs st text HI Hkw) as (Results & Hp & _ & Hs).
  exists Results. split_and!; [done..|].
  apply (StronglySorted_NoDup reported_before); [|done].
  intros a [?|[_ ?]]; lia.
Qed.

Lemma X7_witness :
  ∃ Results, parseText true ushers_trie "ushers" = Returns Results ∧
             StronglySorted reported_before Results ∧ NoDup Results.
Proof.
  apply (X7_report_order true ushers_trie "ushers").
  - apply reachable_ushers_trie.
  - by vm_compute.
Defined.

(** ** A keyword at the start of the text *)

(** When the symbols that follow lead from the current node along tree
    edges to a node with an identifier, the scan reports the keyword of
    that node at the offset of the last of these symbols. *)
Lemma parseText_loop_finds cs st : ∀ text i current wkey n Results Results',
  parseText_loop cs st text i current Results = Returns Results' →
  wkey ≠ [] → wkey `prefix_of` map (fold_case cs) text →
  walk_from st current wkey = Some n →
  Node.id (node st n) ≠ (-1)%Z →
  ∃ res, keywords_at st (Node.id (node st n)) = Some res ∧
         Result.at_pos res (i + Z.of_nat (length wkey) - 1) ∈ Results'.
Proof.
  induction text as [|ch text IH];
    intros i current wkey n Results Results' Hscan Hne Hpre Hwalk Hid.
  { by apply prefix_nil_inv in Hpre. }
  destruct wkey as [|c wkey]; [done|].
  simpl in Hpre. apply prefix_cons_inv_1 in Hpre as Hc.
  apply prefix_cons_inv_2 in Hpre. subst c.
  simpl in Hwalk.
  destruct (child_with st current (fold_case cs ch)) as [q|] eqn:Hq; [|done].
  assert (findChild st current (fold_case cs ch) = Some q) as Hfind
      by (unfold findChild; by rewrite Hq).
  destruct wkey as [|c wkey].
  - injection Hwalk as ->. revert Hscan. cbn [parseText_loop].
    rewrite Hfind.
    destruct (Z.eqb_spec (Node.id (node st n)) (-1)) as [?|_]; [done|].
    cbn [negb].
    destruct (keywords_at st (Node.id (node st n))) as [res|]; [|done].
    destruct (outputs_loop _ st _ i _) as [Results2|e|] eqn:E2; [|done..].
    apply outputs_loop_extends in E2 as (New & -> & _).
    intros (New' & -> & _)%parseText_loop_extends.
    exists res. split; [done|].
    replace (i + Z.of_nat (length [fold_case cs ch]) - 1)%Z with i
      by (simpl; lia).
    rewrite !elem_of_app, list_elem_of_singleton. auto.
  - apply parseText_step in Hscan
      as (current' & New & Hfind' & _ & Hrest).
    rewrite Hfind in Hfind'. injection Hfind' as <-.
    destruct (IH (i + 1)%Z q (c :: wkey) n _ _ Hrest)
      as (res & Hres & Hin); [done..|].
    exists res. split; [done|].
    replace (i + Z.of_nat (length (fold_case cs ch :: c :: wkey)) - 1)%Z
      with (i + 1 + Z.of_nat (length (c :: wkey)) - 1)%Z
      by (simpl length; lia).
    done.
Qed.

(** X8: a text that begins, up to case folding, with a stored keyword
    yields the record of that keyword with the start offset 0 and the
    end offset [length - 1]. *)
Theorem X8_keyword_at_start cs st k stub text :
  reachable cs st →
  (Z.of_nat (length (keywords st)) ≤ int_max)%Z →
  keywords st !! k = Some stub →
  normalize cs (Result.keyword stub) `prefix_of` normalize cs text →
  ∃ Results, parseText cs st text = Returns Results ∧
    Result.mk (Result.keyword stub) (Z.of_nat k) 0
              (Z.of_nat (String.length (Result.keyword stub)) - 1)
    ∈ Results.
Proof.
  intros Hr Hkw Hk Hpre. pose proof (reachable_Inv cs st Hr) as HI.
  destruct (parseText_report cs st text HI Hkw) as (Results & Hp & _).
  exists Results. split; [done|].
  destruct (node_of_keyword cs st k stub HI Hkw Hk)
    as (Hid & Hne & n & Hw & Hn).
  apply lookup_lt_Some in Hk as Hlt.
  rewrite parseText_unfold in Hp.
  destruct (parseText_loop_finds cs st _ _ _
              (normalize cs (Result.keyword stub)) n _ _ Hp)
    as (res & Hres & Hin); [|done|done| |].
  { intros Hnil%(f_equal length). rewrite length_normalize in Hnil.
    by destruct (Result.keyword stub). }
  { rewrite Hn. lia. }
  rewrite Hn in Hres. unfold keywords_at in Hres.
  rewrite to_size_t_small, Nat2Z.id, Hk in Hres
    by (unfold size_t_max, int_max in *; lia).
  injection Hres as <-.
  rewrite length_normalize in Hin. unfold Result.at_pos in Hin.
  rewrite Hid in Hin.
  replace (0 + Z.of_nat (String.length (Result.keyword stub)) - 1
           - Z.of_nat (String.length (Result.keyword stub)) + 1)%Z
    with 0%Z in Hin by lia.
  by rewrite Z.add_0_l in Hin.
Qed.

Lemma X8_witness :
  ∃ Results, parseText true ushers_trie "sheriff" = Returns Results ∧
    Result.mk (Result.keyword (Result.stub "she" 2)) (Z.of_nat 2) 0
              (Z.of_nat (String.length (Result.keyword (Result.stub "she" 2)))
               - 1)
    ∈ Results.
Proof.
  apply (X8_keyword_at_start true ushers_trie 2 (Result.stub "she" 2)
           "sheriff").
  - apply reachable_ushers_trie.
  - by vm_compute.
  - reflexivity.
  - exists ["r"; "i"; "f"; "f"]%char. reflexivity.
Defined.

(** ** The links after the link construction *)

(** The link construction returns and leaves every node that has a word
    in a state that an iteration of the loop on it does not change. *)
Lemma addFailureLinks_stable cs st :
  Inv cs st →
  ∃ st1, addFailureLinks st = (Returns tt, st1) ∧ Inv cs st1 ∧
         same_tree st st1 ∧
         ∀ w n, walk st1 w = Some n → stable st1 n.
Proof.
  intros HI. unfold addFailureLinks.
  destruct (addFailureLinks_loop_inv (bfs_stable cs st) (size st)
              (bfs_stable_bound cs st) (bfs_stable_step cs st)
              (length (trieNodes st)) [] [root] st)
    as (P & st1 & Hloop & [Hinv _ Hst Hcl Hroot]).
  { by apply bfs_stable_init. }
  { unfold size. simpl. lia. }
  exists st1. pose proof Hinv as [HI1 Hsame _ _ _].
  split_and!; [done..|].
  rewrite app_nil_r in Hroot.
  assert (∀ w n, walk st1 w = Some n → n ∈ P) as Hall.
  { induction w as [|ch w IH] using rev_ind; intros n Hw.
    - by injection Hw as <-.
    - apply walk_snoc_inv in Hw as (p & Hp & Hch).
      apply child_with_Some in Hch as [Hch _].
      rewrite (same_children _ _ Hsame) in Hch.
      specialize (Hcl p n (IH p Hp) Hch). by rewrite app_nil_r in Hcl. }
  intros w n Hw. by eapply Hst, Hall.
Qed.

Lemma outputWalk_nearest st : ∀ fuel out r,
  outputWalk fuel st out = Some r → nearest_keyword st out r.
Proof.
  induction fuel as [|fuel IH]; intros out r; simpl; [done|].
  destruct (Nat.eqb_spec out root) as [->|Hne].
  { intros [= <-]. constructor. }
  destruct (Z.eqb_spec (Node.id (node st out)) (-1)) as [Hid|Hid]; simpl.
  - intros H. apply nearest_further; [done..|]. by apply IH.
  - intros [= <-]. by apply nearest_here.
Qed.

Lemma nearest_keyword_unique st n out1 out2 :
  nearest_keyword st n out1 → nearest_keyword st n out2 → out1 = out2.
Proof.
  induction 1 as [|n Hn Hid|n out Hn Hid H IH]; inversion 1; subst;
    try done; by apply IH.
Qed.

(** X9: on a reachable automaton the link construction returns, and in
    the state it leaves the output link of every node that has a word is
    the nearest node with a keyword identifier on the chain of failure
    links that starts at the failure node of the node, and the root when
    that chain has no such node; this determines the output link. *)
Theorem X9_output_links cs st :
  reachable cs st →
  ∃ st1, addFailureLinks st = (Returns tt, st1) ∧
    ∀ w n, walk st1 w = Some n →
      nearest_keyword st1 (Node.failure (node st1 n))
                      (Node.output (node st1 n)) ∧
      ∀ out, nearest_keyword st1 (Node.failure (node st1 n)) out →
             out = Node.output (node st1 n).
Proof.
  intros Hr. pose proof (reachable_Inv cs st Hr) as HI.
  destruct (addFailureLinks_stable cs st HI) as (st1 & Hrun & HI1 & _ & Hst).
  exists st1. split; [done|]. intros w n Hw.
  pose proof (inv_tree cs st1 HI1) as Hwf.
  destruct (stable_inv st1 n Hwf (walk_lt _ _ _ Hwf Hw) (Hst w n Hw))
    as [_ Hout].
  apply outputWalk_nearest in Hout. split; [done|].
  intros out Hout'. by eapply nearest_keyword_unique.
Qed.

Lemma reachable_snd_addStrings_loop cs keyList : ∀ st,
  reachable cs st → reachable cs (snd (addStrings_loop cs keyList st)).
Proof.
  induction keyList as [|key rest IH]; intros st Hr; simpl; [done|].
  pose proof (reachable_snd_addString cs st key false Hr) as Hr'.
  destruct (addString cs key false st) as [[[]|e|] st']; simpl in *; auto.
Qed.

Lemma reachable_ushers_unlinked : reachable true ushers_unlinked.
Proof. apply reachable_snd_addStrings_loop, rtc_refl. Qed.

Lemma addFailureLinks_ushers_unlinked :
  addFailureLinks ushers_unlinked
  = (Returns tt, snd (addFailureLinks ushers_unlinked)).
Proof. by vm_compute. Qed.

(** Before the link construction the node of "she" (node 9) has its
    output link at the root; the construction sets its failure link to
    the node of "he" (node 2), which carries the identifier 3, and its
    output link to that node; the node of "hers" (node 4) fails to the
    node of "s" (node 7), which carries no identifier and fails to the
    root, so its output link is the root. *)
Lemma X9_witness :
  Node.output (node ushers_unlinked 9) = root ∧
  ∃ st1, addFailureLinks ushers_unlinked = (Returns tt, st1) ∧
    walk st1 ["s"; "h"; "e"]%char = Some 9 ∧
    Node.failure (node st1 9) = 2 ∧ Node.id (node st1 2) = 3%Z ∧
    Node.output (node st1 9) = 2 ∧
    (nearest_keyword st1 (Node.failure (node st1 9))
                     (Node.output (node st1 9)) ∧
     ∀ out, nearest_keyword st1 (Node.failure (node st1 9)) out →
            out = Node.output (node st1 9)) ∧
    walk st1 ["h"; "e"; "r"; "s"]%char = Some 4 ∧
    Node.failure (node st1 4) = 7 ∧ Node.id (node st1 7) = (-1)%Z ∧
    Node.output (node st1 4) = root ∧
    (nearest_keyword st1 (Node.failure (node st1 4))
                     (Node.output (node st1 4)) ∧
     ∀ out, nearest_keyword st1 (Node.failure (node st1 4)) out →
            out = Node.output (node st1 4)).
Proof.
  split; [by vm_compute|].
  destruct (X9_output_links true ushers_unlinked reachable_ushers_unlinked)
    as (st1 & Hrun & Hlinks).
  exists st1. split; [exact Hrun|].
  assert (st1 = snd (addFailureLinks ushers_unlinked)) as ->
      by (rewrite Hrun; exact eq_refl).
  clear Hrun.
  split; [by vm_compute|]. split; [by vm_compute|].
  split; [by vm_compute|]. split; [by vm_compute|].
  split; [apply (Hlinks ["s"; "h"; "e"]%char 9); by vm_compute|].
  split; [by vm_compute|]. split; [by vm_compute|].
  split; [by vm_compute|]. split; [by vm_compute|].
  apply (Hlinks ["h"; "e"; "r"; "s"]%char 4). by vm_compute.
Defined.

(** X10: in the state the link construction leaves, when the failure
    node of the parent of a node other than the root has a child with the
    symbol of the node, the failure link of the node leads to that child,
    unless it leads to a node just one level above the node. *)
Theorem X10_failure_links cs st :
  reachable cs st →
  ∃ st1, addFailureLinks st = (Returns tt, st1) ∧
    ∀ w n y, walk st1 w = Some n → n ≠ root →
      child_with st1 (Node.failure (node st1 (Node.parent (node st1 n))))
                 (Node.c (node st1 n)) = Some y →
      Node.failure (node st1 n) = y ∨
      Node.depth (node st1 (Node.failure (node st1 n)))
      = (Node.depth (node st1 n) - 1)%Z.
Proof.
  intros Hr. pose proof (reachable_Inv cs st Hr) as HI.
  destruct (addFailureLinks_stable cs st HI) as (st1 & Hrun & HI1 & _ & Hst).
  exists st1. split; [done|]. intros w n y Hw Hne Hy.
  pose proof (inv_tree cs st1 HI1) as Hwf.
  pose proof (walk_lt _ _ _ Hwf Hw) as Hn.
  destruct (stable_inv st1 n Hwf Hn (Hst w n Hw)) as [Hfix _].
  rewrite relinkFailure_spec, Hy in Hfix by done.
  destruct (Z.ltb_spec (Node.depth (node st1 (Node.failure (node st1 n))))
                       (Node.depth (node st1 n) - 1)) as [Hlt|Hge].
  - left. apply (f_equal (λ s, Node.failure (node s n))) in Hfix.
    by rewrite node_store_eq in Hfix.
  - right.
    destruct (wfl_failure st1 (inv_links cs st1 HI1) n) as [_ Hd];
      [unfold root in *; lia | lia].
Qed.

(** Before the link construction the node of "she" (node 9) fails to the
    root.  Its parent, the node of "sh" (node 8), gets the failure link
    to the node of "h" (node 1), which has the child "he" (node 2) with
    the symbol "e" of node 9: the construction sets the failure link of
    node 9 to node 2. *)
Lemma X10_witness :
  Node.failure (node ushers_unlinked 9) = root ∧
  ∃ st1, addFailureLinks ushers_unlinked = (Returns tt, st1) ∧
    walk st1 ["s"; "h"; "e"]%char = Some 9 ∧
    Node.parent (node st1 9) = 8 ∧ Node.failure (node st1 8) = 1 ∧
    child_with st1 (Node.failure (node st1 (Node.parent (node st1 9))))
               (Node.c (node st1 9)) = Some 2 ∧
    (Node.failure (node st1 9) = 2 ∨
     Node.depth (node st1 (Node.failure (node st1 9)))
     = (Node.depth (node st1 9) - 1)%Z) ∧
    Node.failure (node st1 9) = 2.
Proof.
  split; [by vm_compute|].
  destruct (X10_failure_links true ushers_unlinked reachable_ushers_unlinked)
    as (st1 & Hrun & Hlinks).
  exists st1. split; [exact Hrun|].
  assert (st1 = snd (addFailureLinks ushers_unlinked)) as ->
      by (rewrite Hrun; exact eq_refl).
  clear Hrun.
  split; [by vm_compute|]. split; [by vm_compute|].
  split; [by vm_compute|]. split; [by vm_compute|].
  split; [|by vm_compute].
  apply (Hlinks ["s"; "h"; "e"]%char 9 2);
    [by vm_compute | discriminate | by vm_compute].
Defined.

(** ** The nodes of the trie and the stored keywords *)

Lemma total_length_snoc ks res :
  total_length (ks ++ [res])
  = total_length ks + String.length (Result.keyword res).
Proof.
  unfold total_length. induction ks as [|r ks IH]; simpl; [lia|].
  rewrite IH. lia.
Qed.

Lemma covered_empty cs : covered cs empty_trie.
Proof.
  split.
  - intros n Hn Hne. unfold size, root in *. simpl in *. lia.
  - unfold size. simpl. lia.
Qed.

Lemma covered_same cs st st' :
  same_tree st st' → covered cs st → covered cs st'.
Proof.
  intros Hsame [Hnode Hsize]. split.
  - intros n Hn Hne. rewrite (same_size _ _ Hsame) in Hn.
    destruct (Hnode n Hn Hne) as (w & r & Hw & Hr & Hpre).
    exists w, r. rewrite (walk_same _ _ _ Hsame), (same_keywords _ _ Hsame).
    done.
  - by rewrite (same_size _ _ Hsame), (same_keywords _ _ Hsame).
Qed.

(** The loop of [addString] over the symbols of the key creates at most
    one node per symbol, and every node it creates ends a prefix of the
    word it inserts. *)
Lemma addPath_from_cover cs key : ∀ st cur w0,
  Inv cs st → walk st w0 = Some cur →
  let r := fold_left (λ '(current, s) character,
                        addChild s current (fold_case cs character))
                     key (cur, st) in
  size (snd r) ≤ size st + length key ∧
  ∀ n, size st ≤ n < size (snd r) →
    ∃ w, walk (snd r) w = Some n ∧
         w `prefix_of` w0 ++ map (fold_case cs) key.
Proof.
  induction key as [|ch key IH]; intros st cur w0 HI Hw; simpl.
  { split; lia. }
  pose proof (walk_lt st w0 cur (inv_tree cs st HI) Hw) as Hcur.
  destruct (addChild_Inv cs st cur (fold_case cs ch) HI Hcur)
    as (HI1 & Hext1 & Hchild).
  assert (size (snd (addChild st cur (fold_case cs ch))) ≤ S (size st) ∧
          (size st < size (snd (addChild st cur (fold_case cs ch))) →
           fst (addChild st cur (fold_case cs ch)) = size st)) as [Hsz Hfresh].
  { destruct (child_with st cur (fold_case cs ch)) as [x|] eqn:E.
    - unfold addChild. rewrite E. simpl. split; lia.
    - rewrite (addChild_fresh_size st cur _ Hcur E).
      rewrite (addChild_fresh_fst st cur _ E). split; [lia | done]. }
  destruct (addChild st cur (fold_case cs ch)) as [x st1] eqn:E.
  simpl in *.
  assert (walk st1 (w0 ++ [fold_case cs ch]) = Some x) as Hwx.
  { rewrite walk_snoc, (ext_walk _ _ Hext1 _ _ Hw). done. }
  destruct (IH st1 x (w0 ++ [fold_case cs ch]) HI1 Hwx) as [Hsz2 Hnew].
  destruct (addPath_from_Inv cs key st1 x (w0 ++ [fold_case cs ch]) HI1 Hwx)
    as (_ & Hext2 & _).
  split; [lia|]. intros n Hn.
  rewrite <- app_assoc in Hnew. simpl in Hnew.
  destruct (decide (n < size st1)) as [Hlt|Hge].
  - exists (w0 ++ [fold_case cs ch]). split.
    + apply (ext_walk _ _ Hext2). rewrite Hwx. f_equal.
      rewrite Hfresh by lia. lia.
    + exists (map (fold_case cs) key). by rewrite <- app_assoc.
  - apply Hnew. lia.
Qed.

Lemma addString_covered cs key flag st :
  Inv cs st → covered cs st → covered cs (snd (addString cs key flag st)).
Proof.
  intros HI Hcov. destruct (decide (key = EmptyString)) as [->|Hkey].
  { by rewrite addString_empty. }
  rewrite addString_nonempty by done.
  destruct (addPath_Inv cs st (list_ascii_of_string key) HI)
    as (HI1 & Hext & Hw).
  destruct (addPath_from_cover cs (list_ascii_of_string key) st root [] HI
              eq_refl) as [Hsz Hnew].
  fold (addPath cs st (list_ascii_of_string key)) in Hsz, Hnew.
  destruct (addPath cs st (list_ascii_of_string key)) as [current st1] eqn:E.
  simpl in *. fold (normalize cs key) in Hw, Hnew.
  destruct (Z.eqb_spec (Node.id (node st1 current)) (-1)) as [Hid|Hid]; simpl.
  - assert (covered cs (record_keyword st1 current key)) as Hcov3.
    { pose proof (record_keyword_shape cs st1 current key HI1 Hw Hid)
        as Hshape.
      destruct Hcov as [Hnode Hsize]. split.
      - intros n Hn Hne. rewrite (same_size _ _ Hshape) in Hn.
        rewrite record_keyword_keywords, (ext_keywords _ _ Hext).
        destruct (decide (n < size st)) as [Hold|Hfresh].
        + destruct (Hnode n Hold Hne) as (w & r & Hwn & Hr & Hpre).
          exists w, r. split_and!; [|apply elem_of_app; by left | done].
          rewrite (walk_shape _ _ _ Hshape). by apply (ext_walk _ _ Hext).
        + destruct (Hnew n ltac:(lia)) as (w & Hwn & Hpre).
          exists w, (Result.stub key (Z.of_nat (length (keywords st)))).
          split_and!; [by rewrite (walk_shape _ _ _ Hshape) | | done].
          apply elem_of_app. right. by left.
      - rewrite (same_size _ _ Hshape).
        rewrite record_keyword_keywords, (ext_keywords _ _ Hext).
        rewrite total_length_snoc. simpl.
        rewrite length_list_ascii_of_string in Hsz. lia. }
    destruct flag; [|done].
    assert (Inv cs (record_keyword st1 current key)) as HI3
        by by apply record_keyword_Inv.
    destruct (addFailureLinks_Inv cs _ HI3) as (st4 & -> & _ & Hsame).
    by eapply covered_same.
  - assert (current < size st) as Hcur.
    { destruct (decide (current < size st)); [done|].
      rewrite (ext_id _ _ Hext), node_default_ge in Hid by lia. done. }
    pose proof (ext_walk_inv _ _ Hext _ _ Hw Hcur) as Hw0.
    rewrite (addPath_existing cs st _ current) in E by done.
    by injection E as <-.
Qed.

Lemma addStrings_loop_covered cs keyList : ∀ st,
  Inv cs st → covered cs st →
  covered cs (snd (addStrings_loop cs keyList st)).
Proof.
  induction keyList as [|key keyList IH]; intros st HI Hcov; simpl; [done|].
  pose proof (addString_covered cs key false st HI Hcov) as Hcov1.
  destruct (addString_spec cs key false st HI) as (o & st' & E & HI' & _).
  rewrite E in *. simpl in Hcov1. destruct o; [by apply IH | done..].
Qed.

Lemma addStrings_then_links_covered cs keyList st :
  Inv cs st → covered cs st →
  covered cs (snd (match addStrings_loop cs keyList st with
                   | (Returns _, st') => addFailureLinks st'
                   | r => r
                   end)).
Proof.
  intros HI Hcov.
  pose proof (addStrings_loop_covered cs keyList st HI Hcov) as Hcov1.
  destruct (addStrings_loop_spec cs keyList st HI) as (o & st' & E & HI' & _).
  rewrite E in *. simpl in Hcov1. destruct o; [|done..].
  destruct (addFailureLinks_Inv cs _ HI') as (st4 & -> & _ & Hsame).
  by eapply covered_same.
Qed.

Lemma steps_covered cs st st' :
  Inv cs st → covered cs st → rtc (step cs) st st' → covered cs st'.
Proof.
  intros HI Hcov Hr.
  induction Hr as [st|st0 st1 st2 Hstep _ IH]; [done|].
  apply IH; [by eapply step_Inv|].
  destruct Hstep as [key flag o st' E|keyList o st' E|keyList o st' E].
  - pose proof (addString_covered cs key flag st0 HI Hcov) as H.
    by rewrite E in H.
  - pose proof (addStrings_then_links_covered cs keyList st0 HI Hcov) as H.
    unfold addString_vector in E. by rewrite E in H.
  - pose proof (addStrings_then_links_covered cs
                  (StringSet.elements keyList) st0 HI Hcov) as H.
    unfold addString_set in E. by rewrite E in H.
Qed.

Lemma reachable_covered cs st : reachable cs st → covered cs st.
Proof.
  apply steps_covered; [apply Inv_empty_trie | apply covered_empty].
Qed.

(** X11: the words of a reachable trie are the prefixes of its keywords:
    a non-empty word leads from the root to a node exactly when it begins
    the case-normalized form of a stored keyword.  No node is left over
    from a rejected key. *)
Theorem X11_words_are_keyword_prefixes cs st w :
  reachable cs st → w ≠ [] →
  (is_Some (walk st w) ↔
   ∃ r, r ∈ keywords st ∧ w `prefix_of` normalize cs (Result.keyword r)).
Proof.
  intros Hr Hne. pose proof (reachable_Inv cs st Hr) as HI.
  pose proof (inv_tree cs st HI) as Hwf. split.
  - intros [n Hw].
    assert (n ≠ root) as Hn.
    { intros ->. by apply walk_root_nil in Hw. }
    destruct (cov_node cs st (reachable_covered cs st Hr) n
                (walk_lt _ _ _ Hwf Hw) Hn) as (w' & r & Hw' & Hin & Hpre).
    exists r. split; [done|]. by rewrite (walk_inj st w w' n).
  - intros (r & Hin & k & Hk).
    apply list_elem_of_lookup_1 in Hin as [i Hi].
    destruct (wfk_keyword cs st (inv_keywords cs st HI) i r Hi)
      as (_ & _ & n & Hn & _).
    unfold walk in Hn. rewrite Hk, walk_from_app in Hn.
    unfold walk. by destruct (walk_from st root w).
Qed.

Lemma X11_witness :
  is_Some (walk ushers_trie ["h"; "i"]%char) ↔
  ∃ r, r ∈ keywords ushers_trie ∧
       ["h"; "i"]%char `prefix_of` normalize true (Result.keyword r).
Proof.
  apply (X11_words_are_keyword_prefixes true ushers_trie).
  - apply reachable_ushers_trie.
  - done.
Defined.

(** X12: a reachable trie has at most one node more than the stored
    keywords have symbols, and every node is the end of exactly one
    word. *)
Theorem X12_nodes cs st :
  reachable cs st →
  size st ≤ 1 + total_length (keywords st) ∧
  ∀ n, n < size st →
    ∃ w, walk st w = Some n ∧ ∀ w', walk st w' = Some n → w' = w.
Proof.
  intros Hr. pose proof (reachable_Inv cs st Hr) as HI.
  pose proof (inv_tree cs st HI) as Hwf.
  destruct (reachable_covered cs st Hr) as [Hnode Hsize].
  split; [done|]. intros n Hn.
  assert (∃ w, walk st w = Some n) as [w Hw].
  { destruct (decide (n = root)) as [->|Hne]; [by exists []|].
    destruct (Hnode n Hn Hne) as (w & _ & Hw & _). by exists w. }
  exists w. split; [done|]. intros w' Hw'. by eapply walk_inj.
Qed.

Lemma X12_witness :
  size ushers_trie ≤ 1 + total_length (keywords ushers_trie) ∧
  ∀ n, n < size ushers_trie →
    ∃ w, walk ushers_trie w = Some n ∧
         ∀ w', walk ushers_trie w' = Some n → w' = w.
Proof. apply (X12_nodes true ushers_trie), reachable_ushers_trie. Defined.

(** ** The outcome of a batch *)

Lemma addStrings_loop_outcome cs keyList : ∀ st,
  Inv cs st →
  (∃ st', addStrings_loop cs keyList st = (Returns tt, st')) ∨
  (∃ st' pre key post,
     addStrings_loop cs keyList st = (Throws duplicate_keyword, st') ∧
     keyList = pre ++ key :: post ∧ key ≠ EmptyString ∧
     addStrings_loop cs pre st = (Returns tt, st') ∧ stored cs st' key).
Proof.
  induction keyList as [|key rest IH]; intros st HI; simpl.
  { left. by exists st. }
  destruct (addString_spec cs key false st HI)
    as (o & st1 & E & HI1 & _ & Hres).
  rewrite E.
  destruct Hres as [Hkey|i Hkey Hw Hid|st1 i Hkey _ _ _ _].
  - destruct (IH st HI1) as [?|(st' & pre & k & post & El & -> & ? & Ep & ?)];
      [by left|].
    right. exists st', (key :: pre), k, post.
    split_and!; [done..| |done]. simpl. by rewrite E.
  - right. exists st, [], key, rest. split_and!; [done..|].
    pose proof (inv_tree cs st HI) as Hwf.
    destruct (wfk_node cs st (inv_keywords cs st HI) i
                (walk_lt _ _ _ Hwf Hw) Hid) as (k & r & _ & Hr & Hwr).
    exists r. split; [by eapply list_elem_of_lookup_2|].
    by eapply walk_inj.
  - destruct (IH st1 HI1) as [?|(st' & pre & k & post & El & -> & ? & Ep & ?)];
      [by left|].
    right. exists st', (key :: pre), k, post.
    split_and!; [done..| |done]. simpl. by rewrite E.
Qed.

(** X13: a batch from a vector either returns, and has then appended one
    keyword per non-empty key in the order of the vector, or throws the
    duplicate error at the first key whose case-normalized form is
    already stored.  In that case nothing is rolled back: the automaton
    is left as the loop over the keys before the offending one made it,
    with these keys stored, without the later keys and without a link
    construction. *)
Theorem X13_vector_batch_outcome cs st keyList :
  reachable cs st →
  (∃ st', addString_vector cs keyList st = (Returns tt, st') ∧
          keywords st'
          = keywords st ++ batch_stubs (length (keywords st)) keyList) ∨
  (∃ st' pre key post,
     addString_vector cs keyList st = (Throws duplicate_keyword, st') ∧
     keyList = pre ++ key :: post ∧ key ≠ EmptyString ∧
     stored cs st' key ∧
     addStrings_loop cs pre st = (Returns tt, st') ∧
     keywords st' = keywords st ++ batch_stubs (length (keywords st)) pre).
Proof.
  intros Hr. pose proof (reachable_Inv cs st Hr) as HI.
  unfold addString_vector.
  destruct (addStrings_loop_outcome cs keyList st HI)
    as [[st1 E]|(st' & pre & key & post & E & -> & Hkey & Epre & Hst)].
  - left. rewrite E.
    destruct (addStrings_loop_spec cs keyList st HI)
      as (o & st1' & E' & HI1 & _).
    rewrite E in E'. injection E' as <- <-.
    destruct (addFailureLinks_Inv cs st1 HI1) as (st2 & E2 & _ & Hsame).
    exists st2. split; [done|]. rewrite (same_keywords _ _ Hsame).
    by apply (addStrings_loop_keywords cs).
  - right. rewrite E. exists st', pre, key, post.
    split_and!; [done..|]. by apply (addStrings_loop_keywords cs).
Qed.

Lemma X13_witness :
  (∃ st', addString_vector false ["she"; "HER"; "his"]%string Her_trie
          = (Returns tt, st') ∧
          keywords st'
          = keywords Her_trie
            ++ batch_stubs (length (keywords Her_trie))
                           ["she"; "HER"; "his"]%string) ∨
  (∃ st' pre key post,
     addString_vector false ["she"; "HER"; "his"]%string Her_trie
     = (Throws duplicate_keyword, st') ∧
     ["she"; "HER"; "his"]%string = pre ++ key :: post ∧
     key ≠ EmptyString ∧ stored false st' key ∧
     addStrings_loop false pre Her_trie = (Returns tt, st') ∧
     keywords st'
     = keywords Her_trie ++ batch_stubs (length (keywords Her_trie)) pre).
Proof.
  apply (X13_vector_batch_outcome false Her_trie).
  apply reachable_snd_addString, rtc_refl.
Defined.

(** ** The transition of the scan *)

(** X14: the transition of the scan is total on a reachable automaton:
    the loop of [traverseFail] over the failure links ends, and the node
    that [findChild] returns for a node with the word [w] and a symbol
    has a word that is a suffix of [w] followed by the symbol; it is the
    root or a node entered by an edge with that symbol. *)
Theorem X14_findChild_suffix cs st w current ch :
  reachable cs st → walk st w = Some current →
  ∃ x wx, findChild st current ch = Some x ∧
          walk st wx = Some x ∧ wx `suffix_of` w ++ [ch] ∧
          (x = root ∨ Node.c (node st x) = ch).
Proof.
  intros Hr Hw. pose proof (reachable_Inv cs st Hr) as HI.
  destruct (findChild_sound cs st HI current w ch Hw)
    as (x & wx & Hfind & Hwx & Hsuf).
  exists x, wx. split_and!; [done..|].
  destruct wx as [|a wx _] using rev_ind.
  - left. by injection Hwx as <-.
  - right. apply suffix_snoc_inv_1 in Hsuf as ->.
    apply walk_snoc_inv in Hwx as (p & _ & Hch).
    by apply child_with_Some in Hch as [_ ?].
Qed.

Lemma X14_witness :
  ∃ x wx, findChild ushers_trie 9 "r" = Some x ∧
          walk ushers_trie wx = Some x ∧
          wx `suffix_of` ["s"; "h"; "e"]%char ++ ["r"%char] ∧
          (x = root ∨ Node.c (node ushers_trie x) = "r"%char).
Proof.
  apply (X14_findChild_suffix true ushers_trie ["s"; "h"; "e"]%char 9 "r").
  - apply reachable_ushers_trie.
  - by vm_compute.
Defined.

(** ** The first revision: a rejected key is recorded *)

Lemma trie_cpp_child_with_keywords st ks p ch :
  trie_cpp.child_with (trie_cpp.mk (trie_cpp.trieNodes st) ks) p ch
  = trie_cpp.child_with st p ch.
Proof. done. Qed.

Lemma trie_cpp_path_existing key : ∀ st cur x,
  trie_cpp.walk_from st cur key = Some x →
  fold_left (λ '(current, s) character,
               trie_cpp.findChild s current character true)
            key (cur, st) = (x, st).
Proof.
  induction key as [|ch key IH]; intros st cur x; simpl.
  { by intros [= ->]. }
  destruct (trie_cpp.child_with st cur ch) as [q|] eqn:E; [|done].
  intros Hw. unfold trie_cpp.findChild. rewrite E. by apply IH.
Qed.

Lemma trie_cpp_walk_from_keywords ks w : ∀ st p,
  trie_cpp.walk_from (trie_cpp.mk (trie_cpp.trieNodes st) ks) p w
  = trie_cpp.walk_from st p w.
Proof.
  induction w as [|ch w IH]; intros st p; simpl; [done|].
  rewrite trie_cpp_child_with_keywords.
  destruct (trie_cpp.child_with st p ch); [apply IH | done].
Qed.

(** X15: in the first revision [addString] pushes the key to the keyword
    vector before it looks the key up.  A non-empty key whose path ends
    in a node that carries an identifier is rejected with the duplicate
    error of that revision and no node is changed, but the vector is one
    entry longer after the call: the rejected key is recorded a second
    time. *)
Theorem X15_first_revision_records_rejected_key st key addFailure n :
  key ≠ EmptyString →
  trie_cpp.walk_from st root (list_ascii_of_string key) = Some n →
  trie_cpp.id (trie_cpp.get st n) ≠ (-1)%Z →
  trie_cpp.addString key addFailure st
  = (Throws trie_cpp.duplicate_keyword,
     trie_cpp.mk (trie_cpp.trieNodes st) (trie_cpp.keywords st ++ [key])).
Proof.
  intros Hkey Hw Hid. unfold trie_cpp.addString.
  destruct key as [|a key]; [done|].
  rewrite (trie_cpp_path_existing _ _ root n)
    by by rewrite trie_cpp_walk_from_keywords.
  change (trie_cpp.get (trie_cpp.mk (trie_cpp.trieNodes st) _) n)
    with (trie_cpp.get st n).
  by destruct (Z.eqb_spec (trie_cpp.id (trie_cpp.get st n)) (-1)).
Qed.

Lemma X15_witness :
  trie_cpp.addString "he" true trie_cpp.he_trie
  = (Throws trie_cpp.duplicate_keyword,
     trie_cpp.mk (trie_cpp.trieNodes trie_cpp.he_trie)
                 (trie_cpp.keywords trie_cpp.he_trie ++ ["he"%string])).
Proof.
  apply (X15_first_revision_records_rejected_key trie_cpp.he_trie "he" true
           2).
  - done.
  - by vm_compute.
  - by vm_compute.
Defined.

(** ** Batch insertion and insertion one by one *)

Lemma node_unlink st p : node (unlink st) p = unlink_node (node st p).
Proof.
  unfold node, unlink. simpl.
  destruct (trieNodes st !! p) as [n|] eqn:E.
  - rewrite (list_lookup_total_correct _ _ _ E).
    apply list_lookup_total_correct. by rewrite list_lookup_fmap, E.
  - rewrite !list_lookup_total_alt, list_lookup_fmap, E. done.
Qed.

Lemma size_unlink st : size (unlink st) = size st.
Proof. unfold size, unlink. simpl. by rewrite length_map. Qed.

Lemma child_with_unlink st p ch :
  child_with (unlink st) p ch = child_with st p ch.
Proof.
  unfold child_with. rewrite node_unlink. simpl.
  induction (Node.children (node st p)) as [|x l IH]; simpl; [done|].
  rewrite node_unlink. simpl. by rewrite IH.
Qed.

Lemma unlink_store st p n :
  unlink (store st p n) = store (unlink st) p (unlink_node n).
Proof.
  unfold unlink, store. simpl. f_equal. apply list_fmap_insert.
Qed.

(** A write that changes only the links of a node is not seen. *)
Lemma unlink_store_links st p n :
  unlink_node n = unlink_node (node st p) →
  unlink (store st p n) = unlink st.
Proof.
  intros Hn. rewrite unlink_store, Hn. unfold store, unlink. simpl.
  f_equal. destruct (trieNodes st !! p) as [m|] eqn:E.
  - apply list_insert_id. rewrite list_lookup_fmap, E.
    unfold node. by rewrite (list_lookup_total_correct _ _ _ E).
  - apply list_insert_ge. rewrite length_map.
    by apply lookup_ge_None.
Qed.

Lemma addChild_unlink st current character :
  addChild (unlink st) current character
  = (fst (addChild st current character),
     unlink (snd (addChild st current character))).
Proof.
  unfold addChild. rewrite child_with_unlink.
  destruct (child_with st current character) as [child|]; [done|].
  cbn [fst snd]. rewrite unlink_store.
  assert (length (trieNodes (unlink st)) = length (trieNodes st)) as ->
      by (unfold unlink; simpl; by rewrite length_map).
  assert (mkTrie (trieNodes (unlink st)
                  ++ [Node.mk (-1) (Node.depth (node (unlink st) current) + 1)
                              character current root root []])
                 (keywords (unlink st))
          = unlink (mkTrie
                      (trieNodes st
                       ++ [Node.mk (-1) (Node.depth (node st current) + 1)
                                   character current root root []])
                      (keywords st))) as ->.
  { unfold unlink. cbn [trieNodes keywords]. rewrite map_app.
    change (node (mkTrie (map unlink_node (trieNodes st)) (keywords st)))
      with (node (unlink st)).
    by rewrite node_unlink. }
  by rewrite node_unlink.
Qed.

Lemma addPath_from_unlink cs key : ∀ st cur,
  fold_left (λ '(current, s) character,
               addChild s current (fold_case cs character))
            key (cur, unlink st)
  = (fst (fold_left (λ '(current, s) character,
                       addChild s current (fold_case cs character))
                    key (cur, st)),
     unlink (snd (fold_left (λ '(current, s) character,
                               addChild s current (fold_case cs character))
                            key (cur, st)))).
Proof.
  induction key as [|ch key IH]; intros st cur; simpl; [done|].
  rewrite addChild_unlink.
  destruct (addChild st cur (fold_case cs ch)) as [x st1]. apply IH.
Qed.

Lemma record_keyword_unlink st1 current key :
  record_keyword (unlink st1) current key
  = unlink (record_keyword st1 current key).
Proof.
  unfold record_keyword.
  assert (keywords (unlink st1) = keywords st1) as -> by done.
  rewrite node_unlink.
  unfold unlink, store. cbn [keywords trieNodes]. f_equal.
  by rewrite list_fmap_insert.
Qed.

Lemma relinkFailure_unlink st temp : unlink (relinkFailure st temp) = unlink st.
Proof.
  unfold relinkFailure. destruct (_ <? _)%Z; [|done].
  generalize (Node.children
                (node st (Node.failure (node st (Node.parent (node st temp)))))).
  intros l. revert st. induction l as [|x l IH]; intros st; simpl; [done|].
  rewrite IH. destruct (Ascii.eqb _ _); [|done].
  by apply unlink_store_links.
Qed.

Lemma relink_unlink st temp st' :
  relink st temp = Some st' → unlink st' = unlink st.
Proof.
  unfold relink. destruct (outputWalk _ _ _) as [out|]; [|done].
  intros [= <-]. rewrite unlink_store_links by done.
  apply relinkFailure_unlink.
Qed.

Lemma addFailureLinks_loop_unlink : ∀ fuel q st,
  unlink (snd (addFailureLinks_loop fuel q st)) = unlink st.
Proof.
  induction fuel as [|fuel IH]; intros [|temp rest] st; simpl; try done.
  destruct (relink st temp) as [st'|] eqn:E; [|done].
  rewrite IH. by eapply relink_unlink.
Qed.

Lemma addFailureLinks_unlink st :
  unlink (snd (addFailureLinks st)) = unlink st.
Proof. apply addFailureLinks_loop_unlink. Qed.

Lemma addFailureLinks_loop_no_throw e : ∀ fuel q st,
  fst (addFailureLinks_loop fuel q st) ≠ Throws e.
Proof.
  induction fuel as [|fuel IH]; intros [|temp rest] st; simpl; try done.
  destruct (relink st temp) as [st'|]; [apply IH | done].
Qed.

Lemma addFailureLinks_no_throw st e : fst (addFailureLinks st) ≠ Throws e.
Proof. apply addFailureLinks_loop_no_throw. Qed.

(** The nodes and keywords that [addString] leaves do not depend on the
    links of the trie, nor on the flag. *)
Lemma addString_unlink cs key flag st :
  unlink (snd (addString cs key flag st))
  = snd (addString cs key false (unlink st)).
Proof.
  destruct (decide (key = EmptyString)) as [->|Hkey]; [done|].
  rewrite !addString_nonempty by done. unfold addPath.
  rewrite addPath_from_unlink.
  destruct (fold_left _ _ _) as [current st1]. cbn [fst snd].
  rewrite node_unlink. cbn [unlink_node Node.id].
  destruct (negb _); [done|]. rewrite record_keyword_unlink.
  destruct flag; [|done]. apply addFailureLinks_unlink.
Qed.

Lemma addString_outcome_unlink cs key flag st :
  Inv cs st →
  fst (addString cs key flag st) = fst (addString cs key false (unlink st)).
Proof.
  intros HI. destruct (decide (key = EmptyString)) as [->|Hkey]; [done|].
  destruct (addString_spec cs key flag st HI) as (o & st' & E & _ & _ & Hres).
  rewrite E. cbn [fst]. rewrite addString_nonempty in E by done.
  rewrite addString_nonempty by done. unfold addPath in *.
  rewrite addPath_from_unlink.
  destruct (fold_left _ _ _) as [current st1]. cbn [fst snd].
  rewrite node_unlink. cbn [unlink_node Node.id].
  destruct (negb _); [by injection E as <- _|]. cbn [fst].
  destruct flag; [|by injection E as <- _].
  pose proof (addFailureLinks_no_throw (record_keyword st1 current key)) as H.
  rewrite E in H. cbn [fst] in H.
  destruct Hres; [done | by destruct (H duplicate_keyword) | done].
Qed.

Lemma batch_as_each cs keyList : ∀ a b,
  Inv cs a → Inv cs b → unlink a = unlink b →
  fst (addStrings_loop cs keyList a) = fst (addString_each cs keyList b) ∧
  unlink (snd (addStrings_loop cs keyList a))
  = unlink (snd (addString_each cs keyList b)).
Proof.
  induction keyList as [|key rest IH]; intros a b Ha Hb Hab; simpl; [done|].
  pose proof (addString_unlink cs key false a) as Ua.
  pose proof (addString_unlink cs key true b) as Ub.
  pose proof (addString_outcome_unlink cs key false a Ha) as Oa.
  pose proof (addString_outcome_unlink cs key true b Hb) as Ob.
  rewrite Hab in Ua, Oa. rewrite <- Ub in Ua. rewrite <- Ob in Oa.
  destruct (addString_spec cs key false a Ha) as (oa & a' & Ea & Ha' & _).
  destruct (addString_spec cs key true b Hb) as (ob & b' & Eb & Hb' & _).
  rewrite Ea, Eb in *. cbn [fst snd] in *. subst ob.
  destruct oa; [by apply IH | done..].
Qed.

(** X16: a batch from a vector and the insertion of the same keys one
    call at a time, each with its own link construction, have the same
    outcome and leave the same nodes, identifiers and keywords; the two
    tries can differ in failure and output links only. *)
Theorem X16_batch_as_one_by_one cs st keyList :
  reachable cs st →
  fst (addString_vector cs keyList st) = fst (addString_each cs keyList st) ∧
  unlink (snd (addString_vector cs keyList st))
  = unlink (snd (addString_each cs keyList st)).
Proof.
  intros Hr. pose proof (reachable_Inv cs st Hr) as HI.
  destruct (batch_as_each cs keyList st st HI HI eq_refl) as [Ho Hu].
  unfold addString_vector.
  destruct (addStrings_loop_spec cs keyList st HI) as (o & st1 & E & HI1 & _).
  rewrite E in *. cbn [fst snd] in *.
  destruct o as [[]|e|]; [|done..].
  destruct (addFailureLinks_Inv cs st1 HI1) as (st2 & E2 & _).
  pose proof (addFailureLinks_unlink st1) as Hu2.
  rewrite E2 in *. cbn [fst snd] in *. split; [done | congruence].
Qed.

Lemma X16_witness :
  fst (addString_vector true ushers_keys empty_trie)
  = fst (addString_each true ushers_keys empty_trie) ∧
  unlink (snd (addString_vector true ushers_keys empty_trie))
  = unlink (snd (addString_each true ushers_keys empty_trie)).
Proof. apply (X16_batch_as_one_by_one true empty_trie), rtc_refl. Defined.

(** ** Completeness of the scan when the failure links are exact *)

Lemma suffix_shorter {A} (v w t : list A) :
  v `suffix_of` t → w `suffix_of` t → length v ≤ length w → v `suffix_of` w.
Proof.
  intros Hv Hw Hlen.
  destruct (suffix_weak_total v w t Hv Hw) as [?|Hwv]; [done|].
  by rewrite (suffix_length_eq w v Hwv Hlen).
Qed.

Lemma nearest_chain st a out j :
  nearest_keyword st a out → fail_chain st a j →
  j ≠ root → Node.id (node st j) ≠ (-1)%Z → fail_chain st out j.
Proof.
  intros Hnear. induction Hnear as [|a Ha Hid|a out Ha Hid Hnear IH];
    intros Hchain Hj Hidj; [done..|].
  inversion Hchain; subst; [done|]. by apply IH.
Qed.

Section Complete.
Variables (cs : bool) (st : trie).
Hypothesis HI : Inv cs st.
Hypothesis Hkeywords : (Z.of_nat (length (keywords st)) ≤ int_max)%Z.
Hypothesis Hexact : links_exact st.
Hypothesis Hout : outputs_exact st.

Lemma exact_word n w :
  walk st w = Some n → n ≠ root →
  ∃ w', walk st w' = Some (Node.failure (node st n)) ∧
        w' `suffix_of` w ∧ length w' < length w ∧
        ∀ v j, walk st v = Some j → v `suffix_of` w → length v < length w →
               length v ≤ length w'.
Proof using HI Hexact.
  intros Hw Hn. destruct (Hexact n w Hw Hn) as (w0 & w' & Hw0 & H).
  assert (w0 = w) as -> by (eapply walk_inj; [apply HI | done..]).
  by exists w'.
Qed.

(** The words that are suffixes of the word of a node are the words of
    the nodes on its chain of failure links. *)
Lemma suffix_on_chain : ∀ k w n v j,
  length w ≤ k → walk st w = Some n → walk st v = Some j →
  v `suffix_of` w → fail_chain st n j.
Proof using HI Hexact.
  pose proof (inv_tree cs st HI) as Hwf.
  induction k as [|k IH]; intros w n v j Hk Hw Hv Hsuf.
  { destruct w; [|simpl in Hk; lia]. apply suffix_nil_inv in Hsuf as ->.
    rewrite Hw in Hv. injection Hv as <-. constructor. }
  destruct (decide (length w ≤ length v)) as [Hle|Hlt].
  { rewrite (suffix_length_eq v w Hsuf Hle) in Hv. rewrite Hw in Hv.
    injection Hv as <-. constructor. }
  assert (n ≠ root) as Hn.
  { intros ->. apply walk_root_nil in Hw as ->; [|done]. simpl in Hlt. lia. }
  destruct (exact_word n w Hw Hn) as (w' & Hw' & Hsuf' & Hlen' & Hmax).
  apply fail_chain_next. apply (IH w' _ v j); [lia | done | done |].
  apply (suffix_shorter v w' w); [done..|]. apply (Hmax v j); [done..|lia].
Qed.

(** The loop of [traverseFail] finds the longest suffix. *)
Lemma traverseFail_loop_best t ch : ∀ fuel temp wt,
  walk st wt = Some temp → wt `suffix_of` t →
  (∀ v j, walk st v = Some j → v `suffix_of` t → length wt < length v →
          child_with st j ch = None) →
  (Node.depth (node st temp) < Z.of_nat fuel)%Z →
  ∃ x, traverseFail_loop fuel st temp ch = Some x ∧ best st (t ++ [ch]) x.
Proof using HI Hexact.
  pose proof HI as [Hwf Hl Hs _].
  assert (∀ wt temp,
            walk st wt = Some temp → wt `suffix_of` t →
            (∀ v j, walk st v = Some j → v `suffix_of` t →
                    length wt < length v → child_with st j ch = None) →
            ∀ v j, walk st v = Some j → v `suffix_of` t ++ [ch] →
                   length v ≤ S (length wt)) as Hbound.
  { intros wt temp Hwt Hsuf Hnone v j Hv Hvs.
    destruct v as [|a v _] using rev_ind; [simpl; lia|].
    apply suffix_snoc_inv_1 in Hvs as Ha. subst a.
    apply suffix_snoc_inv_2 in Hvs.
    apply walk_snoc_inv in Hv as (p & Hp & Hch).
    rewrite length_app. simpl.
    destruct (decide (length wt < length v)) as [Hlt|]; [|lia].
    by rewrite (Hnone v p Hp Hvs Hlt) in Hch. }
  induction fuel as [|fuel IH]; intros temp wt Hwt Hsuf Hnone Hd.
  { pose proof (depth_nonneg st temp Hwf (walk_lt _ _ _ Hwf Hwt)). lia. }
  simpl. destruct (Nat.eqb_spec temp root) as [->|Hne].
  - apply walk_root_nil in Hwt as ->; [|done].
    destruct (child_with st root ch) as [rootchild|] eqn:E.
    + exists rootchild. split; [done|]. exists [ch]. split_and!.
      * unfold walk. simpl. by rewrite E.
      * by apply suffix_app_r.
      * intros v j Hv Hvs. by apply (Hbound [] root eq_refl Hsuf Hnone v j).
    + exists root. split; [done|]. exists []. split_and!;
        [done | apply suffix_nil |].
      intros v j Hv Hvs.
      destruct v as [|a v _] using rev_ind; [done|].
      apply suffix_snoc_inv_1 in Hvs as Ha. subst a.
      apply suffix_snoc_inv_2 in Hvs.
      apply walk_snoc_inv in Hv as (p & Hp & Hch).
      destruct (decide (0 < length v)) as [Hlt|Hz].
      * by rewrite (Hnone v p Hp Hvs Hlt) in Hch.
      * destruct v; [|simpl in Hz; lia]. injection Hp as <-.
        by rewrite E in Hch.
  - destruct (child_with st temp ch) as [failchild|] eqn:E.
    + exists failchild. split; [done|]. exists (wt ++ [ch]). split_and!.
      * rewrite walk_snoc, Hwt. done.
      * by apply suffix_app.
      * intros v j Hv Hvs. rewrite length_app. simpl.
        specialize (Hbound wt temp Hwt Hsuf Hnone v j Hv Hvs). lia.
    + destruct (exact_word temp wt Hwt Hne) as (w' & Hw' & Hsuf' & Hlen' & Hmax).
      pose proof (walk_lt _ _ _ Hwf Hwt) as Hlt.
      destruct (wfl_failure st Hl temp) as [_ Hfd]; [unfold root in *; lia|].
      apply (IH _ w'); [done | by etrans | | lia].
      intros v j Hv Hvs Hlv.
      destruct (decide (length wt < length v)) as [?|Hge]; [by eapply Hnone|].
      destruct (decide (length v = length wt)) as [Heq|Hneq].
      * assert (v = wt) as ->.
        { apply suffix_length_eq; [|lia].
          apply (suffix_shorter v wt t); [done..|lia]. }
        rewrite Hwt in Hv. by injection Hv as <-.
      * exfalso.
        assert (length v ≤ length w'); [|lia].
        apply (Hmax v j); [done | | lia].
        apply (suffix_shorter v wt t); [done..|lia].
Qed.

(** [findChild] keeps the scan at the longest suffix of the text read
    that is a word. *)
Lemma findChild_best t current ch :
  best st t current →
  ∃ x, findChild st current ch = Some x ∧ best st (t ++ [ch]) x.
Proof using HI Hexact.
  pose proof HI as [Hwf Hl Hs _].
  intros (w & Hw & Hsuf & Hmax). unfold findChild.
  destruct (child_with st current ch) as [child|] eqn:E.
  - exists child. split; [done|]. exists (w ++ [ch]). split_and!.
    + rewrite walk_snoc, Hw. done.
    + by apply suffix_app.
    + intros v j Hv Hvs. rewrite length_app. simpl.
      destruct v as [|a v _] using rev_ind; [simpl; lia|].
      apply suffix_snoc_inv_2 in Hvs.
      apply walk_snoc_inv in Hv as (p & Hp & _).
      rewrite length_app. simpl. specialize (Hmax v p Hp Hvs). lia.
  - unfold traverseFail.
    assert (∃ w', walk st w' = Some (Node.failure (node st current)) ∧
                  w' `suffix_of` w ∧
                  ∀ v j, walk st v = Some j → v `suffix_of` w →
                         length v < length w → length v ≤ length w')
      as (w' & Hw' & Hsuf' & Hmax').
    { destruct (decide (current = root)) as [->|Hne].
      - apply walk_root_nil in Hw as ->; [|done].
        exists []. rewrite (wfl_root_failure st Hl).
        split_and!; [done..|]. simpl. lia.
      - destruct (exact_word current w Hw Hne) as (w' & ? & ? & _ & ?).
        by exists w'. }
    apply (traverseFail_loop_best t ch _ _ w'); [done | by etrans | |].
    + intros v j Hv Hvs Hlv.
      pose proof (Hmax v j Hv Hvs) as Hle.
      destruct (decide (length v = length w)) as [Heq|Hneq].
      * assert (v = w) as ->.
        { apply suffix_length_eq; [|lia].
          apply (suffix_shorter v w t); [done..|lia]. }
        rewrite Hw in Hv. by injection Hv as <-.
      * exfalso.
        assert (length v ≤ length w'); [|lia].
        apply (Hmax' v j); [done | | lia].
        apply (suffix_shorter v w t); [done..|lia].
    + pose proof (walk_lt _ _ _ Hwf Hw') as Hlt.
      pose proof (depth_nonneg st _ Hwf Hlt). unfold size in *. lia.
Qed.

(** The loop over the output links reports every keyword on the chain
    of failure links of the node it starts from. *)
Lemma outputs_loop_cover i j : ∀ fuel temp wt Results Results',
  outputs_loop fuel st temp i Results = Returns Results' →
  walk st wt = Some temp →
  fail_chain st temp j → j ≠ root → Node.id (node st j) ≠ (-1)%Z →
  ∃ res, keywords_at st (Node.id (node st j)) = Some res ∧
         Result.at_pos res i ∈ Results'.
Proof using HI Hout.
  pose proof HI as [Hwf Hl Hs _].
  induction fuel as [|fuel IH]; intros temp wt Results Results'; simpl;
    [done|].
  intros Hloop Hwt Hchain Hj Hid.
  destruct (Nat.eqb_spec temp root) as [->|Hne].
  { by apply fail_chain_root in Hchain. }
  destruct (keywords_at st (Node.id (node st temp))) as [res0|] eqn:E0;
    [|done].
  destruct (decide (j = temp)) as [->|Hjt].
  - exists res0. split; [done|].
    apply outputs_loop_extends in Hloop as (New & -> & _).
    rewrite !elem_of_app, list_elem_of_singleton. auto.
  - inversion Hchain as [|? ? Hchain']; subst; [done|].
    destruct (sl_output st Hs _ _ Hwt) as (wo & Hwo & _).
    apply (IH _ wo _ _ Hloop); [done | | done..].
    eapply nearest_chain; [by eapply Hout | done..].
Qed.

(** The scan reports every keyword that ends at an offset it has still
    to read. *)
Lemma parseText_loop_complete : ∀ rest pre current Results Results',
  best st (map (fold_case cs) pre) current →
  parseText_loop cs st rest (Z.of_nat (length pre)) current Results
  = Returns Results' →
  ∀ k res i, keywords st !! k = Some res →
    length pre ≤ i < length (pre ++ rest) →
    normalize cs (Result.keyword res)
    `suffix_of` take (S i) (map (fold_case cs) (pre ++ rest)) →
    ∃ m, m ∈ Results' ∧ Result.keyword m = Result.keyword res ∧
         Result.end_ m = Z.of_nat i.
Proof using HI Hkeywords Hexact Hout.
  pose proof HI as [Hwf Hl Hs Hk].
  induction rest as [|ch rest IH];
    intros pre current Results Results' Hbest Hloop k res i Hres Hi Hend.
  { rewrite app_nil_r in Hi. lia. }
  destruct (findChild_best (map (fold_case cs) pre) current (fold_case cs ch)
              Hbest) as (x & Hfind & Hbest').
  assert (pre ++ ch :: rest = (pre ++ [ch]) ++ rest) as Hfull
      by by rewrite <- app_assoc.
  assert (map (fold_case cs) pre ++ [fold_case cs ch]
          = map (fold_case cs) (pre ++ [ch])) as Hmap
      by by rewrite map_app.
  rewrite Hmap in Hbest'.
  destruct (decide (i = length pre)) as [->|Hlater].
  - (* the keyword ends at the symbol read now *)
    assert (take (S (length pre)) (map (fold_case cs) (pre ++ ch :: rest))
            = map (fold_case cs) (pre ++ [ch])) as Htake.
    { rewrite Hfull, map_app, take_app_length'; [done|].
      rewrite length_map, length_app. simpl. lia. }
    rewrite Htake in Hend.
    destruct (node_of_keyword cs st k res HI Hkeywords Hres)
      as (_ & _ & j & Hj & Hidj).
    apply lookup_lt_Some in Hres as Hklt.
    destruct Hbest' as (wx & Hwx & Hsufx & Hmaxx).
    assert (fail_chain st x j) as Hchain.
    { apply (suffix_on_chain (length wx) wx x
               (normalize cs (Result.keyword res)) j); [done..|].
      apply (suffix_shorter _ wx (map (fold_case cs) (pre ++ [ch])));
        [done..|]. by eapply Hmaxx. }
    assert (j ≠ root) as Hjr.
    { intros ->. rewrite (wfk_root cs st Hk) in Hidj. lia. }
    assert (Node.id (node st j) ≠ (-1)%Z) as Hidj' by lia.
    assert (∃ res', keywords_at st (Node.id (node st j)) = Some res' ∧
                    Result.at_pos res' (Z.of_nat (length pre)) ∈ Results')
      as (res' & Hres' & Hin).
    { revert Hloop. cbn [parseText_loop]. rewrite Hfind.
      destruct (decide (j = x)) as [->|Hjx].
      - destruct (Z.eqb_spec (Node.id (node st x)) (-1)) as [?|_]; [done|].
        cbn [negb].
        destruct (keywords_at st (Node.id (node st x))) as [r0|]; [|done].
        destruct (outputs_loop _ st _ _ _) as [Results2|e|] eqn:E2;
          [|done..].
        apply outputs_loop_extends in E2 as (New & -> & _).
        intros (New' & -> & _)%parseText_loop_extends.
        exists r0. split; [done|].
        rewrite !elem_of_app, list_elem_of_singleton. auto.
      - destruct (if negb _ then _ else _) as [Results1|e|]; [|done..].
        destruct (outputs_loop _ st _ _ Results1) as [Results2|e|] eqn:E2;
          [|done..].
        intros (New' & -> & _)%parseText_loop_extends.
        destruct (sl_output st Hs _ _ Hwx) as (wo & Hwo & _).
        destruct (outputs_loop_cover _ j _ _ wo _ _ E2 Hwo)
          as (r0 & Hr0 & Hin0); [|done..|].
        + inversion Hchain as [|? ? Hchain']; subst; [done|].
          eapply nearest_chain; [by eapply Hout | done..].
        + exists r0. split; [done|]. apply elem_of_app. by left. }
    rewrite Hidj in Hres'. unfold keywords_at in Hres'.
    rewrite to_size_t_small, Nat2Z.id, Hres in Hres'
      by (unfold size_t_max, int_max in *; lia).
    injection Hres' as <-.
    by exists (Result.at_pos res (Z.of_nat (length pre))).
  - (* the keyword ends later *)
    apply parseText_step in Hloop as (current' & New & Hfind' & _ & Hrest).
    rewrite Hfind in Hfind'. injection Hfind' as <-.
    replace (Z.of_nat (length pre) + 1)%Z
      with (Z.of_nat (length (pre ++ [ch]))) in Hrest
      by (rewrite length_app; simpl; lia).
    rewrite Hfull in Hi, Hend.
    apply (IH (pre ++ [ch]) x _ _ Hbest' Hrest k res i Hres); [|done].
    rewrite !length_app in *. simpl in *. lia.
Qed.

End Complete.

Lemma scan_complete_of_exact cs st text :
  Inv cs st → (Z.of_nat (length (keywords st)) ≤ int_max)%Z →
  links_exact st → outputs_exact st → scan_complete cs st text.
Proof.
  intros HI Hkw Hexact Hout.
  destruct (parseText_report cs st text HI Hkw) as (Results & Hp & _).
  exists Results. split; [done|]. intros k res i Hres [Hi Hend].
  rewrite parseText_unfold in Hp.
  assert (best st (map (fold_case cs) []) root) as Hbest.
  { exists []. split_and!; [done..|]. by intros v j _ ->%suffix_nil_inv. }
  apply (parseText_loop_complete cs st HI Hkw Hexact Hout
           (list_ascii_of_string text) [] root [] Results Hbest Hp k res i
           Hres); [|done].
  simpl. rewrite length_list_ascii_of_string. lia.
Qed.

(** The state that the link construction leaves. *)
Lemma addFailureLinks_result cs st st1 :
  Inv cs st → addFailureLinks st = (Returns tt, st1) →
  Inv cs st1 ∧ same_tree st st1 ∧ outputs_exact st1 ∧
  ∀ w n, walk st1 w = Some n → stable st1 n.
Proof.
  intros HI Hrun.
  destruct (addFailureLinks_stable cs st HI) as (st1' & E & HI1 & Hsame & Hst).
  rewrite Hrun in E. injection E as <-. split_and!; [done..| |done].
  intros n w Hw. pose proof (inv_tree cs st1 HI1) as Hwf.
  destruct (stable_inv st1 n Hwf (walk_lt _ _ _ Hwf Hw) (Hst w n Hw))
    as [_ Ho].
  by apply outputWalk_nearest in Ho.
Qed.

(** X17: the scan is complete whenever the failure links are exact.  If
    in the state that a link construction leaves every failure link
    leads to the longest proper suffix of the word of its node that is a
    word of the trie, then [parseText] reports every stored keyword at
    every offset where it ends in the text: the search of [findChild]
    and [traverseFail], the output links and the loop of [parseText]
    lose no match. *)
Theorem X17_exact_links_complete_scan cs st st1 text :
  reachable cs st →
  (Z.of_nat (length (keywords st)) ≤ int_max)%Z →
  addFailureLinks st = (Returns tt, st1) →
  links_exact st1 →
  scan_complete cs st1 text.
Proof.
  intros Hr Hkw Hrun Hexact. pose proof (reachable_Inv cs st Hr) as HI.
  destruct (addFailureLinks_result cs st st1 HI Hrun)
    as (HI1 & Hsame & Hout & _).
  apply scan_complete_of_exact; [done | | done..].
  by rewrite (same_keywords _ _ Hsame).
Qed.

Lemma stable_failure st n y :
  wf_tree st → n < size st → stable st n →
  child_with st (Node.failure (node st (Node.parent (node st n))))
             (Node.c (node st n)) = Some y →
  Node.failure (node st n) = y ∨
  (Node.depth (node st n) - 1
   ≤ Node.depth (node st (Node.failure (node st n))))%Z.
Proof.
  intros Hwf Hn Hst Hy. destruct (stable_inv st n Hwf Hn Hst) as [Hfix _].
  rewrite relinkFailure_spec, Hy in Hfix by done.
  destruct (Z.ltb_spec (Node.depth (node st (Node.failure (node st n))))
                       (Node.depth (node st n) - 1)) as [Hlt|Hge];
    [left | by right].
  apply (f_equal (λ s, Node.failure (node s n))) in Hfix.
  by rewrite node_store_eq in Hfix.
Qed.

(** With words of at most two symbols the failure links that the link
    construction leaves are exact. *)
Lemma short_links_exact cs st :
  Inv cs st →
  (∀ w n, walk st w = Some n → length w ≤ 2) →
  (∀ w n, walk st w = Some n → stable st n) →
  links_exact st.
Proof.
  intros HI Hshort Hst n w Hw Hn. pose proof HI as [Hwf Hl Hs _].
  pose proof (walk_lt _ _ _ Hwf Hw) as Hlt.
  assert (0 < n < size st) as Hpos by (unfold root in *; lia).
  destruct (sl_failure st Hs _ _ Hw) as (wf & Hwf' & Hsuf).
  destruct (wfl_failure st Hl n Hpos) as [Hflt Hfd].
  pose proof (depth_walk _ _ _ Hwf Hw) as Hd.
  pose proof (depth_walk _ _ _ Hwf Hwf') as Hdf.
  exists w, wf. split_and!; [done..|lia|].
  intros v j Hv Hvs Hlv.
  destruct v as [|b v _] using rev_ind; [simpl; lia|].
  rewrite length_app in *. simpl in *.
  pose proof (Hshort w n Hw) as Hw2.
  destruct v; [|simpl in *; lia]. simpl in *.
  destruct w as [|b' w _] using rev_ind; [simpl in *; lia|].
  rewrite length_app in *. simpl in *.
  apply (suffix_snoc_inv_1 b b' [] w) in Hvs as Hb. subst b'.
  apply walk_snoc_parent in Hw as Hpar; [|done].
  destruct Hpar as (_ & Hc & Hp).
  pose proof (walk_lt _ _ _ Hwf Hp) as Hplt.
  pose proof (depth_walk _ _ _ Hwf Hp) as Hdp.
  assert (Node.failure (node st (Node.parent (node st n))) = root) as Hfp.
  { destruct (decide (Node.parent (node st n) = root)) as [->|Hpr].
    - apply Hl.
    - destruct (wfl_failure st Hl (Node.parent (node st n))) as [Hflt' Hfd'];
        [unfold root in *; lia|].
      destruct (decide (Node.failure (node st (Node.parent (node st n)))
                        = root)) as [?|Hfr]; [done|].
      assert (0 < Node.failure (node st (Node.parent (node st n)))
              < size st) as Hfpos by (unfold root in *; lia).
      pose proof (depth_pos st _ Hwf Hfpos). lia. }
  assert (child_with st (Node.failure (node st (Node.parent (node st n))))
                     (Node.c (node st n)) = Some j) as Hy.
  { rewrite Hfp, Hc. unfold walk in Hv. simpl in Hv.
    by destruct (child_with st root b). }
  pose proof (depth_walk _ _ _ Hwf Hv) as Hdj. simpl in Hdj.
  destruct (stable_failure st n j Hwf Hlt (Hst _ _ Hw) Hy) as [Hfj|Hge].
  - rewrite Hfj in Hdf. lia.
  - lia.
Qed.

(** X18: an automaton whose keywords have at most two symbols finds
    every occurrence.  In the state that a link construction leaves,
    every failure link then leads to the longest proper suffix that is a
    word of the trie, and [parseText] reports every stored keyword at
    every offset where it ends in the text. *)
Theorem X18_short_keywords_complete cs st st1 text :
  reachable cs st →
  (Z.of_nat (length (keywords st)) ≤ int_max)%Z →
  (∀ r, r ∈ keywords st → String.length (Result.keyword r) ≤ 2) →
  addFailureLinks st = (Returns tt, st1) →
  links_exact st1 ∧ scan_complete cs st1 text.
Proof.
  intros Hr Hkw Hshort Hrun. pose proof (reachable_Inv cs st Hr) as HI.
  destruct (addFailureLinks_result cs st st1 HI Hrun)
    as (HI1 & Hsame & Hout & Hst).
  pose proof (covered_same cs st st1 Hsame (reachable_covered cs st Hr))
    as [Hnode _].
  pose proof (inv_tree cs st1 HI1) as Hwf.
  assert (links_exact st1) as Hexact.
  { apply (short_links_exact cs); [done | | done].
    intros w n Hw. destruct (decide (n = root)) as [->|Hn].
    { apply walk_root_nil in Hw as ->; [simpl; lia | done]. }
    destruct (Hnode n (walk_lt _ _ _ Hwf Hw) Hn)
      as (w' & r & Hw' & Hin & Hpre).
    rewrite (walk_inj st1 w w' n Hwf Hw Hw').
    rewrite (same_keywords _ _ Hsame) in Hin.
    apply prefix_length in Hpre. rewrite length_normalize in Hpre.
    specialize (Hshort r Hin). lia. }
  split; [done|].
  apply scan_complete_of_exact; [done | | done..].
  by rewrite (same_keywords _ _ Hsame).
Qed.

Lemma he_e_trie_reachable : reachable true he_e_trie.
Proof. apply reachable_snd_addString, reachable_snd_addString, rtc_refl. Qed.

Lemma he_e_trie_keywords :
  keywords he_e_trie = [Result.stub "he" 0; Result.stub "e" 1].
Proof. by vm_compute. Qed.

Lemma he_e_trie_short r :
  r ∈ keywords he_e_trie → String.length (Result.keyword r) ≤ 2.
Proof.
  rewrite he_e_trie_keywords.
  intros [->|[->|[]%elem_of_nil]%elem_of_cons]%elem_of_cons; simpl; lia.
Qed.

Lemma X18_witness :
  links_exact (snd (addFailureLinks he_e_trie)) ∧
  scan_complete true (snd (addFailureLinks he_e_trie)) "she".
Proof.
  apply (X18_short_keywords_complete true he_e_trie).
  - apply he_e_trie_reachable.
  - by vm_compute.
  - apply he_e_trie_short.
  - by vm_compute.
Defined.

Lemma X17_witness :
  scan_complete true (snd (addFailureLinks he_e_trie)) "she".
Proof.
  apply (X17_exact_links_complete_scan true he_e_trie).
  - apply he_e_trie_reachable.
  - by vm_compute.
  - by vm_compute.
  - destruct (addFailureLinks_result true he_e_trie
                (snd (addFailureLinks he_e_trie))
                (reachable_Inv _ _ he_e_trie_reachable))
      as (HI1 & Hsame & _ & Hst); [by vm_compute|].
    pose proof (covered_same true _ _ Hsame
                  (reachable_covered true _ he_e_trie_reachable))
      as [Hnode _].
    apply (short_links_exact true); [done | | done].
    intros w n Hw. destruct (decide (n = root)) as [->|Hn].
    { apply walk_root_nil in Hw as ->; [simpl; lia | apply HI1]. }
    destruct (Hnode n (walk_lt _ _ _ (inv_tree _ _ HI1) Hw) Hn)
      as (w' & r & Hw' & Hin & Hpre).
    rewrite (walk_inj _ w w' n (inv_tree _ _ HI1) Hw Hw').
    rewrite (same_keywords _ _ Hsame) in Hin.
    apply prefix_length in Hpre. rewrite length_normalize in Hpre.
    pose proof (he_e_trie_short r Hin). lia.
Defined.

(** ** The revision with a run-time flag and the current header *)

Lemma tolower_idem ch : tolower (tolower ch) = tolower ch.
Proof.
  unfold tolower.
  destruct ((65 <=? N_of_ascii ch) && (N_of_ascii ch <=? 90))%N eqn:E;
    [|by rewrite E].
  apply andb_true_iff in E as [Hlo Hhi].
  apply N.leb_le in Hlo. apply N.leb_le in Hhi.
  rewrite N_ascii_embedding by lia.
  destruct ((65 <=? N_of_ascii ch + 32)
            && (N_of_ascii ch + 32 <=? 90))%N eqn:E'; [|done].
  apply andb_true_iff in E' as [_ H]. apply N.leb_le in H. lia.
Qed.

Lemma find_ext_in {A} (f g : A → bool) l :
  (∀ x, x ∈ l → f x = g x) → find f l = find g l.
Proof.
  induction l as [|a l IH]; intros H; simpl; [done|].
  rewrite (H a) by by left. destruct (g a); [done|].
  apply IH. intros x Hx. apply H. by right.
Qed.

(** The trie of a case-insensitive automaton holds folded symbols. *)
Lemma reachable_lowercase st : reachable false st → lowercase st.
Proof.
  intros Hr i Hi. pose proof (reachable_Inv _ _ Hr) as HI.
  pose proof (inv_tree _ _ HI) as Hwf.
  destruct (cov_node _ _ (reachable_covered _ _ Hr) i) as
    (w & r & Hw & _ & Hpre); [lia | unfold root; lia |].
  destruct w as [|a w _] using rev_ind.
  { injection Hw as <-. unfold root in *. lia. }
  apply walk_snoc_parent in Hw as (_ & -> & _); [|done].
  assert (a ∈ normalize false (Result.keyword r)) as Ha.
  { destruct Hpre as [k ->]. rewrite !elem_of_app, list_elem_of_singleton.
    auto. }
  unfold normalize in Ha. apply list_elem_of_fmap in Ha as (a' & -> & _).
  apply tolower_idem.
Qed.

Lemma findChild_add_addChild cs st current character :
  Inv cs st → current < size st → (cs = false → lowercase st) →
  basic_trie.findChild_add cs st current character
  = addChild st current (fold_case cs character).
Proof.
  intros HI Hcur Hlow. unfold basic_trie.findChild_add, addChild, child_with.
  assert (find (λ child,
                  if cs
                  then Ascii.eqb (Node.c (node st child)) character
                  else Ascii.eqb (tolower (Node.c (node st child)))
                                 (tolower character))
               (Node.children (node st current))
          = find (λ child,
                    Ascii.eqb (Node.c (node st child)) (fold_case cs character))
                 (Node.children (node st current))) as ->.
  { apply find_ext_in. intros x Hx. destruct cs; [done|].
    rewrite Hlow; [done.. | ].
    by apply (wf_children st (inv_tree _ _ HI) current x). }
  destruct (find _ _); [done|]. by destruct cs.
Qed.

Lemma addChild_lowercase st current character :
  Inv false st → current < size st → lowercase st →
  lowercase (snd (addChild st current (tolower character))).
Proof.
  intros HI Hcur Hlow.
  destruct (child_with st current (tolower character)) as [x|] eqn:E.
  { unfold addChild. by rewrite E. }
  intros i. rewrite (addChild_fresh_size st current _ Hcur E). intros Hi.
  destruct (decide (i = size st)) as [->|Hne].
  - rewrite (addChild_fresh_node st current _ Hcur E).
    rewrite decide_False by lia. rewrite decide_True by done.
    apply tolower_idem.
  - destruct (addChild_fresh_old st current _ Hcur E i Hne) as (_ & -> & _).
    apply Hlow. lia.
Qed.

Lemma findChild_add_fold cs key : ∀ st cur w0,
  Inv cs st → walk st w0 = Some cur → (cs = false → lowercase st) →
  fold_left (λ '(current, s) character,
               basic_trie.findChild_add cs s current character)
            key (cur, st)
  = fold_left (λ '(current, s) character,
                 addChild s current (fold_case cs character))
              key (cur, st).
Proof.
  induction key as [|ch key IH]; intros st cur w0 HI Hw Hlow; simpl; [done|].
  pose proof (walk_lt st w0 cur (inv_tree cs st HI) Hw) as Hcur.
  rewrite findChild_add_addChild by done.
  destruct (addChild_Inv cs st cur (fold_case cs ch) HI Hcur)
    as (HI1 & Hext1 & Hchild).
  assert (cs = false →
          lowercase (snd (addChild st cur (fold_case cs ch)))) as Hlow1.
  { intros ->. by apply addChild_lowercase; [| |apply Hlow]. }
  destruct (addChild st cur (fold_case cs ch)) as [x st1].
  cbn [fst snd] in *.
  apply (IH st1 x (w0 ++ [fold_case cs ch])); [done | | done].
  rewrite walk_snoc, (ext_walk _ _ Hext1 _ _ Hw). done.
Qed.

(** X19: the revision with the run-time flag [caseSensitive] inserts a
    keyword as the current header does: on every trie that the current
    automaton can reach, with fewer than 2^31 keywords, [addString] of
    the older revision, with its flag set to the template argument, has
    the outcome and leaves the nodes and keywords of [addString] of the
    current header. *)
Theorem X19_flag_revision_addString cs st key addFailure :
  reachable cs st →
  (Z.of_nat (length (keywords st)) < int_max)%Z →
  basic_trie.addString key addFailure (basic_trie.mk st cs)
  = (fst (addString cs key addFailure st),
     basic_trie.mk (snd (addString cs key addFailure st)) cs).
Proof.
  intros Hr Hkw. pose proof (reachable_Inv cs st Hr) as HI.
  destruct (decide (key = EmptyString)) as [->|Hkey]; [done|].
  rewrite addString_nonempty by done.
  unfold basic_trie.addString. destruct key as [|a key]; [done|].
  cbn [basic_trie.caseSensitive basic_trie.nodes].
  rewrite (findChild_add_fold cs _ st root []); [|done|done|].
  2:{ intros ->. by apply reachable_lowercase. }
  destruct (addPath_Inv cs st (list_ascii_of_string (String a key)) HI)
    as (_ & Hext & _).
  unfold addPath in *.
  destruct (fold_left _ _ _) as [current st1]. cbn [fst snd] in *.
  destruct (negb _); [done|].
  assert (Z.of_nat (length (keywords st1)) < int_max)%Z as Hkw1
      by by rewrite (ext_keywords _ _ Hext).
  unfold record_keyword. cbv zeta.
  rewrite !(to_int_small (Z.of_nat (length (keywords st1)))) by lia.
  destruct addFailure; [|done].
  by destruct (addFailureLinks _).
Qed.

Lemma X19_witness :
  basic_trie.addString "she" true (basic_trie.mk Her_trie false)
  = (fst (addString false "she" true Her_trie),
     basic_trie.mk (snd (addString false "she" true Her_trie)) false).
Proof.
  apply (X19_flag_revision_addString false Her_trie "she" true).
  - apply reachable_snd_addString, rtc_refl.
  - by vm_compute.
Defined.

Lemma traverseFail_loop_revisions st ch :
  wf_tree st →
  ∀ fuel temp,
    traverseFail_loop fuel st temp ch
    = basic_trie_scan.root_step st ch
        <$> basic_trie_scan.traverseFail_loop fuel st temp ch.
Proof.
  intros Hwf. induction fuel as [|fuel IH]; intros temp; simpl; [done|].
  destruct (Nat.eqb_spec temp root) as [->|Hne]; [done|].
  destruct (child_with st temp ch) as [failchild|] eqn:E; [|apply IH].
  simpl. unfold basic_trie_scan.root_step.
  apply child_with_Some in E as [Hin _].
  pose proof (children_in_bounds _ _ _ Hin) as Htemp.
  destruct (wf_children st Hwf temp failchild Htemp Hin) as [Hpos _].
  destruct (Nat.eqb_spec failchild root) as [->|]; [|done].
  unfold root in *. lia.
Qed.

(** X20: the current [traverseFail] is the one of the 2016 revision
    followed by one more step at the root.  On a reachable trie both
    loops end; where the older revision returns a node other than the
    root, the current header returns that node, and where the older
    revision returns the root, the current header returns the child of
    the root for the symbol, and the root only when there is no such
    child. *)
Theorem X20_traverseFail_revisions cs st w current ch :
  reachable cs st → walk st w = Some current →
  ∃ x, basic_trie_scan.traverseFail st current ch = Some x ∧
       traverseFail st current ch
       = Some (basic_trie_scan.root_step st ch x).
Proof.
  intros Hr Hw. pose proof (reachable_Inv cs st Hr) as HI.
  pose proof HI as [Hwf Hl Hs _].
  destruct (sl_failure st Hs _ _ Hw) as (w' & Hw' & Hsuf).
  destruct (traverseFail_loop_sound cs st HI ch w
              (S (length (trieNodes st))) _ w' Hw' Hsuf)
    as (y & _ & Hy & _).
  { pose proof (walk_lt _ _ _ Hwf Hw') as Hlt.
    pose proof (depth_nonneg st _ Hwf Hlt). unfold size in *. lia. }
  unfold traverseFail, basic_trie_scan.traverseFail in *.
  rewrite traverseFail_loop_revisions in Hy |- * by done.
  destruct (basic_trie_scan.traverseFail_loop _ st _ ch) as [x|]; [|done].
  by exists x.
Qed.

Lemma X20_witness :
  ∃ x, basic_trie_scan.traverseFail ushers_trie 9 "s" = Some x ∧
       traverseFail ushers_trie 9 "s"
       = Some (basic_trie_scan.root_step ushers_trie "s" x).
Proof.
  apply (X20_traverseFail_revisions true ushers_trie ["s"; "h"; "e"]%char).
  - apply reachable_ushers_trie.
  - by vm_compute.
Defined.

(** ** Keywords that do not overlap *)

(** X21: when no non-empty word of the trie is a proper suffix of
    another word of the trie, the scan is complete in every reachable
    state, also in one left by [addString(key, false)] without link
    construction: all failure and output links lead to the root, which
    is then exact. *)
Theorem X21_no_overlap_complete cs st text :
  reachable cs st →
  (Z.of_nat (length (keywords st)) ≤ int_max)%Z →
  (∀ v w j n, walk st v = Some j → walk st w = Some n →
              v `suffix_of` w → length v < length w → v = []) →
  scan_complete cs st text.
Proof.
  intros Hr Hkw Hfree. pose proof (reachable_Inv cs st Hr) as HI.
  pose proof HI as [Hwf Hl Hs _].
  assert (∀ n w, walk st w = Some n → n ≠ root →
            Node.failure (node st n) = root ∧
            Node.output (node st n) = root) as Hroot.
  { intros n w Hw Hn. pose proof (walk_lt _ _ _ Hwf Hw) as Hlt.
    assert (0 < n < size st) as Hpos by (unfold root in *; lia).
    pose proof (depth_walk _ _ _ Hwf Hw) as Hd.
    destruct (sl_failure st Hs _ _ Hw) as (wf & Hwf' & Hsuf).
    destruct (sl_output st Hs _ _ Hw) as (wo & Hwo & Hsufo).
    pose proof (depth_walk _ _ _ Hwf Hwf') as Hdf.
    pose proof (depth_walk _ _ _ Hwf Hwo) as Hdo.
    destruct (wfl_failure st Hl n Hpos) as [_ Hfd].
    destruct (wfl_output st Hl n Hpos) as [_ Hod].
    rewrite (Hfree wf w _ n Hwf' Hw Hsuf) in Hwf' by lia.
    rewrite (Hfree wo w _ n Hwo Hw Hsufo) in Hwo by lia.
    injection Hwf' as <-. injection Hwo as <-. done. }
  apply scan_complete_of_exact; [done..| |].
  - intros n w Hw Hn. destruct (Hroot n w Hw Hn) as [-> _].
    exists w, []. split_and!; [done | done | apply suffix_nil | |].
    + destruct w; [|simpl; lia]. by injection Hw as <-.
    + intros v j Hv Hvs Hlv. by rewrite (Hfree v w j n Hv Hw Hvs Hlv).
  - intros n w Hw. destruct (decide (n = root)) as [->|Hn].
    + rewrite (wfl_root_failure st Hl), (wfl_root_output st Hl). constructor.
    + destruct (Hroot n w Hw Hn) as [-> ->]. constructor.
Qed.

Lemma X21_witness : scan_complete true a_trie "banana".
Proof.
  assert (reachable true a_trie) as Hr
      by apply reachable_snd_addString, rtc_refl.
  apply (X21_no_overlap_complete true a_trie "banana").
  - done.
  - by vm_compute.
  - intros v w j n Hv Hw Hsuf Hlen.
    pose proof (inv_tree _ _ (reachable_Inv _ _ Hr)) as Hwf.
    assert (length w ≤ 1) as Hw1.
    { destruct (decide (n = root)) as [->|Hn].
      { apply walk_root_nil in Hw as ->; [simpl; lia | done]. }
      destruct (cov_node _ _ (reachable_covered _ _ Hr) n
                  (walk_lt _ _ _ Hwf Hw) Hn) as (w' & r & Hw' & Hin & Hpre).
      rewrite (walk_inj _ w w' n Hwf Hw Hw').
      apply prefix_length in Hpre. rewrite length_normalize in Hpre.
      assert (keywords a_trie = [Result.stub "a" 0]) as Hk by by vm_compute.
      rewrite Hk in Hin. apply list_elem_of_singleton in Hin as ->.
      simpl in Hpre. lia. }
    destruct v; [done | simpl in Hlen; lia].
Defined.
